(** * resize.py: a multiprocess JPG resizer, embedded and verified

    The development follows [src/resize.py]:
    - [PyFloat]: the binary64 arithmetic Python performs on [float]s, taken
      from the Standard Library's executable IEEE-754 specification;
    - [PyStr]: the pieces of [os.path] and [pathlib] the script calls;
    - [Resize]: [resize_image], [get_image_files] and [main], with the image
      library, the file system and the CPU count as parameters;
    - [Spec], [Fit], [FloatValue]: what the specification says, the bounded
      fit of the image library, and the exact values the scaling is
      compared with.

    The theorems come after the definitions: mode selection, validation and
    the batch first, then the rounding of binary64, the two scaling
    computations and the bounded fit. *)

From Stdlib Require Import ZArith QArith Qround Qminmax Qpower Lqa.
From Stdlib Require Import List String Ascii Bool Lia DecimalString.
From Stdlib Require Import Floats.SpecFloat.
Import ListNotations.

Local Open Scope string_scope.
Local Open Scope Z_scope.

(** ** Exceptions and the error monad

    Only [str(e)] of an exception is ever observed by the script, so an
    exception is its message. *)

Record exn := Exn { exn_str : string }.

Inductive result (A : Type) : Type :=
| Ok (a : A)
| Raise (e : exn).
Arguments Ok {A} a.
Arguments Raise {A} e.

Definition bind {A B} (r : result A) (k : A -> result B) : result B :=
  match r with
  | Ok a => k a
  | Raise e => Raise e
  end.

Declare Scope py_scope.
Delimit Scope py_scope with py.
Notation "x <- c ;; k" := (bind c (fun x => k))
  (at level 61, c at next level, right associativity) : py_scope.
Notation "' pat <- c ;; k" := (bind c (fun x => match x with pat => k end))
  (at level 61, pat pattern, c at next level, right associativity) : py_scope.

(** ** Python floats *)

Module PyFloat.

Definition prec : Z := 53.
Definition emax : Z := 1024.

Definition float := spec_float.

Definition zero : float := S754_zero false.

(** [float(n)] for an [int]: correctly rounded, [OverflowError] when the
    integer is too large. *)
Definition of_int (n : Z) : result float :=
  match binary_normalize prec emax n 0 false with
  | S754_infinity _ => Raise (Exn "int too large to convert to float")
  | f => Ok f
  end.

(** [x * y] on floats: IEEE multiplication, never raises. *)
Definition mul (x y : float) : float := SFmul prec emax x y.

(** [x / y] on floats: [ZeroDivisionError] on a zero divisor. *)
Definition div (x y : float) : result float :=
  match y with
  | S754_zero _ => Raise (Exn "float division by zero")
  | _ => Ok (SFdiv prec emax x y)
  end.

(** [a / b] on two [int]s (true division): the correctly rounded
    quotient of the two integers. *)
Definition int_truediv (a b : Z) : result float :=
  if b =? 0 then Raise (Exn "division by zero")
  else
    match a with
    | Z0 => Ok (S754_zero (b <? 0))
    | _ =>
        match SFdiv prec emax
                (S754_finite (a <? 0) (Z.to_pos (Z.abs a)) 0)
                (S754_finite (b <? 0) (Z.to_pos (Z.abs b)) 0) with
        | S754_infinity _ =>
            Raise (Exn "integer division result too large for a float")
        | f => Ok f
        end
    end.

(** [int(x)]: truncation toward zero; NaN and the infinities raise. *)
Definition to_int (x : float) : result Z :=
  match x with
  | S754_nan => Raise (Exn "cannot convert float NaN to integer")
  | S754_infinity _ => Raise (Exn "cannot convert float infinity to integer")
  | S754_zero _ => Ok 0
  | S754_finite s m e =>
      let a := match e with
               | Zneg p => Z.pos m / 2 ^ Z.pos p
               | _ => Z.pos m * 2 ^ e
               end in
      Ok (if s then - a else a)
  end.

(** Truth value of a float: everything but the two zeros. *)
Definition truthy (x : float) : bool :=
  match x with
  | S754_zero _ => false
  | _ => true
  end.

(** [x <= 0], the comparison of a float with the integer zero. *)
Definition le0 (x : float) : bool := SFleb x zero.

(** [x - y] and [abs(x)] on floats. *)
Definition sub (x y : float) : float := SFsub prec emax x y.

Definition abs (x : float) : float := SFabs x.

(** [x < y] and [x >= y] on floats: false as soon as one is NaN. *)
Definition lt (x y : float) : bool := SFltb x y.

Definition ge (x y : float) : bool := SFleb y x.

(** [math.floor(x)] and [math.ceil(x)]: the integers next to a finite
    float; NaN and the infinities raise. *)
Definition floor (x : float) : result Z :=
  match x with
  | S754_nan => Raise (Exn "cannot convert float NaN to integer")
  | S754_infinity _ => Raise (Exn "cannot convert float infinity to integer")
  | S754_zero _ => Ok 0
  | S754_finite s m e =>
      Ok (match e with
          | Zneg p => cond_Zopp s (Z.pos m) / 2 ^ Z.pos p
          | _ => cond_Zopp s (Z.pos m) * 2 ^ e
          end)
  end.

Definition ceil (x : float) : result Z :=
  match x with
  | S754_nan => Raise (Exn "cannot convert float NaN to integer")
  | S754_infinity _ => Raise (Exn "cannot convert float infinity to integer")
  | S754_zero _ => Ok 0
  | S754_finite s m e =>
      Ok (match e with
          | Zneg p => - (cond_Zopp (negb s) (Z.pos m) / 2 ^ Z.pos p)
          | _ => cond_Zopp s (Z.pos m) * 2 ^ e
          end)
  end.

End PyFloat.

(** ** Strings: [os.path.join], [os.path.basename], [Path(..).suffix] *)

Module PyStr.

Definition sep : ascii := "/"%char.
Definition dot : ascii := "."%char.

Definition str_of_Z (z : Z) : string := NilZero.string_of_int (Z.to_int z).

Fixpoint contains (c : ascii) (s : string) : bool :=
  match s with
  | EmptyString => false
  | String a r => Ascii.eqb a c || contains c r
  end.

Definition startswith (c : ascii) (s : string) : bool :=
  match s with
  | String a _ => Ascii.eqb a c
  | EmptyString => false
  end.

Fixpoint endswith (c : ascii) (s : string) : bool :=
  match s with
  | EmptyString => false
  | String a EmptyString => Ascii.eqb a c
  | String _ r => endswith c r
  end.

(** [posixpath.join(a, b)]. *)
Definition join (a b : string) : string :=
  if startswith sep b then b
  else if (String.eqb a "" || endswith sep a)%bool then a ++ b
  else a ++ String sep b.

(** [posixpath.basename(p)]: what follows the last separator. *)
Fixpoint basename (p : string) : string :=
  match p with
  | EmptyString => EmptyString
  | String c r =>
      if contains sep r then basename r
      else if Ascii.eqb c sep then r else p
  end.

(** [s.rfind('.')], as an index when there is a dot. *)
Fixpoint rfind_dot (s : string) : option nat :=
  match s with
  | EmptyString => None
  | String c r =>
      match rfind_dot r with
      | Some i => Some (S i)
      | None => if Ascii.eqb c dot then Some O else None
      end
  end.

(** [PurePath.suffix] on a one-component path such as an entry of
    [os.listdir]: the name from its last dot on, when that dot is neither
    the first nor the last character. *)
Definition suffix (name : string) : string :=
  match rfind_dot name with
  | Some i =>
      if (Nat.ltb 0 i && Nat.ltb i (String.length name - 1))%bool
      then substring i (String.length name - i) name
      else ""
  | None => ""
  end.

Definition lower_ascii (c : ascii) : ascii :=
  let n := nat_of_ascii c in
  if (Nat.leb 65 n && Nat.leb n 90)%bool then ascii_of_nat (n + 32) else c.

(** [s.lower()] on ASCII letters. *)
Fixpoint lower (s : string) : string :=
  match s with
  | EmptyString => EmptyString
  | String c r => String (lower_ascii c) (lower r)
  end.

End PyStr.

(** ** The script *)

Module Resize.
Import PyFloat PyStr.
Local Open Scope py_scope.

(** *** Data *)

(** What the script reads of a PIL image: its colour mode and its size. *)
Record image := Image { img_mode : string; img_size : Z * Z }.

(** The image library, an external collaborator. *)
Record ImageLib := {
  lib_open : string -> result image;
  lib_convert : image -> result image;
  lib_resize : image -> Z * Z -> result image;
  lib_thumbnail : image -> Z * Z -> result image;
  lib_save : image -> string -> result unit
}.

(** The rest of the environment of a run. *)
Record Runtime := {
  path_exists : string -> bool;
  makedirs : string -> result unit;
  listdir : string -> result (list string);
  cpu_count : Z;
  repr_float : float -> string
}.

(** The namespace [argparse] returns. *)
Record Args := {
  input : string;
  output : string;
  percent : option float;
  width : option Z;
  height : option Z;
  exact : bool;
  aspect : bool;
  workers : option Z
}.

(** The tuple handed to [resize_image], in the order it is unpacked. *)
Record Task := {
  input_path : string;
  output_path : string;
  t_width : option Z;
  t_height : option Z;
  t_percent : option float;
  maintain_aspect : bool;
  t_exact : bool
}.

(** Truth value of an optional [int]: [None] and [0] are false. *)
Definition truthy_int (o : option Z) : bool :=
  match o with
  | Some z => negb (z =? 0)
  | None => false
  end.

(** Truth value of an optional [float]. *)
Definition truthy_float (o : option float) : bool :=
  match o with
  | Some x => truthy x
  | None => false
  end.

Definition is_none {A} (o : option A) : bool :=
  match o with
  | None => true
  | Some _ => false
  end.

(** [width] and [height] are used as [int]s and [percent] as a [float];
    [None] in such a place is a [TypeError]. *)
Definition need_int (o : option Z) : result Z :=
  match o with
  | Some z => Ok z
  | None => Raise (Exn "'NoneType' object cannot be interpreted as an integer")
  end.

Definition need_float (o : option float) : result float :=
  match o with
  | Some x => Ok x
  | None => Raise (Exn "unsupported operand type(s) for *: 'int' and 'NoneType'")
  end.

(** *** [resize_image], lines 34 to 92 *)

(** The branches of the [if]/[elif] chain of lines 55 to 85. *)
Inductive mode :=
| Percent
| Exact
| WidthOnly
| HeightOnly
| Aspect
| Default.

(** Which branch is taken: the tests of lines 55, 61, 65, 71 and 78, in
    that order. *)
Definition select_mode (t : Task) : mode :=
  if truthy_float (t_percent t) then Percent
  else if t_exact t then Exact
  else if truthy_int (t_width t) && negb (truthy_int (t_height t)) then WidthOnly
  else if truthy_int (t_height t) && negb (truthy_int (t_width t)) then HeightOnly
  else if maintain_aspect t then Aspect
  else Default.

(** [int(n * percent / 100)], line 56 and line 57. *)
Definition scale_percent (n : Z) (p : float) : result Z :=
  fn <- of_int n ;;
  c <- of_int 100 ;;
  q <- div (mul fn p) c ;;
  to_int q.

(** [int(target * (num / den))], lines 67-68 and lines 73-74. *)
Definition scale_ratio (target num den : Z) : result Z :=
  aspect_ratio <- int_truediv num den ;;
  ft <- of_int target ;;
  to_int (mul ft aspect_ratio).

(** The pair [(width, height)] a branch hands to the library: to
    [img.resize], or to [img.thumbnail] in the [Aspect] branch. *)
Definition target_size (t : Task) (m : mode) (orig : Z * Z) : result (Z * Z) :=
  let '(original_width, original_height) := orig in
  match m with
  | Percent =>
      p <- need_float (t_percent t) ;;
      w <- scale_percent original_width p ;;
      h <- scale_percent original_height p ;;
      Ok (w, h)
  | WidthOnly =>
      w <- need_int (t_width t) ;;
      h <- scale_ratio w original_height original_width ;;
      Ok (w, h)
  | HeightOnly =>
      h <- need_int (t_height t) ;;
      w <- scale_ratio h original_width original_height ;;
      Ok (w, h)
  | Exact | Default | Aspect =>
      w <- need_int (t_width t) ;;
      h <- need_int (t_height t) ;;
      Ok (w, h)
  end.

Definition success_message (t : Task) (orig final : Z * Z) : string :=
  ("✓ Resized: " ++ basename (input_path t)
     ++ " (" ++ str_of_Z (fst orig) ++ "x" ++ str_of_Z (snd orig)
     ++ " → " ++ str_of_Z (fst final) ++ "x" ++ str_of_Z (snd final) ++ ")")%string.

Definition failure_message (t : Task) (e : exn) : string :=
  ("✗ Error with " ++ basename (input_path t) ++ ": " ++ exn_str e)%string.

Section WithLibrary.
Variable L : ImageLib.

(** The body of the [try], lines 47 to 89: the status message and the
    file that was written. *)
Definition resize_body (t : Task) : result (string * (string * image)) :=
  img <- lib_open L (input_path t) ;;
  img <- (if negb (String.eqb (img_mode img) "RGB")
          then lib_convert L img else Ok img) ;;
  let orig := img_size img in
  '(resized, final) <-
    match select_mode t with
    | Aspect =>
        bounds <- target_size t Aspect orig ;;
        img' <- lib_thumbnail L img bounds ;;
        Ok (img', img_size img')
    | m =>
        size <- target_size t m orig ;;
        resized <- lib_resize L img size ;;
        Ok (resized, size)
    end ;;
  _ <- lib_save L resized (output_path t) ;;
  Ok (success_message t orig final, (output_path t, resized)).

(** [resize_image]: the message returned, and the files written. *)
Definition resize_image (t : Task) : string * list (string * image) :=
  match resize_body t with
  | Ok (msg, file) => (msg, [file])
  | Raise e => (failure_message t e, [])
  end.

End WithLibrary.

(** *** [get_image_files], lines 95 to 104 *)

Definition extensions : list string := [".jpg"; ".jpeg"; ".JPG"; ".JPEG"].

Definition has_image_suffix (file : string) : bool :=
  existsb (String.eqb (suffix file)) extensions.

Definition get_image_files (R : Runtime) (input_folder : string)
  : result (list string) :=
  entries <- listdir R input_folder ;;
  Ok (filter has_image_suffix entries).

(** *** [main], lines 107 to 247 *)

Definition nl : string := String (ascii_of_nat 10) EmptyString.

(** The checks of lines 163 to 189, in order: the message of the first one
    that fails, or [None] when all pass. *)
Definition validate (args : Args) : option string :=
  if match percent args with Some p => le0 p | None => false end
  then Some "Error: Percentage must be greater than 0"
  else if is_none (percent args) && is_none (width args) && is_none (height args)
  then Some "Error: Must specify either --percent, --width, --height, or both --width and --height"
  else if exact args && aspect args
  then Some "Error: Cannot use both --exact and --aspect flags"
  else if (exact args || aspect args) && (is_none (width args) || is_none (height args))
  then Some "Error: --exact and --aspect flags require both --width and --height"
  else if match width args with Some w => w <=? 0 | None => false end
  then Some "Error: Width must be greater than 0"
  else if match height args with Some h => h <=? 0 | None => false end
  then Some "Error: Height must be greater than 0"
  else None.

(** [str(x)] of an optional [int] inside an f-string. *)
Definition str_of_opt (o : option Z) : string :=
  match o with
  | Some z => str_of_Z z
  | None => "None"
  end.

(** Line 221. *)
Definition num_workers (R : Runtime) (args : Args) : Z :=
  if truthy_int (workers args) then
    match workers args with Some n => n | None => cpu_count R end
  else cpu_count R.

(** Lines 225 to 236. *)
Definition make_task (args : Args) (filename : string) : Task :=
  {| input_path := join (input args) filename;
     output_path := join (output args) filename;
     t_width := width args;
     t_height := height args;
     t_percent := percent args;
     maintain_aspect := aspect args;
     t_exact := exact args |}.

(** What a run does to the world, in order. *)
Inductive event :=
| EPrint (line : string)
| EMakedirs (path : string)
| EListdir (path : string)
| EPool (processes : Z) (tasks : list Task)
| ESave (path : string) (img : image).

Section WithWorld.
Variable L : ImageLib.
Variable R : Runtime.

(** Lines 203 to 218. *)
Definition display_mode (args : Args) : list event :=
  if truthy_float (percent args) then
    [EPrint ("Mode: Resize to "
               ++ match percent args with Some p => repr_float R p | None => "None" end
               ++ "% of original size")%string]
  else if exact args then
    [EPrint "Mode: Exact dimensions (no aspect ratio preservation)";
     EPrint ("Target: " ++ str_of_opt (width args) ++ "x" ++ str_of_opt (height args))%string]
  else if aspect args then
    [EPrint "Mode: Fit within bounds (maintain aspect ratio)";
     EPrint ("Maximum: " ++ str_of_opt (width args) ++ "x" ++ str_of_opt (height args))%string]
  else if truthy_int (width args) && negb (truthy_int (height args)) then
    [EPrint ("Mode: Resize to width " ++ str_of_opt (width args)
               ++ "px (height auto-calculated)")%string]
  else if truthy_int (height args) && negb (truthy_int (width args)) then
    [EPrint ("Mode: Resize to height " ++ str_of_opt (height args)
               ++ "px (width auto-calculated)")%string]
  else
    [EPrint "Mode: Resize to exact dimensions";
     EPrint ("Target: " ++ str_of_opt (width args) ++ "x" ++ str_of_opt (height args))%string].

(** [pool.map(resize_image, tasks)]: one result per task, in the order
    of the tasks. *)
Definition pool_map (tasks : list Task) : list (string * list (string * image)) :=
  map (resize_image L) tasks.

(** Lines 191 to 247, once the arguments have been accepted. *)
Definition process (args : Args) : list event * option exn :=
  match makedirs R (output args) with
  | Raise e => ([EMakedirs (output args)], Some e)
  | Ok _ =>
      match get_image_files R (input args) with
      | Raise e => ([EMakedirs (output args); EListdir (input args)], Some e)
      | Ok image_files =>
          let listed := [EMakedirs (output args); EListdir (input args)] in
          if Nat.eqb (List.length image_files) 0 then
            ((listed ++ [EPrint "No JPG images found in input folder"])%list, None)
          else
            let n := num_workers R args in
            let tasks := map (make_task args) image_files in
            let head :=
              (listed
                 ++ [EPrint ("Found " ++ str_of_Z (Z.of_nat (List.length image_files))
                               ++ " images")%string]
                 ++ display_mode args
                 ++ [EPrint ("Using " ++ str_of_Z n ++ " worker processes" ++ nl)%string])%list in
            if n <? 1 then
              (head, Some (Exn "Number of processes must be at least 1"))
            else
              let results := pool_map tasks in
              ((head
                  ++ [EPool n tasks]
                  ++ map (fun f => ESave (fst f) (snd f)) (flat_map snd results)
                  ++ [EPrint (nl ++ "Results:")%string]
                  ++ map (fun r => EPrint (fst r)) results
                  ++ [EPrint (nl ++ "Completed! Resized images saved to '"
                                ++ output args ++ "'")%string])%list,
               None)
      end
  end.

Definition main (args : Args) : list event * option exn :=
  if negb (path_exists R (input args)) then
    ([EPrint ("Error: Input folder '" ++ input args ++ "' does not exist")%string], None)
  else
    match validate args with
    | Some msg => ([EPrint msg], None)
    | None => process args
    end.

End WithWorld.

End Resize.

(** ** What the specification says, as definitions *)

Module Spec.
Import PyFloat PyStr Resize.

Definition is_some {A} (o : option A) : bool := negb (is_none o).

(** The selection order of section 4.1, on presence of the parameters. *)
Definition spec_mode (args : Args) : mode :=
  if is_some (percent args) then Percent
  else if exact args then Exact
  else if is_some (width args) && is_none (height args) then WidthOnly
  else if is_some (height args) && is_none (width args) then HeightOnly
  else if aspect args then Aspect
  else Default.

(** The rejected configurations of section 4.2, step 2. *)
Definition no_method (args : Args) : bool :=
  is_none (percent args) && is_none (width args) && is_none (height args).

Definition bad_percent (args : Args) : bool :=
  match percent args with Some p => le0 p | None => false end.

Definition bad_dimension (args : Args) : bool :=
  match width args with Some w => w <=? 0 | None => false end
  || match height args with Some h => h <=? 0 | None => false end.

Definition both_flags (args : Args) : bool := exact args && aspect args.

Definition flag_without_box (args : Args) : bool :=
  (exact args || aspect args) && negb (is_some (width args) && is_some (height args)).

Definition spec_invalid (args : Args) : bool :=
  no_method args || bad_percent args || bad_dimension args
  || both_flags args || flag_without_box args.

(** No file is enumerated, no directory created, no task run, no file
    written: the run only printed. *)
Definition only_prints (tr : list event) : Prop :=
  Forall (fun ev => exists line, ev = EPrint line) tr.

Definition with_workers (n : option Z) (args : Args) : Args :=
  {| input := input args; output := output args; percent := percent args;
     width := width args; height := height args; exact := exact args;
     aspect := aspect args; workers := n |}.

Definition with_exact (b : bool) (args : Args) : Args :=
  {| input := input args; output := output args; percent := percent args;
     width := width args; height := height args; exact := b;
     aspect := aspect args; workers := workers args |}.

(** Case-insensitive match of a suffix against [.jpg] and [.jpeg]. *)
Definition matches_nocase (file : string) : bool :=
  existsb (String.eqb (lower (suffix file))) [".jpg"; ".jpeg"].

(** A library for concrete runs: every file opens as an RGB image of the
    given size, [resize] returns an image of the size asked for unless a
    side is not positive, and nothing else fails. *)
Definition demo_lib (size : Z * Z) : ImageLib :=
  {| lib_open := fun _ => Ok (Image "RGB" size);
     lib_convert := fun img => Ok (Image "RGB" (img_size img));
     lib_resize := fun img sz =>
       if (0 <? fst sz) && (0 <? snd sz) then Ok (Image (img_mode img) sz)
       else Raise (Exn "height and width must be > 0");
     lib_thumbnail := fun img _ => Ok img;
     lib_save := fun _ _ => Ok tt |}.

Definition demo_runtime (entries : list string) : Runtime :=
  {| path_exists := fun _ => true;
     makedirs := fun _ => Ok tt;
     listdir := fun _ => Ok entries;
     cpu_count := 4;
     repr_float := fun _ => "?" |}.

Definition demo_args : Args :=
  {| input := "in"; output := "out"; percent := None; width := Some 400;
     height := None; exact := false; aspect := false; workers := None |}.

(** [--percent 75 --width 1920 --height 1080 --exact]: every sizing
    parameter at once. *)
Definition crowded_args : Args :=
  {| input := "in"; output := "out";
     percent := Some (S754_finite false 5277655813324800 (-46));
     width := Some 1920; height := Some 1080;
     exact := true; aspect := false; workers := None |}.

End Spec.

(** ** The bounded fit of the aspect branch *)

Module Fit.
Import PyFloat Resize.
Local Open Scope py_scope.

(** Modelled from the spec: [Image.thumbnail], the fit routine of the
    image library, is not part of the repository. Section 4.1 has it
    "scale the image down (never up) so it fits within (width, height)
    while preserving aspect ratio", and section 8 works it on an 800 by
    600 image in a 1000 by 500 box: "output ≈(667,500)". The definitions
    below are the size computation of the library's routine, in the
    double precision it is done in: of the floor and the ceiling of the
    proportional side, the one that keeps the ratio of the sides closer,
    and never less than one pixel.

    [round_aspect number key] is
    [max(min(math.floor(number), math.ceil(number), key=key), 1)]; [min]
    keeps its first argument unless the key of the second is smaller. *)
Definition round_aspect (number : float) (key : Z -> result float) : result Z :=
  lo <- floor number ;;
  hi <- ceil number ;;
  klo <- key lo ;;
  khi <- key hi ;;
  Ok (Z.max (if lt khi klo then hi else lo) 1).

(** Modelled from the spec: the size the fit settles on for an image of
    size [size] and a box [box], or nothing when the image is within
    the box already. The side of the box that the ratio of the image
    leaves free is recomputed from the other one. *)
Definition preserve_aspect_ratio (size box : Z * Z) : result (option (Z * Z)) :=
  let '(w, h) := size in
  let '(x, y) := box in
  if (w <=? x) && (h <=? y) then Ok None
  else
    aspect <- int_truediv w h ;;
    r <- int_truediv x y ;;
    if ge r aspect then
      fy <- of_int y ;;
      x' <- round_aspect (mul fy aspect)
              (fun n => q <- int_truediv n y ;; Ok (abs (sub aspect q))) ;;
      Ok (Some (x', y))
    else
      fx <- of_int x ;;
      number <- div fx aspect ;;
      y' <- round_aspect number
              (fun n => if n =? 0 then Ok zero
                        else q <- int_truediv x n ;; Ok (abs (sub aspect q))) ;;
      Ok (Some (x, y')).

(** Modelled from the spec: the size [Image.thumbnail] leaves the image
    with. *)
Definition thumbnail_size (size box : Z * Z) : result (Z * Z) :=
  fitted <- preserve_aspect_ratio size box ;;
  Ok (match fitted with
      | None => size
      | Some s => s
      end).

(** Modelled from the spec: [img.thumbnail(box)] itself, which keeps the
    colour mode. *)
Definition spec_thumbnail (img : image) (box : Z * Z) : result image :=
  s <- thumbnail_size (img_size img) box ;;
  Ok (Image (img_mode img) s).

(** A library whose [thumbnail] is that fit. *)
Definition with_spec_thumbnail (L : ImageLib) : ImageLib :=
  {| lib_open := lib_open L;
     lib_convert := lib_convert L;
     lib_resize := lib_resize L;
     lib_thumbnail := spec_thumbnail;
     lib_save := lib_save L |}.

Definition aspect_args (bw bh : Z) : Args :=
  {| input := "in"; output := "out"; percent := None; width := Some bw;
     height := Some bh; exact := false; aspect := true; workers := None |}.

End Fit.

(** ** Values of floats, for the statements about rounding *)

Module FloatValue.
Import PyFloat.

(** The rational a float stands for; zero for what is not a number. *)
Definition SF2Q (x : float) : Q :=
  match x with
  | S754_finite s m e => inject_Z (cond_Zopp s (Z.pos m)) * 2 ^ e
  | _ => 0
  end.

(** [m * 2^e] as a rational. *)
Definition F2Q (m e : Z) : Q := inject_Z m * 2 ^ e.

(** The float a nonnegative mantissa and an exponent are packed into
    once rounding has settled on them: the mantissa is at most [2^53],
    and [2^53] itself is renormalised. *)
Definition pack (m e : Z) : float :=
  match m with
  | Z0 => S754_zero false
  | Z.pos p =>
      if m <? 2 ^ 53 then
        if e <=? 971 then S754_finite false p e else S754_infinity false
      else
        if e + 1 <=? 971 then S754_finite false (2 ^ 52) (e + 1)
        else S754_infinity false
  | Z.neg _ => S754_nan
  end.

(** A finite float that is zero or positive. *)
Definition nonneg_finite (x : float) : Prop :=
  match x with
  | S754_zero _ => True
  | S754_finite s _ _ => s = false
  | _ => False
  end.

(** A positive finite float with a full mantissa of 53 bits: what every
    rounding gives in the normal range. *)
Definition normal53 (x : float) : Prop :=
  match x with
  | S754_finite false m _ => 2 ^ 52 <= Z.pos m < 2 ^ 53
  | _ => False
  end.

(** [n * p / 100], exactly. *)
Definition exact_percent (n : Z) (p : float) : Q := inject_Z n * SF2Q p / 100.

(** The relative error bound of one rounding used below: [2^-52]. *)
Definition roundoff : Q := 1 # 4503599627370496.

(** The double nearest to 2.4, which is slightly below it. *)
Definition just_below_2_4 : float := S754_finite false 5404319552844595 (-51).

End FloatValue.

(** ** Configurations for concrete runs of the scaling branches *)

Module ScalingExamples.
Import PyFloat FloatValue Resize.

(** The double 75.0. *)
Definition seventy_five : float := S754_finite false 5277655813324800 (-46).

Definition percent_args (p : float) : Args :=
  {| input := "in"; output := "out"; percent := Some p; width := None;
     height := None; exact := false; aspect := false; workers := None |}.

Definition width_args (w : Z) : Args :=
  {| input := "in"; output := "out"; percent := None; width := Some w;
     height := None; exact := false; aspect := false; workers := None |}.

Definition height_args (h : Z) : Args :=
  {| input := "in"; output := "out"; percent := None; width := None;
     height := Some h; exact := false; aspect := false; workers := None |}.

End ScalingExamples.

(** ** Definitions for the further properties of the script *)

Module Extra.
Import PyFloat PyStr Resize.

(** The lines each branch of lines 204 to 218 prints, by the branch of
    [resize_image] they announce. *)
Definition mode_banner (R : Runtime) (args : Args) (m : mode) : list event :=
  match m with
  | Percent =>
      [EPrint ("Mode: Resize to "
                 ++ match percent args with Some p => repr_float R p | None => "None" end
                 ++ "% of original size")%string]
  | Exact =>
      [EPrint "Mode: Exact dimensions (no aspect ratio preservation)";
       EPrint ("Target: " ++ str_of_opt (width args) ++ "x" ++ str_of_opt (height args))%string]
  | Aspect =>
      [EPrint "Mode: Fit within bounds (maintain aspect ratio)";
       EPrint ("Maximum: " ++ str_of_opt (width args) ++ "x" ++ str_of_opt (height args))%string]
  | WidthOnly =>
      [EPrint ("Mode: Resize to width " ++ str_of_opt (width args)
                 ++ "px (height auto-calculated)")%string]
  | HeightOnly =>
      [EPrint ("Mode: Resize to height " ++ str_of_opt (height args)
                 ++ "px (width auto-calculated)")%string]
  | Default =>
      [EPrint "Mode: Resize to exact dimensions";
       EPrint ("Target: " ++ str_of_opt (width args) ++ "x" ++ str_of_opt (height args))%string]
  end.

(** [--aspect --width 400] with no height: refused by the checks of
    [main], and what the two chains would do with it if it were not. *)
Definition aspect_width_only : Args :=
  {| input := "in"; output := "out"; percent := None; width := Some 400;
     height := None; exact := false; aspect := true; workers := None |}.

(** A task that asks for a percentage and nothing else. *)
Definition percent_task (t : Task) : Task :=
  {| input_path := input_path t;
     output_path := output_path t;
     t_width := None;
     t_height := None;
     t_percent := t_percent t;
     maintain_aspect := false;
     t_exact := false |}.

(** The paths a batch writes to. *)
Definition written_paths (results : list (string * list (string * image)))
  : list string :=
  map fst (flat_map snd results).

(** A name ends with one of the extensions, after a stem that is not
    empty. *)
Definition stem_and_extension (name : string) : Prop :=
  exists stem ext,
    In ext extensions /\ stem <> EmptyString /\ name = (stem ++ ext)%string.

(** A library on which every step fails. *)
Definition failing_lib : ImageLib :=
  {| lib_open := fun _ => Raise (Exn "cannot identify image file");
     lib_convert := fun _ => Raise (Exn "convert");
     lib_resize := fun _ _ => Raise (Exn "resize");
     lib_thumbnail := fun _ _ => Raise (Exn "thumbnail");
     lib_save := fun _ _ => Raise (Exn "save") |}.

(** The library [L] once the file at [path] cannot be opened any more. *)
Definition corrupt (L : ImageLib) (path : string) (e : exn) : ImageLib :=
  {| lib_open := fun q => if String.eqb q path then Raise e else lib_open L q;
     lib_convert := lib_convert L;
     lib_resize := lib_resize L;
     lib_thumbnail := lib_thumbnail L;
     lib_save := lib_save L |}.

(** The double 100.0. *)
Definition one_hundred : float := S754_finite false 7036874417766400 (-46).

(** A task for [--percent p], [--width n] or [--height n] alone. *)
Definition sizing_task (p : option float) (w h : option Z) : Task :=
  {| input_path := "in/a.jpg"; output_path := "out/a.jpg";
     t_width := w; t_height := h; t_percent := p;
     maintain_aspect := false; t_exact := false |}.

End Extra.

(** ** Mode selection, validation and the worker count *)

Import PyFloat PyStr Resize Spec.

Lemma le0_false_truthy (p : float) : le0 p = false -> truthy p = true.
Proof. destruct p as [s | s | | s m e]; try reflexivity; destruct s; discriminate. Qed.

Lemma positive_truthy (z : Z) : (z <=? 0) = false -> truthy_int (Some z) = true.
Proof.
  intros H. apply Z.leb_gt in H. simpl.
  destruct (Z.eqb_spec z 0); [lia | reflexivity].
Qed.

(** What passing [validate] gives: each clause of the checks, negated. *)
Lemma validate_None (args : Args) :
  validate args = None <->
  bad_percent args = false
  /\ no_method args = false
  /\ both_flags args = false
  /\ ((exact args || aspect args) && (is_none (width args) || is_none (height args))) = false
  /\ bad_dimension args = false.
Proof.
  unfold validate, bad_percent, no_method, both_flags, bad_dimension.
  destruct (match percent args with Some p => le0 p | None => false end);
    [ intuition discriminate | ].
  destruct (is_none (percent args) && is_none (width args) && is_none (height args));
    [ intuition discriminate | ].
  destruct (exact args && aspect args); [ intuition discriminate | ].
  destruct ((exact args || aspect args) && (is_none (width args) || is_none (height args)));
    [ intuition discriminate | ].
  destruct (match width args with Some w => w <=? 0 | None => false end);
    [ simpl; intuition discriminate | ].
  destruct (match height args with Some h => h <=? 0 | None => false end);
    simpl; intuition discriminate.
Qed.

Lemma spec_invalid_validate (args : Args) :
  spec_invalid args = true <-> validate args <> None.
Proof.
  split.
  - intros Hbad Hok. apply validate_None in Hok.
    destruct Hok as (Hp & Hn & Hb & Hf & Hd).
    unfold spec_invalid, flag_without_box, is_some in Hbad.
    rewrite Hp, Hn, Hb, Hd in Hbad. simpl in Hbad.
    rewrite negb_andb, !negb_involutive, Hf in Hbad. discriminate.
  - intros Hrej. destruct (spec_invalid args) eqn:Hbad; [reflexivity | ].
    exfalso. apply Hrej. apply validate_None.
    unfold spec_invalid, flag_without_box, is_some in Hbad.
    rewrite negb_andb, !negb_involutive in Hbad.
    repeat (apply orb_false_iff in Hbad; destruct Hbad as [Hbad ?]).
    auto.
Qed.

(** On an accepted configuration the truth value of each parameter is its
    presence. *)
Lemma validated_truthiness (args : Args) :
  validate args = None ->
  truthy_float (percent args) = is_some (percent args)
  /\ truthy_int (width args) = is_some (width args)
  /\ truthy_int (height args) = is_some (height args).
Proof.
  intros Hok. apply validate_None in Hok.
  destruct Hok as (Hp & _ & _ & _ & Hd).
  unfold bad_percent in Hp. unfold bad_dimension in Hd.
  apply orb_false_iff in Hd. destruct Hd as [Hw Hh].
  repeat split.
  - destruct (percent args) as [p | ]; [ | reflexivity].
    simpl. now apply le0_false_truthy.
  - destruct (width args) as [w | ]; [ | reflexivity].
    now apply positive_truthy.
  - destruct (height args) as [h | ]; [ | reflexivity].
    now apply positive_truthy.
Qed.

(** C1. On every accepted configuration, and for every file, the branch
    [resize_image] takes is the one the selection order of the
    specification names: percent, then exact, then width-only, then
    height-only, then aspect, then the default; the default is reached only
    with both sides given and no flag; and percent wins whatever else is
    given with it. *)
Theorem mode_cascade (args : Args) (filename : string) :
  validate args = None ->
  select_mode (make_task args filename) = spec_mode args
  /\ (select_mode (make_task args filename) = Default ->
      is_some (width args) = true /\ is_some (height args) = true
      /\ exact args = false /\ aspect args = false)
  /\ (is_some (percent args) = true ->
      select_mode (make_task args filename) = Percent).
Proof.
  intros Hok.
  destruct (validated_truthiness args Hok) as (Hp & Hw & Hh).
  assert (Hsel : select_mode (make_task args filename) = spec_mode args).
  { unfold select_mode, spec_mode. simpl. rewrite Hp, Hw, Hh.
    unfold is_some. rewrite !negb_involutive. reflexivity. }
  split; [exact Hsel | ]. rewrite Hsel. clear Hp Hw Hh Hsel.
  apply validate_None in Hok. destruct Hok as (_ & Hn & _ & _ & _).
  unfold no_method in Hn. unfold spec_mode, is_some.
  split.
  - destruct (percent args), (exact args), (width args), (height args), (aspect args);
      simpl in *; try discriminate; auto.
  - intros H. rewrite H. reflexivity.
Qed.

Lemma mode_cascade_witness :
  select_mode (make_task demo_args "a.jpg") = WidthOnly
  /\ select_mode (make_task crowded_args "a.jpg") = Percent.
Proof.
  split.
  - apply (mode_cascade demo_args "a.jpg"). reflexivity.
  - apply (mode_cascade crowded_args "a.jpg"); reflexivity.
Defined.

Lemma main_rejected L R (args : Args) :
  validate args <> None -> exists line, main L R args = ([EPrint line], None).
Proof.
  intros Hrej. unfold main.
  destruct (negb (path_exists R (input args))); [eauto | ].
  destruct (validate args) as [msg | ]; [eauto | congruence].
Qed.

Lemma process_starts_with_makedirs L R (args : Args) :
  exists rest, fst (process L R args) = EMakedirs (output args) :: rest.
Proof.
  unfold process.
  destruct (makedirs R (output args)); [ | simpl; eauto].
  destruct (get_image_files R (input args)) as [files | e]; [ | simpl; eauto].
  destruct (Nat.eqb (List.length files) 0); [simpl; eauto | ].
  destruct (num_workers R args <? 1); simpl; eauto.
Qed.

(** C3. The configurations the specification rejects are exactly those
    [validate] rejects. On each of them [main] prints one line and returns:
    no directory is created, no file enumerated, no task run, nothing
    written. A configuration that passes, given an input folder that
    exists, goes on to the processing of lines 191 to 247, which starts by
    creating the output folder. *)
Theorem validation_gate L R (args : Args) :
  (spec_invalid args = true <-> validate args <> None)
  /\ (spec_invalid args = true ->
      only_prints (fst (main L R args)) /\ snd (main L R args) = None)
  /\ (spec_invalid args = false -> path_exists R (input args) = true ->
      main L R args = process L R args
      /\ exists rest, fst (main L R args) = EMakedirs (output args) :: rest).
Proof.
  split; [apply spec_invalid_validate | split].
  - intros Hbad. apply spec_invalid_validate in Hbad.
    destruct (main_rejected L R args Hbad) as [line ->]. simpl.
    split; [ | reflexivity]. constructor; [eauto | constructor].
  - intros Hgood Hdir.
    assert (Hmain : main L R args = process L R args).
    { unfold main. rewrite Hdir. simpl.
      destruct (validate args) as [msg | ] eqn:Hv; [ | reflexivity].
      assert (Hrej : spec_invalid args = true)
        by (apply spec_invalid_validate; congruence).
      congruence. }
    split; [exact Hmain | ]. rewrite Hmain. apply process_starts_with_makedirs.
Qed.

Lemma validation_gate_witness :
  (only_prints (fst (main (demo_lib (800, 600)) (demo_runtime ["a.jpg"])
                      (with_exact true demo_args)))
   /\ snd (main (demo_lib (800, 600)) (demo_runtime ["a.jpg"])
             (with_exact true demo_args)) = None)
  /\ main (demo_lib (800, 600)) (demo_runtime ["a.jpg"]) demo_args
     = process (demo_lib (800, 600)) (demo_runtime ["a.jpg"]) demo_args.
Proof.
  split.
  - apply (validation_gate (demo_lib (800, 600)) (demo_runtime ["a.jpg"])
             (with_exact true demo_args)).
    reflexivity.
  - apply (validation_gate (demo_lib (800, 600)) (demo_runtime ["a.jpg"]) demo_args);
      reflexivity.
Defined.

(** C10. With [--workers 0] the worker count is the CPU count, the same as
    when the option is left out; the value is not rejected, and the whole
    run is the run without the option. *)
Theorem workers_zero_is_default L R (args : Args) :
  workers args = Some 0 ->
  num_workers R args = cpu_count R
  /\ num_workers R args = num_workers R (with_workers None args)
  /\ validate args = validate (with_workers None args)
  /\ main L R args = main L R (with_workers None args).
Proof.
  intros Hw.
  assert (Hn : num_workers R args = cpu_count R)
    by (unfold num_workers; rewrite Hw; reflexivity).
  repeat split; try assumption.
  unfold main, process. rewrite Hn. reflexivity.
Qed.

Lemma workers_zero_is_default_witness :
  num_workers (demo_runtime ["a.jpg"]) (with_workers (Some 0) demo_args) = 4
  /\ main (demo_lib (800, 600)) (demo_runtime ["a.jpg"]) (with_workers (Some 0) demo_args)
     = main (demo_lib (800, 600)) (demo_runtime ["a.jpg"])
         (with_workers None (with_workers (Some 0) demo_args)).
Proof.
  split;
    apply (workers_zero_is_default (demo_lib (800, 600)) (demo_runtime ["a.jpg"])
             (with_workers (Some 0) demo_args));
    reflexivity.
Defined.

(** C8. With both sides given and no flag, on an accepted configuration
    and for every original size, the default branch hands the library the
    requested [(width, height)] unchanged, which is what the exact branch
    hands it for the same two numbers; without [--percent] the default
    branch is the one taken, and the whole of [resize_image] is what it is
    under [--exact]. *)
Theorem default_is_exact L (args : Args) (filename : string) (w h : Z) (orig : Z * Z) :
  validate args = None ->
  width args = Some w -> height args = Some h ->
  exact args = false -> aspect args = false ->
  target_size (make_task args filename) Default orig = Ok (w, h)
  /\ target_size (make_task (with_exact true args) filename) Exact orig = Ok (w, h)
  /\ (percent args = None ->
      select_mode (make_task args filename) = Default
      /\ select_mode (make_task (with_exact true args) filename) = Exact
      /\ validate (with_exact true args) = None
      /\ resize_image L (make_task args filename)
         = resize_image L (make_task (with_exact true args) filename)).
Proof.
  intros Hok Hw Hh He Ha.
  destruct orig as [ow oh].
  split; [ | split].
  - simpl. rewrite Hw, Hh. reflexivity.
  - simpl. rewrite Hw, Hh. reflexivity.
  - intros Hp.
    destruct (validated_truthiness args Hok) as (_ & Htw & Hth).
    rewrite Hw in Htw. rewrite Hh in Hth.
    assert (Hd : select_mode (make_task args filename) = Default).
    { unfold select_mode. simpl. rewrite Hp, He, Ha, Hw, Hh, Htw, Hth. reflexivity. }
    assert (Hx : select_mode (make_task (with_exact true args) filename) = Exact).
    { unfold select_mode. simpl. rewrite Hp. reflexivity. }
    split; [exact Hd | split; [exact Hx | split]].
    + unfold validate in *. simpl. rewrite Hp, Hw, Hh, He, Ha in *. simpl in *. exact Hok.
    + unfold resize_image, resize_body. rewrite Hd, Hx. reflexivity.
Qed.

Lemma default_is_exact_witness :
  target_size (make_task (Build_Args "in" "out" None (Some 1920) (Some 1080) false false None)
                 "a.jpg") Default (800, 600) = Ok (1920, 1080)
  /\ target_size (make_task
                    (with_exact true
                       (Build_Args "in" "out" None (Some 1920) (Some 1080) false false None))
                    "a.jpg") Exact (800, 600) = Ok (1920, 1080).
Proof.
  split;
    apply (default_is_exact (demo_lib (800, 600))
             (Build_Args "in" "out" None (Some 1920) (Some 1080) false false None)
             "a.jpg" 1920 1080 (800, 600));
    reflexivity.
Defined.

(** ** File names *)

Lemma contains_app_sep (d f : string) :
  contains sep (d ++ String sep f)%string = true.
Proof.
  induction d as [ | c d IH]; simpl.
  - reflexivity.
  - rewrite IH. apply orb_true_r.
Qed.

Lemma basename_no_sep (f : string) : contains sep f = false -> basename f = f.
Proof.
  destruct f as [ | c f]; simpl; [reflexivity | ].
  intros H. apply orb_false_iff in H. destruct H as [Hc Hf].
  rewrite Hf, Hc. reflexivity.
Qed.

Lemma basename_app_sep (d f : string) :
  contains sep f = false -> basename (d ++ String sep f)%string = f.
Proof.
  intros Hf. induction d as [ | c d IH]; simpl.
  - rewrite Hf. reflexivity.
  - rewrite contains_app_sep. exact IH.
Qed.

Lemma endswith_split (d : string) :
  endswith sep d = true -> exists d', d = (d' ++ String sep EmptyString)%string.
Proof.
  induction d as [ | c d IH]; simpl; [discriminate | ].
  destruct d as [ | c' d].
  - intros H. apply Ascii.eqb_eq in H. subst c. exists EmptyString. reflexivity.
  - intros H. destruct (IH H) as [d' Hd']. exists (String c d').
    simpl. rewrite <- Hd'. reflexivity.
Qed.

Lemma app_assoc_sep (d' f : string) :
  ((d' ++ String sep EmptyString) ++ f)%string = (d' ++ String sep f)%string.
Proof. induction d' as [ | c d' IH]; simpl; [reflexivity | now rewrite IH]. Qed.

(** [os.path.basename(os.path.join(folder, name))] is [name] for a name
    without a separator, which is what [os.listdir] returns. *)
Lemma basename_join (folder name : string) :
  contains sep name = false -> basename (join folder name) = name.
Proof.
  intros Hn. unfold join.
  assert (Hs : startswith sep name = false).
  { destruct name as [ | c r]; [reflexivity | ].
    simpl in *. apply orb_false_iff in Hn. tauto. }
  rewrite Hs.
  destruct (String.eqb_spec folder "") as [-> | _]; simpl.
  - now apply basename_no_sep.
  - destruct (endswith sep folder) eqn:He.
    + destruct (endswith_split folder He) as [d' ->].
      rewrite app_assoc_sep. now apply basename_app_sep.
    + now apply basename_app_sep.
Qed.

(** ** Enumeration *)

Lemma has_image_suffix_In (file : string) :
  has_image_suffix file = true <-> In (suffix file) extensions.
Proof.
  unfold has_image_suffix. rewrite existsb_exists. split.
  - intros (x & Hx & Heq). apply String.eqb_eq in Heq. now subst x.
  - intros H. exists (suffix file). split; [exact H | apply String.eqb_refl].
Qed.

Lemma listed_suffix_nocase (file : string) :
  In (suffix file) extensions -> matches_nocase file = true.
Proof.
  unfold matches_nocase, extensions. simpl.
  intros [H | [H | [H | [H | []]]]]; rewrite <- H; reflexivity.
Qed.

(** What [get_image_files] returns: in the order of the listing, exactly
    the entries whose suffix is one of the four spellings [.jpg], [.jpeg],
    [.JPG], [.JPEG] of line 97; each of them matches [.jpg] or [.jpeg]
    without regard to case. *)
Theorem enumeration_by_listed_suffix R (folder : string) (entries : list string) :
  listdir R folder = Ok entries ->
  exists files,
    get_image_files R folder = Ok files
    /\ files = filter has_image_suffix entries
    /\ (forall f, In f files <-> In f entries /\ In (suffix f) extensions)
    /\ (forall f, In f files -> matches_nocase f = true).
Proof.
  intros Hl. exists (filter has_image_suffix entries).
  unfold get_image_files. rewrite Hl. simpl.
  split; [reflexivity | split; [reflexivity | split]].
  - intros f. rewrite filter_In, has_image_suffix_In. reflexivity.
  - intros f Hf. apply filter_In in Hf. destruct Hf as [_ Hf].
    apply listed_suffix_nocase. now apply has_image_suffix_In.
Qed.

Lemma enumeration_by_listed_suffix_witness :
  exists files,
    get_image_files (demo_runtime ["a.jpg"; "notes.txt"; "B.JPEG"]) "in" = Ok files
    /\ files = filter has_image_suffix ["a.jpg"; "notes.txt"; "B.JPEG"]
    /\ (forall f, In f files <->
                  In f ["a.jpg"; "notes.txt"; "B.JPEG"] /\ In (suffix f) extensions)
    /\ (forall f, In f files -> matches_nocase f = true).
Proof.
  apply (enumeration_by_listed_suffix
           (demo_runtime ["a.jpg"; "notes.txt"; "B.JPEG"]) "in"
           ["a.jpg"; "notes.txt"; "B.JPEG"]).
  reflexivity.
Defined.

(** C5, at the input on which the code misses it. The docstring of
    [get_image_files] promises all JPG/JPEG files and line 97 spells the
    extension in lower and in upper case, but line 101 tests membership
    in that set and nothing folds the case: [photo.Jpg] has the suffix
    [.Jpg], [scan.JPeg] the suffix [.JPeg], both match [.jpg] or [.jpeg]
    without regard to case, and neither is returned. *)
Lemma mixed_case_suffix_skipped :
  suffix "photo.Jpg" = ".Jpg"
  /\ matches_nocase "photo.Jpg" = true
  /\ suffix "scan.JPeg" = ".JPeg"
  /\ matches_nocase "scan.JPeg" = true
  /\ get_image_files (demo_runtime ["photo.Jpg"; "scan.JPeg"]) "in" = Ok []
  /\ get_image_files (demo_runtime ["photo.Jpg"; "photo.jpg"; "photo.JPG"]) "in"
     = Ok ["photo.jpg"; "photo.JPG"].
Proof. repeat split. Qed.

(** ** One outcome per file *)

Lemma resize_image_cases L (t : Task) :
  (exists msg file, resize_body L t = Ok (msg, file)
                    /\ resize_image L t = (msg, [file]))
  \/ (exists e, resize_body L t = Raise e
                /\ resize_image L t = (failure_message t e, [])).
Proof.
  unfold resize_image.
  destruct (resize_body L t) as [[msg file] | e]; [left | right]; eauto.
Qed.

Lemma failure_message_names_file (args : Args) (f : string) (e : exn) :
  contains sep f = false ->
  failure_message (make_task args f) e
  = ("✗ Error with " ++ f ++ ": " ++ exn_str e)%string.
Proof.
  intros Hf. unfold failure_message. simpl. now rewrite basename_join.
Qed.




(** C9. [--width 400] alone passes every check, and on a 1000 by 1 image
    the width-only branch computes the size (400, 0): line 68 truncates
    400 * (1 / 1000) to zero. The call of [img.resize] with that size is
    inside the [try], so when the library refuses it the task returns the
    failure line of that file. *)
Theorem zero_height_after_validation :
  validate demo_args = None
  /\ (forall filename,
        select_mode (make_task demo_args filename) = WidthOnly
        /\ target_size (make_task demo_args filename) WidthOnly (1000, 1) = Ok (400, 0))
  /\ (forall L filename e,
        lib_open L (input_path (make_task demo_args filename))
        = Ok (Image "RGB" (1000, 1)) ->
        lib_resize L (Image "RGB" (1000, 1)) (400, 0) = Raise e ->
        resize_image L (make_task demo_args filename)
        = (failure_message (make_task demo_args filename) e, [])).
Proof.
  split; [reflexivity | split].
  - intros filename. split; reflexivity.
  - intros L filename e Hopen Hresize.
    unfold resize_image, resize_body. rewrite Hopen.
    cbn [bind img_mode].
    change (negb (String.eqb "RGB" "RGB")) with false.
    cbn [bind img_size].
    change (select_mode (make_task demo_args filename)) with WidthOnly.
    change (target_size (make_task demo_args filename) WidthOnly (1000, 1))
      with (@Ok (Z * Z) (400, 0)).
    cbn [bind]. rewrite Hresize. reflexivity.
Qed.

Lemma zero_height_after_validation_witness :
  resize_image (demo_lib (1000, 1)) (make_task demo_args "a.jpg")
  = ("✗ Error with a.jpg: height and width must be > 0", []).
Proof.
  destruct zero_height_after_validation as (_ & _ & H).
  apply (H (demo_lib (1000, 1)) "a.jpg" (Exn "height and width must be > 0"));
    reflexivity.
Defined.

(** ** Binary64 rounding

    What the development needs of the rounding of the Standard Library's
    specification, proved from its definitions: [binary_round_aux] on a
    nonnegative mantissa keeps the integer part of the value at the
    exponent it settles on, or that integer part plus one. *)

Module Rounding.
Import PyFloat.

Lemma fexp_eq (e : Z) : fexp prec emax e = Z.max (e - 53) (-1074).
Proof. reflexivity. Qed.

Lemma digits2_pos_bounds (p : positive) :
  2 ^ (Z.pos (digits2_pos p) - 1) <= Z.pos p < 2 ^ Z.pos (digits2_pos p).
Proof.
  induction p as [p IH | p IH | ]; cbn [digits2_pos].
  - rewrite Pos2Z.inj_succ. change (Z.pos p~1) with (2 * Z.pos p + 1).
    replace (Z.succ (Z.pos (digits2_pos p)) - 1)
      with (Z.succ (Z.pos (digits2_pos p) - 1)) by lia.
    rewrite !Z.pow_succ_r by lia. revert IH.
    generalize (2 ^ (Z.pos (digits2_pos p) - 1)) (2 ^ Z.pos (digits2_pos p)).
    intros; lia.
  - rewrite Pos2Z.inj_succ. change (Z.pos p~0) with (2 * Z.pos p).
    replace (Z.succ (Z.pos (digits2_pos p)) - 1)
      with (Z.succ (Z.pos (digits2_pos p) - 1)) by lia.
    rewrite !Z.pow_succ_r by lia. revert IH.
    generalize (2 ^ (Z.pos (digits2_pos p) - 1)) (2 ^ Z.pos (digits2_pos p)).
    intros; lia.
  - simpl. lia.
Qed.

Lemma Zdigits2_bounds (m : Z) :
  0 < m -> 2 ^ (Zdigits2 m - 1) <= m < 2 ^ Zdigits2 m.
Proof.
  destruct m as [ | p | p]; try lia. intros _. apply digits2_pos_bounds.
Qed.

Lemma Zdigits2_nonneg (m : Z) : 0 <= Zdigits2 m.
Proof. destruct m; simpl; lia. Qed.

Lemma Zdigits2_pos (m : Z) : 0 < m -> 0 < Zdigits2 m.
Proof. destruct m; simpl; lia. Qed.

Lemma Zdigits2_le (m k : Z) : 0 <= m -> 0 <= k -> m < 2 ^ k -> Zdigits2 m <= k.
Proof.
  intros Hm Hk Hlt. destruct (Z.eq_dec m 0) as [-> | Hz]; [simpl; lia | ].
  pose proof (Zdigits2_bounds m ltac:(lia)) as [Hlo _].
  pose proof (Zdigits2_pos m ltac:(lia)).
  assert (2 ^ (Zdigits2 m - 1) < 2 ^ k) by lia.
  apply Z.pow_lt_mono_r_iff in H0; lia.
Qed.

Lemma Zdigits2_gt (m k : Z) : 0 <= k -> 2 ^ k <= m -> k < Zdigits2 m.
Proof.
  intros Hk Hle.
  assert (0 < m) by (pose proof (Z.pow_pos_nonneg 2 k); lia).
  pose proof (Zdigits2_bounds m H) as [_ Hhi].
  pose proof (Zdigits2_pos m H).
  assert (2 ^ k < 2 ^ Zdigits2 m) by lia.
  apply Z.pow_lt_mono_r_iff in H1; lia.
Qed.

(** *** Shifting right *)

Lemma shr_1_m (mrs : shr_record) :
  0 <= shr_m mrs -> shr_m (shr_1 mrs) = shr_m mrs / 2.
Proof.
  destruct mrs as [m r s]. cbn [shr_m]. intros Hm.
  rewrite <- Z.div2_div.
  destruct m as [ | [p | p | ] | p]; try lia; reflexivity.
Qed.

Lemma shr_1_nonneg (mrs : shr_record) : 0 <= shr_m mrs -> 0 <= shr_m (shr_1 mrs).
Proof.
  intros H. rewrite shr_1_m by assumption. apply Z.div_pos; lia.
Qed.

Lemma iter_shr_1_m (p : positive) (mrs : shr_record) :
  0 <= shr_m mrs ->
  shr_m (iter_pos shr_1 p mrs) = shr_m mrs / 2 ^ Z.pos p
  /\ 0 <= shr_m (iter_pos shr_1 p mrs).
Proof.
  revert mrs. induction p as [p IH | p IH | ]; intros mrs Hm; cbn [iter_pos].
  - pose proof (shr_1_nonneg mrs Hm) as H1.
    destruct (IH (shr_1 mrs) H1) as [E2 H2].
    destruct (IH _ H2) as [E3 H3].
    split; [ | exact H3].
    rewrite E3, E2, shr_1_m by assumption.
    rewrite !Z.div_div by (try apply Z.pow_pos_nonneg; lia).
    f_equal. change (Z.pos p~1) with (2 * Z.pos p + 1).
    replace (2 * Z.pos p + 1) with (1 + Z.pos p + Z.pos p) by lia.
    rewrite !Z.pow_add_r by lia. change (2 ^ 1) with 2. ring.
  - destruct (IH mrs Hm) as [E2 H2].
    destruct (IH _ H2) as [E3 H3].
    split; [ | exact H3].
    rewrite E3, E2.
    rewrite !Z.div_div by (try apply Z.pow_pos_nonneg; lia).
    f_equal. change (Z.pos p~0) with (2 * Z.pos p).
    replace (2 * Z.pos p) with (Z.pos p + Z.pos p) by lia.
    rewrite !Z.pow_add_r by lia. ring.
  - split; [ | now apply shr_1_nonneg].
    rewrite shr_1_m by assumption. reflexivity.
Qed.

Lemma shr_spec (mrs : shr_record) (e n : Z) :
  0 <= shr_m mrs ->
  shr_m (fst (shr mrs e n)) = shr_m mrs / 2 ^ Z.max 0 n
  /\ snd (shr mrs e n) = e + Z.max 0 n.
Proof.
  intros Hm. destruct n as [ | p | p]; cbn [shr fst snd].
  - rewrite Z.div_1_r. split; [reflexivity | simpl; lia].
  - rewrite Z.max_r by lia. split; [ | reflexivity].
    now apply iter_shr_1_m.
  - rewrite Z.max_l by lia. rewrite Z.div_1_r. split; [reflexivity | simpl; lia].
Qed.

Lemma shr_record_of_loc_m (m : Z) (l : location) : shr_m (shr_record_of_loc m l) = m.
Proof. destruct l as [ | [ | | ]]; reflexivity. Qed.

Lemma shr_fexp_spec (m e : Z) (l : location) :
  0 <= m ->
  let n := Z.max 0 (fexp prec emax (Zdigits2 m + e) - e) in
  shr_m (fst (shr_fexp prec emax m e l)) = m / 2 ^ n
  /\ snd (shr_fexp prec emax m e l) = e + n.
Proof.
  intros Hm n. unfold shr_fexp.
  pose proof (shr_spec (shr_record_of_loc m l) e
                (fexp prec emax (Zdigits2 m + e) - e)) as H.
  rewrite shr_record_of_loc_m in H. now apply H.
Qed.

Lemma shr_fexp_exact (m e : Z) :
  fexp prec emax (Zdigits2 m + e) <= e ->
  shr_fexp prec emax m e loc_Exact = (Build_shr_record m false false, e).
Proof.
  intros H. unfold shr_fexp.
  destruct (fexp prec emax (Zdigits2 m + e) - e) as [ | p | p] eqn:E;
    try reflexivity; lia.
Qed.

Lemma round_nearest_even_cases (m : Z) (l : location) :
  round_nearest_even m l = m \/ round_nearest_even m l = m + 1.
Proof.
  destruct l as [ | [ | | ]]; cbn [round_nearest_even]; auto.
  destruct (Z.even m); auto.
Qed.

End Rounding.

Module RoundAux.
Import PyFloat FloatValue Rounding.

Lemma fexp_lower (e : Z) : -1074 <= fexp prec emax e /\ e - 53 <= fexp prec emax e.
Proof. rewrite fexp_eq. lia. Qed.

(** The mantissa kept by the first shift has at most 53 bits. *)
Lemma kept_mantissa_bound (mx ex : Z) :
  0 <= mx ->
  mx / 2 ^ (Z.max ex (fexp prec emax (Zdigits2 mx + ex)) - ex) < 2 ^ 53.
Proof.
  intros Hmx.
  set (e' := Z.max ex (fexp prec emax (Zdigits2 mx + ex))).
  pose proof (fexp_lower (Zdigits2 mx + ex)) as [_ Hf].
  pose proof (Zdigits2_nonneg mx) as Hd.
  assert (Hn : 0 <= e' - ex) by lia.
  assert (Hdn : Zdigits2 mx <= (e' - ex) + 53) by lia.
  apply Z.div_lt_upper_bound; [apply Z.pow_pos_nonneg; lia | ].
  rewrite <- Z.pow_add_r by lia.
  destruct (Z.eq_dec mx 0) as [-> | Hz]; [apply Z.pow_pos_nonneg; lia | ].
  pose proof (Zdigits2_bounds mx ltac:(lia)) as [_ Hhi].
  apply Z.lt_le_trans with (1 := Hhi).
  apply Z.pow_le_mono_r; lia.
Qed.

Lemma pack_small (m e : Z) :
  0 <= m -> m < 2 ^ 53 -> -1074 <= e ->
  (let '(mrs, e'') := shr_fexp prec emax m e loc_Exact in
   match shr_m mrs with
   | Z0 => S754_zero false
   | Z.pos p => if e'' <=? emax - prec then S754_finite false p e''
                else S754_infinity false
   | Z.neg _ => S754_nan
   end) = pack m e.
Proof.
  intros H0 H53 He.
  assert (Hd : Zdigits2 m <= 53) by (apply Zdigits2_le; lia).
  rewrite shr_fexp_exact by (rewrite fexp_eq; lia).
  cbn [shr_m]. unfold pack.
  destruct m as [ | p | p]; try reflexivity.
  destruct (Z.ltb_spec (Z.pos p) (2 ^ 53)); [reflexivity | lia].
Qed.

Lemma pack_carry (e : Z) :
  -1074 <= e ->
  (let '(mrs, e'') := shr_fexp prec emax (2 ^ 53) e loc_Exact in
   match shr_m mrs with
   | Z0 => S754_zero false
   | Z.pos p => if e'' <=? emax - prec then S754_finite false p e''
                else S754_infinity false
   | Z.neg _ => S754_nan
   end) = pack (2 ^ 53) e.
Proof.
  intros He.
  pose proof (shr_fexp_spec (2 ^ 53) e loc_Exact ltac:(lia)) as [Hm Hs].
  cbv zeta in Hm, Hs.
  change (Zdigits2 (2 ^ 53)) with 54 in Hm, Hs.
  rewrite fexp_eq in Hm, Hs.
  replace (Z.max 0 (Z.max (54 + e - 53) (-1074) - e)) with 1 in Hm, Hs by lia.
  destruct (shr_fexp prec emax (2 ^ 53) e loc_Exact) as [mrs e''].
  cbn [fst snd] in Hm, Hs. rewrite Hm, Hs.
  reflexivity.
Qed.

(** [binary_round_aux] on a nonnegative mantissa: the exponent it
    settles on, and the mantissa it keeps, up to the rounding by one. *)
Lemma binary_round_aux_cases (mx ex : Z) (lx : location) :
  0 <= mx ->
  let e' := Z.max ex (fexp prec emax (Zdigits2 mx + ex)) in
  let m' := mx / 2 ^ (e' - ex) in
  exists m2,
    (m2 = m' \/ m2 = m' + 1)
    /\ (lx = loc_Exact -> e' = ex -> m2 = m')
    /\ binary_round_aux prec emax false mx ex lx = pack m2 e'.
Proof.
  intros Hmx e' m'.
  pose proof (kept_mantissa_bound mx ex Hmx) as Hm53. fold e' in Hm53. fold m' in Hm53.
  pose proof (fexp_lower (Zdigits2 mx + ex)) as [Hemin _].
  assert (He' : -1074 <= e') by (unfold e'; lia).
  assert (Hm'0 : 0 <= m') by (apply Z.div_pos; [ | apply Z.pow_pos_nonneg]; lia).
  pose proof (shr_fexp_spec mx ex lx Hmx) as [Hm Hs]. cbv zeta in Hm, Hs.
  replace (ex + Z.max 0 (fexp prec emax (Zdigits2 mx + ex) - ex)) with e' in Hs
    by (unfold e'; lia).
  replace (Z.max 0 (fexp prec emax (Zdigits2 mx + ex) - ex)) with (e' - ex) in Hm
    by (unfold e'; lia).
  fold m' in Hm.
  unfold binary_round_aux.
  destruct (shr_fexp prec emax mx ex lx) as [mrs1 e1] eqn:E1.
  cbn [fst snd] in Hm, Hs. subst e1.
  set (m2 := round_nearest_even (shr_m mrs1) (loc_of_shr_record mrs1)).
  exists m2.
  assert (Hm2 : m2 = m' \/ m2 = m' + 1).
  { unfold m2. rewrite <- Hm. apply round_nearest_even_cases. }
  split; [exact Hm2 | split].
  - intros -> Hex. unfold m2.
    rewrite shr_fexp_exact in E1 by (fold e'; lia).
    injection E1 as <- _. cbn [shr_m loc_of_shr_record round_nearest_even].
    unfold m'. rewrite Hex, Z.sub_diag, Z.div_1_r. reflexivity.
  - destruct (Z.eq_dec m2 (2 ^ 53)) as [-> | Hne].
    + now apply pack_carry.
    + apply pack_small; lia.
Qed.

End RoundAux.

(** ** Values *)

Module RoundQ.
Import PyFloat FloatValue Rounding RoundAux.
Local Open Scope Q_scope.

Lemma pow2_pos (e : Z) : 0 < 2 ^ e.
Proof. apply Qpower_0_lt. reflexivity. Qed.

Lemma pow2_add (a b : Z) : 2 ^ (a + b) == 2 ^ a * 2 ^ b.
Proof. apply Qpower_plus. discriminate. Qed.

Lemma pow2_Z (n : Z) : (0 <= n)%Z -> 2 ^ n == inject_Z (2 ^ n).
Proof. intros H. symmetry. apply (Zpower_Qpower 2 n H). Qed.

Lemma pow2_le (a b : Z) : (a <= b)%Z -> 2 ^ a <= 2 ^ b.
Proof. intros H. apply Qpower_le_compat_l; [exact H | discriminate]. Qed.

Lemma pow2_le_1 (a : Z) : (a <= 0)%Z -> 2 ^ a <= 1.
Proof. intros H. apply (pow2_le a 0 H). Qed.

Lemma F2Q_shift (a e n : Z) : (0 <= n)%Z -> F2Q a (e + n) == F2Q (a * 2 ^ n) e.
Proof.
  intros Hn. unfold F2Q.
  rewrite pow2_add, inject_Z_mult, (pow2_Z n Hn). ring.
Qed.

Lemma F2Q_le (a b e : Z) : (a <= b)%Z -> F2Q a e <= F2Q b e.
Proof.
  intros H. unfold F2Q. apply Qmult_le_compat_r.
  - now rewrite <- Zle_Qle.
  - apply Qlt_le_weak, pow2_pos.
Qed.

Lemma F2Q_lt (a b e : Z) : (a < b)%Z -> F2Q a e < F2Q b e.
Proof.
  intros H. unfold F2Q. apply Qmult_lt_compat_r.
  - apply pow2_pos.
  - now rewrite <- Zlt_Qlt.
Qed.

Lemma F2Q_lt_inv (a b e : Z) : F2Q a e < F2Q b e -> (a < b)%Z.
Proof.
  intros H. destruct (Z_lt_le_dec a b) as [Hlt | Hle]; [exact Hlt | ].
  apply (F2Q_le b a e) in Hle. exfalso. apply (Qlt_irrefl (F2Q a e)).
  now apply Qlt_le_trans with (F2Q b e).
Qed.

Lemma F2Q_succ (a e : Z) : F2Q (a + 1) e == F2Q a e + 2 ^ e.
Proof. unfold F2Q. rewrite inject_Z_plus. ring. Qed.

Lemma F2Q_nonneg (a e : Z) : (0 <= a)%Z -> 0 <= F2Q a e.
Proof.
  intros H. unfold F2Q. apply Qmult_le_0_compat.
  - change (inject_Z 0 <= inject_Z a). now rewrite <- Zle_Qle.
  - apply Qlt_le_weak, pow2_pos.
Qed.

(** Dropping [n] low bits of the mantissa keeps the value between the
    two neighbours at the coarser exponent. *)
Lemma F2Q_floor (m e n : Z) :
  (0 <= n)%Z ->
  F2Q (m / 2 ^ n) (e + n) <= F2Q m e /\ F2Q m e < F2Q (m / 2 ^ n + 1) (e + n).
Proof.
  intros Hn.
  assert (Hp : (0 < 2 ^ n)%Z) by (apply Z.pow_pos_nonneg; lia).
  rewrite !F2Q_shift by assumption. split.
  - apply F2Q_le. rewrite Z.mul_comm. apply Z.mul_div_le. exact Hp.
  - apply F2Q_lt.
    pose proof (Z.mul_succ_div_gt m (2 ^ n) Hp). lia.
Qed.

Lemma SF2Q_pack (m e : Z) :
  (0 <= m <= 2 ^ 53)%Z -> (e <= 970)%Z ->
  nonneg_finite (pack m e) /\ SF2Q (pack m e) == F2Q m e.
Proof.
  intros Hm He. unfold pack.
  destruct m as [ | p | p]; [ | | lia].
  - split; [exact I | ]. unfold F2Q. simpl SF2Q. ring.
  - destruct (Z.ltb_spec (Z.pos p) (2 ^ 53)) as [Hlt | Hge].
    + destruct (Z.leb_spec e 971); [ | lia].
      split; reflexivity.
    + destruct (Z.leb_spec (e + 1) 971); [ | lia].
      split; [reflexivity | ].
      assert (Hp : Z.pos p = (2 ^ 53)%Z) by lia. rewrite Hp.
      cbn [SF2Q cond_Zopp]. fold (F2Q (Z.pos (2 ^ 52)) (e + 1)).
      rewrite F2Q_shift by lia. reflexivity.
Qed.

(** [int(x)] is the floor of a nonnegative finite float. *)
Lemma to_int_floor (f : float) :
  nonneg_finite f -> to_int f = Ok (Qfloor (SF2Q f)).
Proof.
  destruct f as [s | s | | s m e]; cbn [nonneg_finite];
    [ intros _; reflexivity | tauto | tauto | ].
  intros ->. cbn [to_int SF2Q cond_Zopp]. f_equal.
  destruct e as [ | p | p].
  - rewrite Z.mul_1_r. symmetry.
    rewrite <- (Qfloor_Z (Z.pos m)) at 2. apply Qfloor_comp.
    change (2 ^ 0) with 1. ring.
  - symmetry. rewrite <- (Qfloor_Z (Z.pos m * 2 ^ Z.pos p)). apply Qfloor_comp.
    rewrite inject_Z_mult, (pow2_Z (Z.pos p)) by lia. reflexivity.
  - rewrite Zdiv_Qdiv. apply Qfloor_comp.
    change (Z.neg p) with (- Z.pos p)%Z. rewrite Qpower_opp.
    rewrite (pow2_Z (Z.pos p)) by lia. reflexivity.
Qed.

End RoundQ.

Module Ops.
Import PyFloat FloatValue Rounding RoundAux RoundQ.
Local Open Scope Q_scope.

Lemma F2Q_mul (a b e f : Z) : F2Q a e * F2Q b f == F2Q (a * b) (e + f).
Proof. unfold F2Q. rewrite inject_Z_mult, pow2_add. ring. Qed.

Lemma F2Q_pos (a e : Z) : (0 < a)%Z -> 0 < F2Q a e.
Proof.
  intros H. unfold F2Q. apply Qmult_lt_0_compat; [ | apply pow2_pos].
  change (inject_Z 0 < inject_Z a). now rewrite <- Zlt_Qlt.
Qed.

(** The rounding of a nonnegative real [x] known through a mantissa and
    an exponent that bracket it: the result is a finite float, one of
    the two neighbours of [x] at the exponent [e']. *)
Lemma round_bracket (mx ex : Z) (lx : location) (x : Q) :
  (0 <= mx)%Z -> F2Q mx ex <= x -> x < F2Q (mx + 1) ex ->
  let e' := Z.max ex (fexp prec emax (Zdigits2 mx + ex)) in
  (e' <= 970)%Z ->
  let f := binary_round_aux prec emax false mx ex lx in
  exists mf : Z,
    mf = (mx / 2 ^ (e' - ex))%Z
    /\ (0 <= mf < 2 ^ 53)%Z
    /\ nonneg_finite f
    /\ F2Q mf e' <= x /\ x < F2Q (mf + 1) e'
    /\ (SF2Q f == F2Q mf e' \/ SF2Q f == F2Q (mf + 1) e')
    /\ (lx = loc_Exact -> e' = ex -> SF2Q f == F2Q mx ex).
Proof.
  intros Hmx Hlo Hhi e' He' f.
  pose proof (kept_mantissa_bound mx ex Hmx) as Hm53. fold e' in Hm53.
  destruct (binary_round_aux_cases mx ex lx Hmx) as (m2 & Hm2 & Hex & Hf).
  fold e' in Hm2, Hex, Hf. fold f in Hf.
  set (mf := (mx / 2 ^ (e' - ex))%Z) in *.
  assert (Hn : (0 <= e' - ex)%Z) by (unfold e'; lia).
  assert (Hmf0 : (0 <= mf)%Z)
    by (apply Z.div_pos; [ | apply Z.pow_pos_nonneg]; lia).
  assert (Hpk : nonneg_finite f /\ SF2Q f == F2Q m2 e').
  { rewrite Hf. apply SF2Q_pack; lia. }
  destruct Hpk as [Hfin Hval].
  pose proof (F2Q_floor mx ex (e' - ex) Hn) as [Fl Fh].
  replace (ex + (e' - ex))%Z with e' in Fl, Fh by lia. fold mf in Fl, Fh.
  exists mf. repeat split; try assumption; try lia.
  - now apply Qle_trans with (F2Q mx ex).
  - apply Qlt_le_trans with (1 := Hhi).
    replace e' with (ex + (e' - ex))%Z at 1 by lia.
    rewrite F2Q_shift by assumption. apply F2Q_le.
    assert (Hp : (0 < 2 ^ (e' - ex))%Z) by (apply Z.pow_pos_nonneg; lia).
    pose proof (Z.mul_succ_div_gt mx (2 ^ (e' - ex)) Hp). fold mf in H. lia.
  - destruct Hm2 as [-> | ->]; [left | right]; exact Hval.
  - intros Hl He. rewrite Hval, (Hex Hl He). unfold mf.
    rewrite He, Z.sub_diag, Z.div_1_r. reflexivity.
Qed.

(** The quotient the division hands to the rounding brackets the exact
    quotient. *)
Lemma SFdiv_core_bracket (m1 m2 : positive) (e1 e2 : Z) :
  let e' := Z.min (fexp prec emax (Zdigits2 (Z.pos m1) + e1 - (Zdigits2 (Z.pos m2) + e2)))
                  (e1 - e2) in
  let q := (Z.pos m1 * 2 ^ (e1 - e2 - e') / Z.pos m2)%Z in
  exists l,
    SFdiv_core_binary prec emax (Z.pos m1) e1 (Z.pos m2) e2 = (q, e', l)
    /\ (0 <= q)%Z
    /\ F2Q q e' <= F2Q (Z.pos m1) e1 / F2Q (Z.pos m2) e2
    /\ F2Q (Z.pos m1) e1 / F2Q (Z.pos m2) e2 < F2Q (q + 1) e'.
Proof.
  intros e' q. unfold SFdiv_core_binary. fold e'.
  set (s := (e1 - e2 - e')%Z).
  assert (Hs : (0 <= s)%Z) by (unfold s, e'; lia).
  set (m' := match s with
             | Z0 => Z.pos m1
             | Z.pos _ => Z.shiftl (Z.pos m1) s
             | Z.neg _ => 0%Z
             end).
  assert (Hm' : m' = (Z.pos m1 * 2 ^ s)%Z).
  { unfold m'. destruct s as [ | p | p]; [lia | | lia].
    apply Z.shiftl_mul_pow2. lia. }
  assert (Hq : (m' / Z.pos m2)%Z = q) by (rewrite Hm'; reflexivity).
  unfold Z.div in Hq.
  destruct (Z.div_eucl m' (Z.pos m2)) as [q0 r0] eqn:Ediv.
  cbn [fst] in Hq. subst q0.
  exists (new_location (Z.pos m2) r0).
  split; [reflexivity | ].
  assert (Hp2 : (0 < 2 ^ s)%Z) by (apply Z.pow_pos_nonneg; lia).
  pose proof (Z.mul_div_le (Z.pos m1 * 2 ^ s) (Z.pos m2) ltac:(lia)) as Hl.
  pose proof (Z.mul_succ_div_gt (Z.pos m1 * 2 ^ s) (Z.pos m2) ltac:(lia)) as Hh.
  change (Z.pos m1 * 2 ^ s / Z.pos m2)%Z with q in Hl, Hh.
  assert (Hq0 : (0 <= q)%Z) by (apply Z.div_pos; lia).
  assert (HX : F2Q (Z.pos m1) e1 == F2Q (Z.pos m1 * 2 ^ s) (e' + e2)).
  { rewrite <- F2Q_shift by assumption. unfold s.
    replace (e' + e2 + (e1 - e2 - e'))%Z with e1 by lia. reflexivity. }
  assert (HY : 0 < F2Q (Z.pos m2) e2) by (apply F2Q_pos; lia).
  clearbody q. set (n := (Z.pos m1 * 2 ^ s)%Z) in *. clearbody n.
  split; [exact Hq0 | split].
  - apply Qle_shift_div_l; [exact HY | ].
    rewrite F2Q_mul, HX. apply F2Q_le. lia.
  - apply Qlt_shift_div_r; [exact HY | ].
    rewrite F2Q_mul, HX. apply F2Q_lt. lia.
Qed.

Lemma mul_unfold (m1 m2 : positive) (e1 e2 : Z) :
  mul (S754_finite false m1 e1) (S754_finite false m2 e2)
  = binary_round_aux prec emax false (Z.pos m1 * Z.pos m2) (e1 + e2) loc_Exact.
Proof. reflexivity. Qed.

Lemma SFdiv_unfold (m1 m2 : positive) (e1 e2 : Z) (q e' : Z) (l : location) :
  SFdiv_core_binary prec emax (Z.pos m1) e1 (Z.pos m2) e2 = (q, e', l) ->
  SFdiv prec emax (S754_finite false m1 e1) (S754_finite false m2 e2)
  = binary_round_aux prec emax false q e' l.
Proof. intros H. cbn [SFdiv xorb]. rewrite H. reflexivity. Qed.

End Ops.

Module Convert.
Import PyFloat FloatValue Rounding RoundAux RoundQ Ops.
Local Open Scope Q_scope.

Lemma F2Q_pow2 (n e : Z) : (0 <= n)%Z -> F2Q (2 ^ n) e == 2 ^ (n + e).
Proof. intros H. unfold F2Q. rewrite pow2_add, (pow2_Z n H). reflexivity. Qed.

Lemma pow2_lt_inv (a b : Z) : 2 ^ a < 2 ^ b -> (a < b)%Z.
Proof. intros H. apply (Qpower_lt_compat_l_inv 2); [exact H | reflexivity]. Qed.

(** The position of the leading bit, from the value. *)
Lemma digits_exp_le (m e k : Z) :
  (0 < m)%Z -> F2Q m e < 2 ^ k -> (Zdigits2 m + e <= k)%Z.
Proof.
  intros Hm Hlt.
  pose proof (Zdigits2_bounds m Hm) as [Hlo _].
  pose proof (Zdigits2_pos m Hm) as Hd.
  apply (F2Q_le _ _ e) in Hlo. rewrite F2Q_pow2 in Hlo by lia.
  assert (H : 2 ^ (Zdigits2 m - 1 + e) < 2 ^ k)
    by (apply Qle_lt_trans with (1 := Hlo); exact Hlt).
  apply pow2_lt_inv in H. lia.
Qed.

Lemma digits_exp_gt (m e k : Z) :
  (0 < m)%Z -> 2 ^ k <= F2Q m e -> (k < Zdigits2 m + e)%Z.
Proof.
  intros Hm Hle.
  pose proof (Zdigits2_bounds m Hm) as [_ Hhi].
  pose proof (Zdigits2_pos m Hm) as Hd.
  apply (F2Q_lt _ _ e) in Hhi. rewrite F2Q_pow2 in Hhi by lia.
  apply pow2_lt_inv. now apply Qle_lt_trans with (1 := Hle).
Qed.

Lemma iter_xO (k p : positive) : Z.pos (Pos.iter xO p k) = (Z.pos p * 2 ^ Z.pos k)%Z.
Proof.
  change (Pos.iter xO p k) with (shift_pos k p).
  rewrite shift_pos_correct. rewrite Z.mul_comm. reflexivity.
Qed.

Lemma shl_align_spec (mx : positive) (ex ex' : Z) :
  let '(mz, ez) := shl_align mx ex ex' in
  ez = Z.min ex ex' /\ Z.pos mz = (Z.pos mx * 2 ^ (ex - ez))%Z.
Proof.
  unfold shl_align. destruct (ex' - ex)%Z as [ | k | k] eqn:E.
  - split; [lia | ]. rewrite Z.sub_diag. lia.
  - split; [lia | ]. rewrite Z.sub_diag. lia.
  - split; [lia | ]. rewrite iter_xO. f_equal. f_equal. lia.
Qed.

(** [float(n)] is exact for a positive [n] below [2^53], with a full
    53-bit mantissa. *)
Lemma of_int_exact (n : Z) :
  (1 <= n < 2 ^ 53)%Z ->
  exists m e,
    of_int n = Ok (S754_finite false m e)
    /\ F2Q (Z.pos m) e == inject_Z n
    /\ (2 ^ 52 <= Z.pos m < 2 ^ 53)%Z
    /\ (-52 <= e <= 0)%Z.
Proof.
  intros Hn. destruct n as [ | p | p]; try lia.
  unfold of_int, binary_normalize, binary_round.
  set (d := Z.pos (digits2_pos p)).
  pose proof (digits2_pos_bounds p) as [Hlo Hhi]. fold d in Hlo, Hhi.
  assert (Hd : (1 <= d <= 53)%Z).
  { split; [unfold d; lia | ].
    apply (Zdigits2_le (Z.pos p) 53); lia. }
  replace (fexp prec emax (d + 0)) with (d - 53)%Z by (rewrite fexp_eq; lia).
  pose proof (shl_align_spec p 0 (d - 53)) as Hsh.
  destruct (shl_align p 0 (d - 53)) as [mz ez]. destruct Hsh as [Hez Hmz].
  assert (Eez : ez = (d - 53)%Z) by lia. clear Hez. subst ez.
  replace (0 - (d - 53))%Z with (53 - d)%Z in Hmz by lia.
  assert (Hmz53 : (2 ^ 52 <= Z.pos mz < 2 ^ 53)%Z).
  { assert (E52 : (2 ^ 52 = 2 ^ (d - 1) * 2 ^ (53 - d))%Z)
      by (rewrite <- Z.pow_add_r by lia; f_equal; lia).
    assert (E53 : (2 ^ 53 = 2 ^ d * 2 ^ (53 - d))%Z)
      by (rewrite <- Z.pow_add_r by lia; f_equal; lia).
    rewrite Hmz, E52, E53.
    assert (0 < 2 ^ (53 - d))%Z by (apply Z.pow_pos_nonneg; lia).
    split; [apply Z.mul_le_mono_nonneg_r | apply Z.mul_lt_mono_pos_r]; lia. }
  destruct (binary_round_aux_cases (Z.pos mz) (d - 53) loc_Exact ltac:(lia))
    as (m2 & _ & Hex & Hf).
  assert (Hdz : Zdigits2 (Z.pos mz) = 53%Z).
  { apply Z.le_antisymm.
    - apply Zdigits2_le; lia.
    - pose proof (Zdigits2_gt (Z.pos mz) 52 ltac:(lia) ltac:(lia)). lia. }
  rewrite Hdz, fexp_eq in Hex, Hf.
  replace (Z.max (d - 53) (Z.max (53 + (d - 53) - 53) (-1074))) with (d - 53)%Z
    in Hex, Hf by lia.
  rewrite (Hex eq_refl eq_refl), Z.sub_diag, Z.div_1_r in Hf.
  rewrite Hf. unfold pack.
  destruct (Z.ltb_spec (Z.pos mz) (2 ^ 53)); [ | lia].
  destruct (Z.leb_spec (d - 53) 971); [ | lia].
  exists mz, (d - 53)%Z. split; [reflexivity | split; [ | split; [exact Hmz53 | lia]]].
  rewrite Hmz. rewrite <- F2Q_shift by lia.
  replace (d - 53 + (53 - d))%Z with 0%Z by lia.
  unfold F2Q. change (2 ^ 0) with 1. ring.
Qed.

Lemma of_int_100 : of_int 100 = Ok (S754_finite false 7036874417766400 (-46)).
Proof. reflexivity. Qed.

End Convert.

(** ** The percent branch *)

Module PercentProof.
Import PyFloat FloatValue Rounding RoundAux RoundQ Ops Convert Resize.
Local Open Scope Q_scope.

(** An integer below a real is below the lower neighbour of the real at
    any exponent that is not positive. *)
Lemma int_below (z mf e : Z) (x : Q) :
  (e <= 0)%Z -> inject_Z z <= x -> x < F2Q (mf + 1) e -> inject_Z z <= F2Q mf e.
Proof.
  intros He Hz Hx.
  assert (E : inject_Z z == F2Q (z * 2 ^ (- e)) e).
  { rewrite <- F2Q_shift by lia. replace (e + - e)%Z with 0%Z by lia.
    unfold F2Q. change (2 ^ 0) with 1. ring. }
  rewrite E in Hz |- *. apply F2Q_le.
  assert (H : F2Q (z * 2 ^ (- e)) e < F2Q (mf + 1) e)
    by (now apply Qle_lt_trans with x).
  apply F2Q_lt_inv in H. lia.
Qed.

Lemma hundred_value : F2Q 7036874417766400 (-46) == 100.
Proof. reflexivity. Qed.

Lemma valid_exponent (mp : positive) (ep : Z) :
  valid_binary prec emax (S754_finite false mp ep) = true ->
  F2Q (Z.pos mp) ep < 2 ^ 53 -> (ep <= 0)%Z.
Proof.
  intros Hv Hlt. cbn [valid_binary] in Hv. unfold bounded in Hv.
  apply andb_true_iff in Hv. destruct Hv as [Hc _].
  unfold canonical_mantissa in Hc. apply Z.eqb_eq in Hc.
  apply digits_exp_le in Hlt; [ | lia].
  change (Zdigits2 (Z.pos mp)) with (Z.pos (digits2_pos mp)) in Hlt.
  rewrite fexp_eq in Hc. lia.
Qed.

(** After one rounding of a value below [2^53] whose input exponent is
    not positive: a finite result, not below any integer the value is
    not below, and above the value by less than one. *)
Lemma round_keeps_integers (mx ex : Z) (lx : location) (x : Q) (k : Z) :
  (0 <= mx)%Z -> F2Q mx ex <= x -> x < F2Q (mx + 1) ex ->
  (ex <= 0)%Z -> x < 2 ^ k -> (0 <= k <= 53)%Z ->
  let f := binary_round_aux prec emax false mx ex lx in
  nonneg_finite f
  /\ (forall z, inject_Z z <= x -> inject_Z z <= SF2Q f)
  /\ SF2Q f <= x + 2 ^ Z.max ex (k - 53).
Proof.
  intros Hmx Hlo Hhi Hex Hk Hk53 f.
  set (e' := Z.max ex (fexp prec emax (Zdigits2 mx + ex))).
  assert (He' : (e' <= Z.max ex (k - 53))%Z).
  { unfold e'. rewrite fexp_eq.
    destruct (Z.eq_dec mx 0) as [-> | Hz]; [simpl Zdigits2; lia | ].
    assert (Hd : (Zdigits2 mx + ex <= k)%Z).
    { apply digits_exp_le; [lia | ]. now apply Qle_lt_trans with x. }
    lia. }
  destruct (round_bracket mx ex lx x Hmx Hlo Hhi ltac:(fold e'; lia))
    as (mf & _ & Hmf & Hfin & Bl & Bh & Hval & _).
  fold e' in Bl, Bh, Hval. fold f in Hfin, Hval.
  pose proof (F2Q_succ mf e') as Hs.
  pose proof (pow2_pos e') as Hp.
  pose proof (pow2_le e' _ He') as Hple.
  split; [exact Hfin | split].
  - intros z Hz.
    assert (Hzf : inject_Z z <= F2Q mf e')
      by (apply int_below with x; [lia | exact Hz | exact Bh]).
    destruct Hval as [-> | ->]; lra.
  - destruct Hval as [-> | ->]; lra.
Qed.

(** [int(n * percent / 100)] against the exact [n * percent / 100]. *)
Lemma scale_percent_bounds (n : Z) (mp : positive) (ep : Z) :
  let p := S754_finite false mp ep in
  valid_binary prec emax p = true ->
  (1 <= n < 2 ^ 53)%Z ->
  inject_Z n * SF2Q p < 2 ^ 53 ->
  exists w,
    scale_percent n p = Ok w
    /\ (Qfloor (exact_percent n p) <= w <= Qfloor (exact_percent n p) + 1)%Z
    /\ inject_Z w <= (inject_Z n * SF2Q p + 1) * (1 # 100) + (1 # 32).
Proof.
  intros p Hv Hn Hx. unfold p in *. clear p.
  set (p := S754_finite false mp ep) in *.
  destruct (of_int_exact n Hn) as (mn & en & Hof & Hnv & Hmn & Hen).
  assert (Hpv : SF2Q p == F2Q (Z.pos mp) ep) by reflexivity.
  assert (Hp0 : 0 < F2Q (Z.pos mp) ep) by (apply F2Q_pos; lia).
  assert (Hn1 : 1 <= inject_Z n)
    by (change (inject_Z 1 <= inject_Z n); rewrite <- Zle_Qle; lia).
  assert (Hep : (ep <= 0)%Z).
  { apply (valid_exponent mp ep Hv). rewrite Hpv in Hx. nra. }
  set (X := F2Q (Z.pos mn * Z.pos mp) (en + ep)).
  assert (HX : X == inject_Z n * SF2Q p).
  { unfold X. rewrite <- F2Q_mul, Hnv, Hpv. reflexivity. }
  assert (HX53 : X < 2 ^ 53) by (rewrite HX; exact Hx).
  set (k := Qfloor (exact_percent n p)).
  assert (Hk : inject_Z k <= X * (1 # 100) /\ X * (1 # 100) < inject_Z k + 1).
  { assert (E : exact_percent n p == X * (1 # 100))
      by (unfold exact_percent; rewrite HX; reflexivity).
    rewrite <- E. split; [apply Qfloor_le | ].
    pose proof (Qlt_floor (exact_percent n p)) as H.
    rewrite inject_Z_plus in H. exact H. }
  destruct Hk as [Hkl Hkh].
  (* the product *)
  unfold scale_percent. rewrite Hof, of_int_100. cbn [bind div].
  unfold p at 1. rewrite mul_unfold.
  pose proof (round_keeps_integers (Z.pos mn * Z.pos mp) (en + ep) loc_Exact X 53
                ltac:(lia) ltac:(apply Qle_refl) ltac:(apply F2Q_lt; lia)
                ltac:(lia) HX53 ltac:(lia)) as (Hfin1 & Hint1 & Hup1).
  replace (Z.max (en + ep) (53 - 53)) with 0%Z in Hup1 by lia.
  change (2 ^ 0) with 1 in Hup1.
  set (c1 := binary_round_aux prec emax false (Z.pos mn * Z.pos mp) (en + ep) loc_Exact)
    in *.
  assert (H100k : inject_Z (100 * k) <= SF2Q c1).
  { apply Hint1. rewrite inject_Z_mult. change (inject_Z 100) with 100. lra. }
  rewrite inject_Z_mult in H100k. change (inject_Z 100) with 100 in H100k.
  destruct c1 as [s1 | s1 | | s1 m1 e1]; cbn [nonneg_finite] in Hfin1; try tauto.
  - (* the product rounded to zero *)
    exists 0%Z. split; [reflexivity | ].
    cbn [SF2Q] in H100k, Hup1.
    assert (HX0 : 0 <= X) by (apply F2Q_nonneg; lia).
    split; [ | rewrite <- HX; change (inject_Z 0) with 0; lra].
    assert (Hk0 : inject_Z k <= 0) by lra.
    assert (Hk1 : inject_Z (-1) < inject_Z k) by (change (inject_Z (-1)) with (-1); lra).
    change 0 with (inject_Z 0) in Hk0.
    rewrite <- Zle_Qle in Hk0. rewrite <- Zlt_Qlt in Hk1. lia.
  - (* the quotient *)
    subst s1. cbn [SF2Q cond_Zopp] in H100k, Hup1.
    fold (F2Q (Z.pos m1) e1) in H100k, Hup1.
    destruct (SFdiv_core_bracket m1 7036874417766400 e1 (-46))
      as (l & Hcore & Hq0 & Bl & Bh).
    set (e' := Z.min (fexp prec emax (Zdigits2 (Z.pos m1) + e1
                                       - (Zdigits2 (Z.pos 7036874417766400) + -46)))
                     (e1 - -46)) in *.
    set (q := (Z.pos m1 * 2 ^ (e1 - -46 - e') / Z.pos 7036874417766400)%Z) in *.
    rewrite (SFdiv_unfold _ _ _ _ _ _ _ Hcore).
    set (x2 := F2Q (Z.pos m1) e1 / F2Q (Z.pos 7036874417766400) (-46)) in *.
    assert (Hx2 : x2 == F2Q (Z.pos m1) e1 * (1 # 100))
      by (unfold x2; rewrite hundred_value; reflexivity).
    assert (Hd1 : (Zdigits2 (Z.pos m1) + e1 <= 54)%Z).
    { apply digits_exp_le; [lia | ].
      assert (H54 : (2 : Q) ^ 54 == 2 * 2 ^ 53) by reflexivity.
      assert (H53 : 1 <= (2 : Q) ^ 53) by (apply Qpower_1_le; [discriminate | lia]).
      lra. }
    assert (He' : (e' <= -6)%Z).
    { unfold e'. rewrite fexp_eq.
      change (Zdigits2 (Z.pos 7036874417766400)) with 53%Z. lia. }
    assert (Hx48 : x2 < 2 ^ 48).
    { assert (H48 : (2 : Q) ^ 53 == 32 * 2 ^ 48) by reflexivity.
      assert (H1 : 1 <= (2 : Q) ^ 48) by (apply Qpower_1_le; [discriminate | lia]).
      lra. }
    pose proof (round_keeps_integers q e' l x2 48 Hq0 Bl Bh ltac:(lia) Hx48 ltac:(lia))
      as (Hfin2 & Hint2 & Hup2).
    set (c2 := binary_round_aux prec emax false q e' l) in *.
    assert (Hp5 : 2 ^ Z.max e' (48 - 53) <= 1 # 32).
    { replace (Z.max e' (48 - 53)) with (-5)%Z by lia. apply Qle_refl. }
    exists (Qfloor (SF2Q c2)). split; [now apply to_int_floor | ].
    assert (Hlow : inject_Z k <= SF2Q c2) by (apply Hint2; lra).
    assert (Hhigh : SF2Q c2 < inject_Z (k + 2)).
    { rewrite inject_Z_plus. change (inject_Z 2) with 2. lra. }
    pose proof (Qfloor_le (SF2Q c2)) as Hfl.
    split; [split | ].
    + apply Qfloor_resp_le in Hlow. now rewrite Qfloor_Z in Hlow.
    + assert (H : inject_Z (Qfloor (SF2Q c2)) < inject_Z (k + 2)) by lra.
      rewrite <- Zlt_Qlt in H. lia.
    + rewrite <- HX. lra.
Qed.

End PercentProof.

(** ** The single-dimension branches *)

Module RatioProof.
Import PyFloat FloatValue Rounding RoundAux RoundQ Ops Convert Resize.
Local Open Scope Q_scope.

(** In the normal range one rounding moves a value by at most the
    fraction [2^-52] of itself; an exactly given value with a short
    mantissa is not moved. *)
Lemma round_relative (mx ex : Z) (lx : location) (x : Q) :
  (0 < mx)%Z -> F2Q mx ex <= x -> x < F2Q (mx + 1) ex ->
  (-1021 <= Zdigits2 mx + ex <= 1023)%Z -> (ex <= 970)%Z ->
  (lx = loc_Exact /\ x == F2Q mx ex) \/ (2 ^ 52 <= mx)%Z ->
  let f := binary_round_aux prec emax false mx ex lx in
  nonneg_finite f /\ x * (1 - roundoff) <= SF2Q f /\ SF2Q f <= x * (1 + roundoff).
Proof.
  intros Hmx Hlo Hhi Hrange Hex Hcase f. unfold roundoff.
  set (d := Zdigits2 mx) in *.
  set (e' := Z.max ex (fexp prec emax (d + ex))).
  assert (He' : e' = Z.max ex (d + ex - 53)) by (unfold e'; rewrite fexp_eq; lia).
  destruct (round_bracket mx ex lx x ltac:(lia) Hlo Hhi ltac:(fold d; fold e'; lia))
    as (mf & Hmfd & Hmf & Hfin & Bl & Bh & Hval & Hexact).
  fold d in Hmfd, Bl, Bh, Hval, Hexact. fold e' in Hmfd, Bl, Bh, Hval, Hexact.
  fold f in Hfin, Hval, Hexact.
  assert (Hx0 : 0 <= x).
  { apply Qle_trans with (2 := Hlo). apply F2Q_nonneg. lia. }
  split; [exact Hfin | ].
  destruct (Z_le_gt_dec d 52) as [Hd | Hd].
  - (* a short mantissa: not moved *)
    destruct Hcase as [[Hl Hx] | Hbig].
    + rewrite (Hexact Hl ltac:(lia)), <- Hx. split; lra.
    + exfalso. pose proof (Zdigits2_gt mx 52 ltac:(lia) Hbig). fold d in H. lia.
  - (* a full mantissa *)
    assert (Hmf52 : (2 ^ 52 <= mf)%Z).
    { rewrite Hmfd. apply Z.div_le_lower_bound; [apply Z.pow_pos_nonneg; lia | ].
      rewrite <- Z.pow_add_r by lia.
      replace (e' - ex + 52)%Z with (d - 1)%Z by lia.
      apply (Zdigits2_bounds mx Hmx). }
    pose proof (F2Q_le _ _ e' Hmf52) as H52.
    assert (E52 : F2Q (2 ^ 52) e' == 4503599627370496 * 2 ^ e') by reflexivity.
    pose proof (F2Q_succ mf e') as Hs.
    pose proof (pow2_pos e') as Hp.
    rewrite E52 in H52. rewrite Hs in Bh.
    set (T := 2 ^ e') in *. set (M := F2Q mf e') in *.
    destruct Hval as [-> | ->]; [ | rewrite Hs]; split; lra.
Qed.

Lemma F2Q_0 (a : Z) : F2Q a 0 == inject_Z a.
Proof. unfold F2Q. change (2 ^ 0) with 1. ring. Qed.

Lemma inject_Z_pos (a : Z) : (1 <= a)%Z -> 1 <= inject_Z a.
Proof. intros H. change (inject_Z 1 <= inject_Z a). now rewrite <- Zle_Qle. Qed.

Lemma inject_Z_below (a : Z) (k : Z) :
  (0 <= k)%Z -> (a < 2 ^ k)%Z -> inject_Z a < 2 ^ k.
Proof. intros Hk H. rewrite (pow2_Z k Hk). now rewrite <- Zlt_Qlt. Qed.

(** The quotient [num / den] of two positive integers below [2^24], as
    line 67 and line 73 compute it. *)
Lemma int_truediv_relative (num den : Z) :
  (1 <= num < 2 ^ 24)%Z -> (1 <= den < 2 ^ 24)%Z ->
  exists mr er,
    int_truediv num den = Ok (S754_finite false mr er)
    /\ inject_Z num * (1 - roundoff) <= F2Q (Z.pos mr) er * inject_Z den
    /\ F2Q (Z.pos mr) er * inject_Z den <= inject_Z num * (1 + roundoff).
Proof.
  intros Hn Hd.
  destruct num as [ | pn | pn]; try lia. destruct den as [ | pd | pd]; try lia.
  unfold int_truediv.
  cbn [Z.eqb Z.ltb Z.compare Z.abs Z.to_pos].
  destruct (SFdiv_core_bracket pn pd 0 0) as (l & Hcore & Hq0 & Bl & Bh).
  set (dn := Zdigits2 (Z.pos pn)) in *. set (dd := Zdigits2 (Z.pos pd)) in *.
  assert (Hdn : (1 <= dn <= 24)%Z).
  { split; [pose proof (Zdigits2_pos (Z.pos pn)); unfold dn; lia | ].
    apply Zdigits2_le; lia. }
  assert (Hdd : (1 <= dd <= 24)%Z).
  { split; [pose proof (Zdigits2_pos (Z.pos pd)); unfold dd; lia | ].
    apply Zdigits2_le; lia. }
  set (e' := Z.min (fexp prec emax (dn + 0 - (dd + 0))) (0 - 0)) in *.
  assert (He' : e' = (dn - dd - 53)%Z) by (unfold e'; rewrite fexp_eq; lia).
  set (q := (Z.pos pn * 2 ^ (0 - 0 - e') / Z.pos pd)%Z) in *.
  assert (Hq52 : (2 ^ 52 <= q)%Z).
  { unfold q. apply Z.div_le_lower_bound; [lia | ].
    replace (0 - 0 - e')%Z with (53 - dn + dd)%Z by lia.
    pose proof (Zdigits2_bounds (Z.pos pn) ltac:(lia)) as [Hnl _].
    pose proof (Zdigits2_bounds (Z.pos pd) ltac:(lia)) as [_ Hdh].
    fold dn in Hnl. fold dd in Hdh.
    assert (E : (2 ^ dd * 2 ^ 52 = 2 ^ (dn - 1) * 2 ^ (53 - dn + dd))%Z).
    { rewrite <- !Z.pow_add_r by lia. f_equal. lia. }
    assert (Hp : (0 < 2 ^ (53 - dn + dd))%Z) by (apply Z.pow_pos_nonneg; lia).
    change (2 ^ 52)%Z with 4503599627370496%Z in *.
    revert Hnl Hdh E Hp.
    generalize (2 ^ dd)%Z (2 ^ (dn - 1))%Z (2 ^ (53 - dn + dd))%Z.
    intros; nia. }
  rewrite (SFdiv_unfold _ _ _ _ _ _ _ Hcore).
  set (x := F2Q (Z.pos pn) 0 / F2Q (Z.pos pd) 0) in *.
  pose proof (inject_Z_pos (Z.pos pn) ltac:(lia)) as HN1.
  pose proof (inject_Z_pos (Z.pos pd) ltac:(lia)) as HD1.
  pose proof (inject_Z_below (Z.pos pn) 24 ltac:(lia) ltac:(lia)) as HN24.
  pose proof (inject_Z_below (Z.pos pd) 24 ltac:(lia) ltac:(lia)) as HD24.
  assert (Hx : x * inject_Z (Z.pos pd) == inject_Z (Z.pos pn)).
  { unfold x. rewrite !F2Q_0. field. lra. }
  assert (Hx0 : 0 < x).
  { unfold x. apply Qlt_shift_div_l; rewrite !F2Q_0; lra. }
  assert (Hx24 : x < 2 ^ 24) by nra.
  assert (Hdq : (53 <= Zdigits2 q)%Z)
    by (pose proof (Zdigits2_gt q 52 ltac:(lia) Hq52); lia).
  assert (Hdq' : (Zdigits2 q + e' <= 24)%Z).
  { apply digits_exp_le; [lia | ]. now apply Qle_lt_trans with x. }
  destruct (round_relative q e' l x ltac:(lia) Bl Bh ltac:(lia) ltac:(lia)
              (or_intror Hq52)) as (Hfin & Rl & Rh).
  set (r := binary_round_aux prec emax false q e' l) in *.
  unfold roundoff in *.
  destruct r as [sr | sr | | sr mr er]; cbn [nonneg_finite] in Hfin; try tauto.
  - exfalso. cbn [SF2Q] in Rl. nra.
  - subst sr. exists mr, er. split; [reflexivity | ].
    cbn [SF2Q cond_Zopp] in Rl, Rh. fold (F2Q (Z.pos mr) er) in Rl, Rh.
    set (R := F2Q (Z.pos mr) er) in *.
    set (D := inject_Z (Z.pos pd)) in *. set (N := inject_Z (Z.pos pn)) in *.
    clearbody R D N x. clear - Rl Rh Hx HD1.
    split; nra.
Qed.

(** An integer [h] with [h * d <= e < (h + 1) * d + 1], against the
    quotient of [e] by [d]. *)
Lemma near_quotient (h e d : Z) :
  (0 < d)%Z -> (h * d <= e)%Z -> (e <= (h + 1) * d)%Z ->
  (h = e / d \/ (h = e / d - 1 /\ e mod d = 0))%Z.
Proof.
  intros Hd Hl Hh.
  pose proof (Z.div_mod e d ltac:(lia)) as E.
  pose proof (Z.mod_pos_bound e d Hd) as B.
  set (k := (e / d)%Z) in *. set (r := (e mod d)%Z) in *.
  assert (Hk : (h <= k)%Z) by nia.
  assert (Hk' : (k - 1 <= h)%Z) by nia.
  destruct (Z.eq_dec h k) as [-> | Hne]; [left; reflexivity | right].
  assert (h = k - 1)%Z by lia. subst h. split; [reflexivity | nia].
Qed.

(** [int(target * (num / den))] against the exact quotient. *)
Lemma scale_ratio_bounds (target num den : Z) :
  (1 <= target < 2 ^ 24)%Z -> (1 <= num < 2 ^ 24)%Z -> (1 <= den < 2 ^ 24)%Z ->
  exists h,
    scale_ratio target num den = Ok h
    /\ (h = target * num / den
        \/ (h = target * num / den - 1 /\ (target * num) mod den = 0))%Z.
Proof.
  intros Ht Hn Hd.
  destruct (int_truediv_relative num den Hn Hd) as (mr & er & Hdiv & Rl & Rh).
  destruct (of_int_exact target ltac:(lia)) as (mt & et & Hof & Htv & Hmt & Het).
  unfold scale_ratio. rewrite Hdiv. cbn [bind]. rewrite Hof. cbn [bind].
  rewrite mul_unfold.
  pose proof (inject_Z_pos target ltac:(lia)) as HT1.
  pose proof (inject_Z_pos num ltac:(lia)) as HN1.
  pose proof (inject_Z_pos den ltac:(lia)) as HD1.
  pose proof (inject_Z_below target 24 ltac:(lia) ltac:(lia)) as HT24.
  pose proof (inject_Z_below num 24 ltac:(lia) ltac:(lia)) as HN24.
  pose proof (inject_Z_below den 24 ltac:(lia) ltac:(lia)) as HD24.
  change ((2 : Q) ^ 24) with 16777216 in HT24, HN24, HD24.
  set (y := F2Q (Z.pos mt * Z.pos mr) (et + er)).
  assert (Hy : y == inject_Z target * F2Q (Z.pos mr) er).
  { unfold y. rewrite <- F2Q_mul, Htv. reflexivity. }
  set (R := F2Q (Z.pos mr) er) in *.
  set (T := inject_Z target) in *. set (N := inject_Z num) in *.
  set (D := inject_Z den) in *.
  unfold roundoff in *.
  assert (HR0 : 0 < R) by (apply F2Q_pos; lia).
  assert (HE : inject_Z (target * num) == T * N)
    by (unfold T, N; rewrite inject_Z_mult; reflexivity).
  assert (HhD : forall h, inject_Z (h * den) == inject_Z h * D)
    by (intros h; unfold D; rewrite inject_Z_mult; reflexivity).
  assert (Hdr : forall k, R < 2 ^ k -> (Zdigits2 (Z.pos mr) + er <= k)%Z)
    by (intros k; apply digits_exp_le; lia).
  clearbody R T N D.
  assert (HRl : (1 # 33554432) <= R) by (clear - Rl HR0 HN1 HD1 HD24; nra).
  assert (HRh : R < 33554432) by (clear - Rh HR0 HN1 HN24 HD1; nra).
  assert (Hyl : 2 ^ (-25) <= y).
  { change ((2 : Q) ^ (-25)) with (1 # 33554432). rewrite Hy. nra. }
  assert (Hyh : y < 2 ^ 49).
  { change ((2 : Q) ^ 49) with 562949953421312. rewrite Hy. nra. }
  assert (Her : (er <= 24)%Z).
  { assert (H : (Zdigits2 (Z.pos mr) + er <= 25)%Z).
    { apply Hdr. change ((2 : Q) ^ 25) with 33554432. exact HRh. }
    pose proof (Zdigits2_pos (Z.pos mr) ltac:(lia)). lia. }
  pose proof (digits_exp_le (Z.pos mt * Z.pos mr) (et + er) 49 ltac:(lia) Hyh) as Hdh.
  pose proof (digits_exp_gt (Z.pos mt * Z.pos mr) (et + er) (-25) ltac:(lia) Hyl) as Hdl.
  destruct (round_relative (Z.pos mt * Z.pos mr) (et + er) loc_Exact y
              ltac:(lia) ltac:(apply Qle_refl) ltac:(apply F2Q_lt; lia)
              ltac:(lia) ltac:(lia) (or_introl (conj eq_refl (Qeq_refl _))))
    as (Hfin & Cl & Ch).
  set (c := binary_round_aux prec emax false (Z.pos mt * Z.pos mr) (et + er) loc_Exact)
    in *.
  unfold roundoff in *.
  exists (Qfloor (SF2Q c)). split; [now apply to_int_floor | ].
  pose proof (Qfloor_le (SF2Q c)) as Fl.
  pose proof (Qlt_floor (SF2Q c)) as Fh. rewrite inject_Z_plus in Fh.
  change (inject_Z 1) with 1 in Fh.
  set (h := Qfloor (SF2Q c)) in *. set (C := SF2Q c) in *.
  clearbody h C.
  assert (HE48 : T * N < 281474976710656) by nra.
  assert (HE1 : 1 <= T * N) by nra.
  (* the two roundings, scaled by the denominator *)
  assert (A1 : y * D <= T * N * (1 + (1 # 4503599627370496))).
  { rewrite Hy. clear - Rh HT1. nra. }
  assert (A1' : T * N * (1 - (1 # 4503599627370496)) <= y * D).
  { rewrite Hy. clear - Rl HT1. nra. }
  assert (A2 : C * D <= y * D * (1 + (1 # 4503599627370496))).
  { clear - Ch HD1. nra. }
  assert (A2' : y * D * (1 - (1 # 4503599627370496)) <= C * D).
  { clear - Cl HD1. nra. }
  assert (B1 : inject_Z h * D <= C * D) by (clear - Fl HD1; nra).
  assert (B2 : C * D < inject_Z h * D + D).
  { setoid_replace (inject_Z h * D + D) with ((inject_Z h + 1) * D) by ring.
    apply Qmult_lt_compat_r; [lra | exact Fh]. }
  set (P := y * D) in *. set (S := C * D) in *. set (E := T * N) in *.
  set (Lh := inject_Z h * D) in *.
  assert (U1 : inject_Z (h * den) < inject_Z (target * num + 1)).
  { rewrite HhD, inject_Z_plus, HE. change (inject_Z 1) with 1. fold Lh.
    clearbody P S E Lh. lra. }
  assert (U2 : inject_Z (target * num - 1) < inject_Z ((h + 1) * den)).
  { replace (target * num - 1)%Z with (target * num + -1)%Z by lia.
    rewrite HhD, !inject_Z_plus, HE.
    change (inject_Z 1) with 1. change (inject_Z (-1)) with (-1).
    setoid_replace ((inject_Z h + 1) * D) with (Lh + D) by (unfold Lh; ring).
    clearbody P S E Lh. lra. }
  rewrite <- Zlt_Qlt in U1, U2.
  apply near_quotient; lia.
Qed.

End RatioProof.
(** ** Roundings in the normal range

    Every rounding the bounded fit performs has a full mantissa to start
    from. Its result is then a positive float with a full mantissa, within
    the fraction [2^-52] of the exact value; and two such floats compare
    as their values do. *)

Module NormalRange.
Import PyFloat FloatValue Rounding RoundAux RoundQ Ops Convert RatioProof.
Local Open Scope Q_scope.

Lemma normal53_value (f : float) :
  normal53 f ->
  exists m e, f = S754_finite false m e /\ (2 ^ 52 <= Z.pos m < 2 ^ 53)%Z
              /\ SF2Q f == F2Q (Z.pos m) e.
Proof.
  destruct f as [s | s | | [ | ] m e]; cbn [normal53]; try tauto.
  intros H. exists m, e. split; [reflexivity | split; [lia | reflexivity]].
Qed.

Lemma normal53_pos (f : float) : normal53 f -> 0 < SF2Q f.
Proof.
  intros H. destruct (normal53_value f H) as (m & e & _ & _ & ->).
  apply F2Q_pos. lia.
Qed.

Lemma normal53_nonneg_finite (f : float) : normal53 f -> nonneg_finite f.
Proof.
  destruct f as [s | s | | [ | ] m e]; cbn [normal53 nonneg_finite]; tauto.
Qed.

(** The exponent of a float with a full mantissa, from its value. *)
Lemma normal53_exponent (m : positive) (e lo hi : Z) :
  (2 ^ 52 <= Z.pos m < 2 ^ 53)%Z ->
  2 ^ lo <= F2Q (Z.pos m) e -> F2Q (Z.pos m) e < 2 ^ hi ->
  (lo - 53 < e <= hi - 53)%Z.
Proof.
  intros Hm Hlo Hhi.
  assert (Hd : Zdigits2 (Z.pos m) = 53%Z).
  { apply Z.le_antisymm.
    - apply Zdigits2_le; lia.
    - pose proof (Zdigits2_gt (Z.pos m) 52 ltac:(lia) ltac:(lia)). lia. }
  pose proof (digits_exp_le (Z.pos m) e hi ltac:(lia) Hhi).
  pose proof (digits_exp_gt (Z.pos m) e lo ltac:(lia) Hlo).
  lia.
Qed.

(** Floats with a full mantissa are ordered as their values are. *)
Lemma compare_normal (f1 f2 : float) :
  normal53 f1 -> normal53 f2 ->
  SFcompare f1 f2 = Some (SF2Q f1 ?= SF2Q f2).
Proof.
  intros H1 H2.
  destruct (normal53_value f1 H1) as (m1 & e1 & -> & Hm1 & _).
  destruct (normal53_value f2 H2) as (m2 & e2 & -> & Hm2 & _).
  cbn [SFcompare SF2Q cond_Zopp]. fold (F2Q (Z.pos m1) e1) (F2Q (Z.pos m2) e2).
  f_equal. symmetry.
  destruct (Z.compare_spec e1 e2) as [He | He | He].
  - subst e2. change (Pos.compare_cont Eq m1 m2) with (Z.pos m1 ?= Z.pos m2)%Z.
    destruct (Z.compare_spec (Z.pos m1) (Z.pos m2)) as [Hm | Hm | Hm].
    + apply Qeq_alt. rewrite Hm. reflexivity.
    + apply Qlt_alt. now apply F2Q_lt.
    + apply Qgt_alt. now apply F2Q_lt.
  - apply Qlt_alt.
    replace e2 with (e1 + (e2 - e1))%Z by lia. rewrite F2Q_shift by lia.
    apply F2Q_lt.
    assert (2 * 1 <= 2 ^ (e2 - e1))%Z.
    { replace (e2 - e1)%Z with (1 + (e2 - e1 - 1))%Z by lia.
      rewrite Z.pow_add_r by lia. change (2 ^ 1)%Z with 2%Z.
      apply Z.mul_le_mono_nonneg_l; [lia | ].
      pose proof (Z.pow_pos_nonneg 2 (e2 - e1 - 1)). lia. }
    change (2 ^ 53)%Z with (2 * 2 ^ 52)%Z in *. nia.
  - apply Qgt_alt.
    replace e1 with (e2 + (e1 - e2))%Z by lia. rewrite F2Q_shift by lia.
    apply F2Q_lt.
    assert (2 * 1 <= 2 ^ (e1 - e2))%Z.
    { replace (e1 - e2)%Z with (1 + (e1 - e2 - 1))%Z by lia.
      rewrite Z.pow_add_r by lia. change (2 ^ 1)%Z with 2%Z.
      apply Z.mul_le_mono_nonneg_l; [lia | ].
      pose proof (Z.pow_pos_nonneg 2 (e1 - e2 - 1)). lia. }
    change (2 ^ 53)%Z with (2 * 2 ^ 52)%Z in *. nia.
Qed.

Lemma ge_normal (f1 f2 : float) :
  normal53 f1 -> normal53 f2 ->
  if ge f1 f2 then SF2Q f2 <= SF2Q f1 else SF2Q f1 < SF2Q f2.
Proof.
  intros H1 H2. unfold ge, SFleb. rewrite (compare_normal f2 f1 H2 H1).
  destruct (SF2Q f2 ?= SF2Q f1) eqn:E.
  - apply Qeq_alt in E. rewrite E. apply Qle_refl.
  - apply Qlt_alt in E. now apply Qlt_le_weak.
  - now apply Qgt_alt in E.
Qed.

Lemma lt_normal_false (f1 f2 : float) :
  normal53 f1 -> normal53 f2 -> SF2Q f2 <= SF2Q f1 -> lt f1 f2 = false.
Proof.
  intros H1 H2 Hle. unfold lt, SFltb. rewrite (compare_normal f1 f2 H1 H2).
  destruct (SF2Q f1 ?= SF2Q f2) eqn:E; try reflexivity.
  apply Qlt_alt in E. exfalso. apply (Qlt_irrefl (SF2Q f1)).
  now apply Qlt_le_trans with (SF2Q f2).
Qed.

(** Nothing of the form [abs(..)] is below zero. *)
Lemma lt_abs_zero (f : float) : lt (abs f) zero = false.
Proof. destruct f as [s | s | | s m e]; reflexivity. Qed.

(** One rounding of a value in the normal range, from a mantissa of at
    least 53 bits. *)
Lemma round_normal (mx ex : Z) (lx : location) (x : Q) :
  (2 ^ 52 <= mx)%Z -> F2Q mx ex <= x -> x < F2Q (mx + 1) ex ->
  (-1000 < Zdigits2 mx + ex <= 1000)%Z ->
  let f := binary_round_aux prec emax false mx ex lx in
  normal53 f /\ x * (1 - roundoff) <= SF2Q f /\ SF2Q f <= x * (1 + roundoff).
Proof.
  intros Hmx Hlo Hhi Hdx f.
  assert (Hmx0 : (0 < mx)%Z) by lia.
  set (d := Zdigits2 mx) in *.
  assert (Hd53 : (53 <= d)%Z)
    by (pose proof (Zdigits2_gt mx 52 ltac:(lia) Hmx); unfold d; lia).
  destruct (round_relative mx ex lx x Hmx0 Hlo Hhi ltac:(fold d; lia) ltac:(lia)
              (or_intror Hmx)) as (_ & Rl & Rh).
  fold f in Rl, Rh. split; [ | split; assumption].
  destruct (binary_round_aux_cases mx ex lx ltac:(lia)) as (m2 & Hm2 & _ & Hf).
  fold d in Hm2, Hf. fold f in Hf. rewrite fexp_eq in Hm2, Hf.
  replace (Z.max ex (Z.max (d + ex - 53) (-1074))) with (d + ex - 53)%Z in Hm2, Hf by lia.
  replace (d + ex - 53 - ex)%Z with (d - 53)%Z in Hm2 by lia.
  set (m' := (mx / 2 ^ (d - 53))%Z) in *.
  assert (Hm' : (2 ^ 52 <= m' < 2 ^ 53)%Z).
  { pose proof (Zdigits2_bounds mx Hmx0) as [Hbl Hbh]. fold d in Hbl, Hbh.
    assert (Hp : (0 < 2 ^ (d - 53))%Z) by (apply Z.pow_pos_nonneg; lia).
    split.
    - apply Z.div_le_lower_bound; [exact Hp | ].
      rewrite <- Z.pow_add_r by lia.
      replace (d - 53 + 52)%Z with (d - 1)%Z by lia. exact Hbl.
    - apply Z.div_lt_upper_bound; [exact Hp | ].
      rewrite <- Z.pow_add_r by lia.
      replace (d - 53 + 53)%Z with d by lia. exact Hbh. }
  rewrite Hf. unfold pack.
  destruct Hm2 as [-> | ->].
  - destruct m' as [ | p | p]; try lia.
    destruct (Z.ltb_spec (Z.pos p) (2 ^ 53)); [ | lia].
    destruct (Z.leb_spec (d + ex - 53) 971); [ | lia].
    exact Hm'.
  - destruct (m' + 1)%Z as [ | p | p] eqn:E; try lia.
    destruct (Z.ltb_spec (Z.pos p) (2 ^ 53)).
    + destruct (Z.leb_spec (d + ex - 53) 971); [ | lia].
      cbn [normal53]. lia.
    + destruct (Z.leb_spec (d + ex - 53 + 1) 971); [ | lia].
      cbn [normal53]. change (Z.pos (2 ^ 52)) with (2 ^ 52)%Z. lia.
Qed.

Lemma full_digits (m : Z) : (2 ^ 52 <= m < 2 ^ 53)%Z -> Zdigits2 m = 53%Z.
Proof.
  intros Hm. apply Z.le_antisymm.
  - apply Zdigits2_le; lia.
  - pose proof (Zdigits2_gt m 52 ltac:(lia) ltac:(lia)). lia.
Qed.

(** [float(n)] for a positive [n] below [2^53]. *)
Lemma of_int_normal (n : Z) :
  (1 <= n < 2 ^ 53)%Z ->
  exists m e,
    of_int n = Ok (S754_finite false m e)
    /\ (2 ^ 52 <= Z.pos m < 2 ^ 53)%Z /\ (-52 <= e <= 0)%Z
    /\ F2Q (Z.pos m) e == inject_Z n.
Proof.
  intros Hn. destruct (of_int_exact n Hn) as (m & e & H1 & H2 & H3 & H4).
  exists m, e. auto.
Qed.

(** The product of two floats with full mantissas. *)
Lemma mul_normal (m1 m2 : positive) (e1 e2 : Z) :
  (2 ^ 52 <= Z.pos m1 < 2 ^ 53)%Z -> (2 ^ 52 <= Z.pos m2 < 2 ^ 53)%Z ->
  (-400 <= e1 + e2 <= 400)%Z ->
  let x := F2Q (Z.pos m1) e1 * F2Q (Z.pos m2) e2 in
  let f := mul (S754_finite false m1 e1) (S754_finite false m2 e2) in
  normal53 f /\ x * (1 - roundoff) <= SF2Q f /\ SF2Q f <= x * (1 + roundoff).
Proof.
  intros H1 H2 He x f. unfold f. rewrite mul_unfold.
  assert (Hp : (2 ^ 104 <= Z.pos m1 * Z.pos m2 < 2 ^ 106)%Z).
  { change (2 ^ 104)%Z with (2 ^ 52 * 2 ^ 52)%Z.
    change (2 ^ 106)%Z with (2 ^ 53 * 2 ^ 53)%Z. nia. }
  assert (Hd : (104 < Zdigits2 (Z.pos m1 * Z.pos m2) <= 106)%Z).
  { split; [apply Zdigits2_gt | apply Zdigits2_le]; lia. }
  assert (Hx : x == F2Q (Z.pos m1 * Z.pos m2) (e1 + e2))
    by (unfold x; apply F2Q_mul).
  apply round_normal.
  - change (2 ^ 52)%Z with 4503599627370496%Z.
    change (2 ^ 104)%Z with 20282409603651670423947251286016%Z in Hp. lia.
  - rewrite Hx. apply Qle_refl.
  - rewrite Hx. apply F2Q_lt. lia.
  - lia.
Qed.

(** The quotient of two floats with full mantissas. *)
Lemma div_normal (m1 m2 : positive) (e1 e2 : Z) :
  (2 ^ 52 <= Z.pos m1 < 2 ^ 53)%Z -> (2 ^ 52 <= Z.pos m2 < 2 ^ 53)%Z ->
  (-400 <= e1 - e2 <= 400)%Z ->
  let x := F2Q (Z.pos m1) e1 / F2Q (Z.pos m2) e2 in
  exists f,
    div (S754_finite false m1 e1) (S754_finite false m2 e2) = Ok f
    /\ normal53 f /\ x * (1 - roundoff) <= SF2Q f /\ SF2Q f <= x * (1 + roundoff).
Proof.
  intros H1 H2 He x. cbn [div].
  destruct (SFdiv_core_bracket m1 m2 e1 e2) as (l & Hcore & Hq0 & Bl & Bh).
  rewrite (full_digits _ H1), (full_digits _ H2), fexp_eq in Hcore, Hq0, Bl, Bh.
  replace (Z.min (Z.max (53 + e1 - (53 + e2) - 53) (-1074)) (e1 - e2))
    with (e1 - e2 - 53)%Z in Hcore, Hq0, Bl, Bh by lia.
  replace (e1 - e2 - (e1 - e2 - 53))%Z with 53%Z in Hcore, Hq0, Bl, Bh by lia.
  set (q := (Z.pos m1 * 2 ^ 53 / Z.pos m2)%Z) in *.
  assert (Hq : (2 ^ 52 <= q < 2 ^ 54)%Z).
  { unfold q. split.
    - apply Z.div_le_lower_bound; [lia | ].
      change (2 ^ 53)%Z with 9007199254740992%Z in *.
      change (2 ^ 52)%Z with 4503599627370496%Z in *. nia.
    - apply Z.div_lt_upper_bound; [lia | ].
      change (2 ^ 54)%Z with 18014398509481984%Z.
      change (2 ^ 53)%Z with 9007199254740992%Z in *.
      change (2 ^ 52)%Z with 4503599627370496%Z in *. nia. }
  assert (Hd : (52 < Zdigits2 q <= 54)%Z).
  { split; [apply Zdigits2_gt | apply Zdigits2_le]; lia. }
  rewrite (SFdiv_unfold _ _ _ _ _ _ _ Hcore).
  eexists. split; [reflexivity | ].
  apply round_normal; try assumption; lia.
Qed.

(** The quotient [num / den] of two positive integers up to [2^24]. *)
Lemma int_truediv_normal (num den : Z) :
  (1 <= num < 2 ^ 25)%Z -> (1 <= den < 2 ^ 25)%Z ->
  exists f,
    int_truediv num den = Ok f
    /\ normal53 f
    /\ inject_Z num * (1 - roundoff) <= SF2Q f * inject_Z den
    /\ SF2Q f * inject_Z den <= inject_Z num * (1 + roundoff).
Proof.
  intros Hn Hd.
  destruct num as [ | pn | pn]; try lia. destruct den as [ | pd | pd]; try lia.
  unfold int_truediv.
  cbn [Z.eqb Z.ltb Z.compare Z.abs Z.to_pos].
  destruct (SFdiv_core_bracket pn pd 0 0) as (l & Hcore & Hq0 & Bl & Bh).
  set (dn := Zdigits2 (Z.pos pn)) in *. set (dd := Zdigits2 (Z.pos pd)) in *.
  assert (Hdn : (1 <= dn <= 25)%Z).
  { split; [pose proof (Zdigits2_pos (Z.pos pn)); unfold dn; lia | ].
    apply Zdigits2_le; lia. }
  assert (Hdd : (1 <= dd <= 25)%Z).
  { split; [pose proof (Zdigits2_pos (Z.pos pd)); unfold dd; lia | ].
    apply Zdigits2_le; lia. }
  set (e' := Z.min (fexp prec emax (dn + 0 - (dd + 0))) (0 - 0)) in *.
  assert (He' : e' = (dn - dd - 53)%Z) by (unfold e'; rewrite fexp_eq; lia).
  set (q := (Z.pos pn * 2 ^ (0 - 0 - e') / Z.pos pd)%Z) in *.
  pose proof (Zdigits2_bounds (Z.pos pn) ltac:(lia)) as [Hnl Hnh].
  pose proof (Zdigits2_bounds (Z.pos pd) ltac:(lia)) as [Hdl Hdh].
  fold dn in Hnl, Hnh. fold dd in Hdl, Hdh.
  assert (Hp : (0 < 2 ^ (53 - dn + dd))%Z) by (apply Z.pow_pos_nonneg; lia).
  assert (Hq52 : (2 ^ 52 <= q)%Z).
  { unfold q. apply Z.div_le_lower_bound; [lia | ].
    replace (0 - 0 - e')%Z with (53 - dn + dd)%Z by lia.
    assert (E : (2 ^ dd * 2 ^ 52 = 2 ^ (dn - 1) * 2 ^ (53 - dn + dd))%Z).
    { rewrite <- !Z.pow_add_r by lia. f_equal. lia. }
    change (2 ^ 52)%Z with 4503599627370496%Z in *.
    revert Hnl Hdh E Hp.
    generalize (2 ^ dd)%Z (2 ^ (dn - 1))%Z (2 ^ (53 - dn + dd))%Z.
    intros; nia. }
  assert (Hq54 : (q < 2 ^ 54)%Z).
  { unfold q. apply Z.div_lt_upper_bound; [lia | ].
    replace (0 - 0 - e')%Z with (53 - dn + dd)%Z by lia.
    assert (E : (2 ^ (dd - 1) * 2 ^ 54 = 2 ^ dn * 2 ^ (53 - dn + dd))%Z).
    { rewrite <- !Z.pow_add_r by lia. f_equal. lia. }
    change (2 ^ 54)%Z with 18014398509481984%Z in *.
    revert Hnh Hdl E Hp.
    generalize (2 ^ (dd - 1))%Z (2 ^ dn)%Z (2 ^ (53 - dn + dd))%Z.
    intros; nia. }
  assert (Hdq : (52 < Zdigits2 q <= 54)%Z).
  { split; [apply Zdigits2_gt | apply Zdigits2_le]; lia. }
  rewrite (SFdiv_unfold _ _ _ _ _ _ _ Hcore).
  set (x := F2Q (Z.pos pn) 0 / F2Q (Z.pos pd) 0) in *.
  pose proof (inject_Z_pos (Z.pos pn) ltac:(lia)) as HN1.
  pose proof (inject_Z_pos (Z.pos pd) ltac:(lia)) as HD1.
  assert (Hx : x * inject_Z (Z.pos pd) == inject_Z (Z.pos pn)).
  { unfold x. rewrite !F2Q_0. field. lra. }
  destruct (round_normal q e' l x Hq52 Bl Bh ltac:(lia)) as (Hnorm & Rl & Rh).
  set (r := binary_round_aux prec emax false q e' l) in *.
  assert (Hr : match r with S754_infinity _ => False | _ => True end).
  { destruct r as [sr | sr | | sr mr er]; cbn [normal53] in Hnorm; tauto. }
  exists r. split; [destruct r; try reflexivity; tauto | ].
  split; [exact Hnorm | ].
  unfold roundoff in *.
  set (R := SF2Q r) in *.
  set (D := inject_Z (Z.pos pd)) in *. set (N := inject_Z (Z.pos pn)) in *.
  clearbody R D N x. clear - Rl Rh Hx HD1.
  split; nra.
Qed.

(** *** Subtraction *)

Lemma abs_binary_round (s : bool) (m : positive) (e : Z) :
  abs (binary_round prec emax s m e) = binary_round prec emax false m e.
Proof.
  unfold abs, binary_round.
  destruct (shl_align m e (fexp prec emax (Z.pos (digits2_pos m) + e))) as [mz ez].
  unfold binary_round_aux.
  destruct (shr_fexp prec emax (Z.pos mz) ez loc_Exact) as [mrs e'].
  destruct (shr_fexp prec emax
              (round_nearest_even (shr_m mrs) (loc_of_shr_record mrs)) e' loc_Exact)
    as [mrs2 e2].
  destruct (shr_m mrs2) as [ | p | p]; try reflexivity.
  destruct (e2 <=? emax - prec)%Z; reflexivity.
Qed.

(** The rounding of an integer multiple of a power of two. *)
Lemma binary_round_normal (p : positive) (e : Z) :
  (-900 < e <= 400)%Z -> (Z.pos p < 2 ^ 500)%Z ->
  let f := binary_round prec emax false p e in
  normal53 f
  /\ F2Q (Z.pos p) e * (1 - roundoff) <= SF2Q f
  /\ SF2Q f <= F2Q (Z.pos p) e * (1 + roundoff).
Proof.
  intros He Hp f. unfold f, binary_round.
  set (d := Z.pos (digits2_pos p)).
  pose proof (digits2_pos_bounds p) as [Hlo Hhi]. fold d in Hlo, Hhi.
  assert (Hd : (1 <= d <= 500)%Z).
  { split; [unfold d; lia | ]. apply (Zdigits2_le (Z.pos p) 500); lia. }
  replace (fexp prec emax (d + e)) with (d + e - 53)%Z by (rewrite fexp_eq; lia).
  pose proof (shl_align_spec p e (d + e - 53)) as Hsh.
  destruct (shl_align p e (d + e - 53)) as [mz ez]. destruct Hsh as [Hez Hmz].
  assert (Hx : F2Q (Z.pos mz) ez == F2Q (Z.pos p) e).
  { rewrite Hmz. rewrite <- F2Q_shift by lia.
    replace (ez + (e - ez))%Z with e by lia. reflexivity. }
  assert (Hmd : (2 ^ 52 <= Z.pos mz)%Z /\ (Zdigits2 (Z.pos mz) + ez = d + e)%Z).
  { destruct (Z_le_gt_dec d 53) as [Hd53 | Hd53].
    - assert (Eez : ez = (d + e - 53)%Z) by lia.
      replace (e - ez)%Z with (53 - d)%Z in Hmz by lia.
      assert (E52 : (2 ^ 52 = 2 ^ (d - 1) * 2 ^ (53 - d))%Z)
        by (rewrite <- Z.pow_add_r by lia; f_equal; lia).
      assert (E53 : (2 ^ 53 = 2 ^ d * 2 ^ (53 - d))%Z)
        by (rewrite <- Z.pow_add_r by lia; f_equal; lia).
      assert (Hpp : (0 < 2 ^ (53 - d))%Z) by (apply Z.pow_pos_nonneg; lia).
      assert (Hb : (2 ^ 52 <= Z.pos mz < 2 ^ 53)%Z).
      { rewrite Hmz, E52, E53.
        split; [apply Z.mul_le_mono_nonneg_r | apply Z.mul_lt_mono_pos_r]; lia. }
      split; [lia | ]. rewrite (full_digits _ Hb). lia.
    - assert (Eez : ez = e) by lia.
      replace (e - ez)%Z with 0%Z in Hmz by lia.
      rewrite Z.pow_0_r, Z.mul_1_r in Hmz.
      assert (Hpz : mz = p) by congruence. subst mz.
      split; [ | change (Zdigits2 (Z.pos p)) with d; lia].
      apply Z.le_trans with (2 := Hlo). apply Z.pow_le_mono_r; lia. }
  destruct Hmd as [Hm52 Hdz].
  apply round_normal.
  - exact Hm52.
  - rewrite Hx. apply Qle_refl.
  - rewrite <- Hx. apply F2Q_lt. lia.
  - lia.
Qed.

(** [abs(a - b)] for two floats with full mantissas: zero when they have
    the same value, and else their distance, rounded once. *)
Lemma abs_sub_normal (ma mb : positive) (ea eb : Z) :
  (2 ^ 52 <= Z.pos ma < 2 ^ 53)%Z -> (2 ^ 52 <= Z.pos mb < 2 ^ 53)%Z ->
  (-200 <= ea <= 200)%Z -> (-200 <= eb <= 200)%Z ->
  let A := F2Q (Z.pos ma) ea in
  let B := F2Q (Z.pos mb) eb in
  let k := abs (sub (S754_finite false ma ea) (S754_finite false mb eb)) in
  (A == B /\ k = zero)
  \/ (normal53 k
      /\ ((B < A /\ (A - B) * (1 - roundoff) <= SF2Q k
                 /\ SF2Q k <= (A - B) * (1 + roundoff))
          \/ (A < B /\ (B - A) * (1 - roundoff) <= SF2Q k
                     /\ SF2Q k <= (B - A) * (1 + roundoff)))).
Proof.
  intros Hma Hmb Hea Heb A B k. unfold k, sub. cbn [SFsub cond_Zopp].
  set (ez := Z.min ea eb).
  pose proof (shl_align_spec ma ea ez) as Ha.
  pose proof (shl_align_spec mb eb ez) as Hb.
  destruct (shl_align ma ea ez) as [ma' ea']. destruct (shl_align mb eb ez) as [mb' eb'].
  destruct Ha as [Ea Ma]. destruct Hb as [Eb Mb]. cbn [fst].
  assert (Eea : ea' = ez) by (unfold ez in *; lia).
  assert (Eeb : eb' = ez) by (unfold ez in *; lia).
  clear Ea Eb. subst ea' eb'.
  assert (HA : A == F2Q (Z.pos ma') ez).
  { unfold A. rewrite Ma. rewrite <- F2Q_shift by (unfold ez; lia).
    replace (ez + (ea - ez))%Z with ea by lia. reflexivity. }
  assert (HB : B == F2Q (Z.pos mb') ez).
  { unfold B. rewrite Mb. rewrite <- F2Q_shift by (unfold ez; lia).
    replace (ez + (eb - ez))%Z with eb by lia. reflexivity. }
  assert (Hsize : (Z.pos ma' < 2 ^ 500 /\ Z.pos mb' < 2 ^ 500)%Z).
  { assert (H400 : forall n, (0 <= n <= 400)%Z -> (2 ^ 53 * 2 ^ n <= 2 ^ 500)%Z).
    { intros n Hn. rewrite <- Z.pow_add_r by lia. apply Z.pow_le_mono_r; lia. }
    assert (Hpa : (0 < 2 ^ (ea - ez))%Z) by (apply Z.pow_pos_nonneg; unfold ez; lia).
    assert (Hpb : (0 < 2 ^ (eb - ez))%Z) by (apply Z.pow_pos_nonneg; unfold ez; lia).
    pose proof (H400 (ea - ez)%Z ltac:(unfold ez; lia)).
    pose proof (H400 (eb - ez)%Z ltac:(unfold ez; lia)).
    rewrite Ma, Mb. split; nia. }
  destruct Hsize as [Sa Sb].
  assert (Hez : (-900 < ez <= 400)%Z) by (unfold ez; lia).
  assert (Hdiff : forall a b, F2Q a ez - F2Q b ez == F2Q (a - b) ez).
  { intros a b. unfold F2Q, Z.sub. rewrite inject_Z_plus, inject_Z_opp. ring. }
  destruct (Z.pos ma' - Z.pos mb')%Z as [ | p | p] eqn:ED.
  - left. split; [ | reflexivity].
    rewrite HA, HB. replace (Z.pos ma') with (Z.pos mb') by lia. reflexivity.
  - right. cbn [binary_normalize]. rewrite abs_binary_round.
    destruct (binary_round_normal p ez Hez ltac:(lia)) as (Hn & Rl & Rh).
    split; [exact Hn | left].
    assert (E : A - B == F2Q (Z.pos p) ez) by (rewrite HA, HB, Hdiff, ED; reflexivity).
    rewrite E. split; [ | split; assumption].
    rewrite HA, HB. apply F2Q_lt. lia.
  - right. cbn [binary_normalize]. rewrite abs_binary_round.
    destruct (binary_round_normal p ez Hez ltac:(lia)) as (Hn & Rl & Rh).
    split; [exact Hn | right].
    assert (E : B - A == F2Q (Z.pos p) ez).
    { rewrite HA, HB, Hdiff. replace (Z.pos mb' - Z.pos ma')%Z with (Z.pos p) by lia.
      reflexivity. }
    rewrite E. split; [ | split; assumption].
    rewrite HA, HB. apply F2Q_lt. lia.
Qed.

(** *** Floor and ceiling *)

Lemma floor_ceil_pos (m : positive) (e : Z) :
  floor (S754_finite false m e) = Ok (Qfloor (F2Q (Z.pos m) e))
  /\ ceil (S754_finite false m e) = Ok (Qceiling (F2Q (Z.pos m) e)).
Proof.
  cbn [floor ceil cond_Zopp negb]. unfold F2Q.
  destruct e as [ | p | p].
  - rewrite Z.mul_1_r.
    assert (E : inject_Z (Z.pos m) * 2 ^ 0 == inject_Z (Z.pos m))
      by (change (2 ^ 0) with 1; ring).
    split; f_equal.
    + rewrite (Qfloor_comp _ _ E). now rewrite Qfloor_Z.
    + rewrite (Qceiling_comp _ _ E). now rewrite Qceiling_Z.
  - assert (E : inject_Z (Z.pos m) * 2 ^ Z.pos p == inject_Z (Z.pos m * 2 ^ Z.pos p))
      by (rewrite inject_Z_mult, (pow2_Z (Z.pos p)) by lia; reflexivity).
    split; f_equal.
    + rewrite (Qfloor_comp _ _ E). now rewrite Qfloor_Z.
    + rewrite (Qceiling_comp _ _ E). now rewrite Qceiling_Z.
  - assert (E : inject_Z (Z.pos m) * 2 ^ Z.neg p
                == inject_Z (Z.pos m) / inject_Z (2 ^ Z.pos p)).
    { change (Z.neg p) with (- Z.pos p)%Z. rewrite Qpower_opp.
      rewrite (pow2_Z (Z.pos p)) by lia. reflexivity. }
    split; f_equal.
    + rewrite (Qfloor_comp _ _ E). now rewrite Zdiv_Qdiv.
    + unfold Qceiling. f_equal. rewrite Zdiv_Qdiv. apply Qfloor_comp.
      rewrite E. change (- Z.pos m)%Z with (Z.opp (Z.pos m)).
      rewrite inject_Z_opp. field.
      assert (H : 0 < inject_Z (2 ^ Z.pos p)).
      { rewrite <- (pow2_Z (Z.pos p)) by lia. apply pow2_pos. }
      lra.
Qed.

End NormalRange.
(** ** The percent branch, to within the two roundings *)

Module PercentTight.
Import PyFloat FloatValue Rounding RoundAux RoundQ Ops Convert Resize.
Import RatioProof NormalRange.
Local Open Scope Q_scope.

(** A valid float that is not tiny has a full mantissa. *)
Lemma valid_normal (mp : positive) (ep : Z) :
  valid_binary prec emax (S754_finite false mp ep) = true ->
  2 ^ (-1000) <= F2Q (Z.pos mp) ep ->
  (2 ^ 52 <= Z.pos mp < 2 ^ 53)%Z.
Proof.
  intros Hv Hlo. cbn [valid_binary] in Hv. unfold bounded in Hv.
  apply andb_true_iff in Hv. destruct Hv as [Hc _].
  unfold canonical_mantissa in Hc. apply Z.eqb_eq in Hc.
  rewrite fexp_eq in Hc.
  pose proof (digits_exp_gt (Z.pos mp) ep (-1000) ltac:(lia) Hlo) as Hd.
  change (Zdigits2 (Z.pos mp)) with (Z.pos (digits2_pos mp)) in Hd.
  pose proof (digits2_pos_bounds mp) as Hb.
  assert (E : Z.pos (digits2_pos mp) = 53%Z) by lia.
  rewrite E in Hb. exact Hb.
Qed.

(** Above a product of 64 both roundings of [int(n * percent / 100)] are
    in the normal range, and the result is at most the exact value moved
    up by the two of them. *)
Lemma scale_percent_upper (n : Z) (mp : positive) (ep : Z) :
  let p := S754_finite false mp ep in
  valid_binary prec emax p = true ->
  (1 <= n < 2 ^ 53)%Z ->
  inject_Z n * SF2Q p < 2 ^ 53 ->
  64 <= inject_Z n * SF2Q p ->
  exists w,
    scale_percent n p = Ok w
    /\ inject_Z w <= exact_percent n p * (1 + roundoff) * (1 + roundoff).
Proof.
  intros p Hv Hn Hx Hx64. unfold exact_percent.
  destruct (of_int_normal n Hn) as (mn & en & Hof & Hmn & Hen & Hnv).
  change (SF2Q p) with (F2Q (Z.pos mp) ep) in *.
  set (P := F2Q (Z.pos mp) ep) in *.
  pose proof (inject_Z_pos n ltac:(lia)) as HN1.
  pose proof (inject_Z_below n 53 ltac:(lia) ltac:(lia)) as HN53.
  set (N := inject_Z n) in *.
  change ((2 : Q) ^ 53) with 9007199254740992 in Hx, HN53.
  assert (HPl : 2 ^ (-47) <= P).
  { change ((2 : Q) ^ (-47)) with (1 # 140737488355328). nra. }
  assert (HPh : P < 2 ^ 53).
  { change ((2 : Q) ^ 53) with 9007199254740992. nra. }
  assert (Hmp : (2 ^ 52 <= Z.pos mp < 2 ^ 53)%Z).
  { apply (valid_normal mp ep Hv). apply Qle_trans with (2 := HPl).
    apply pow2_le. lia. }
  pose proof (normal53_exponent mp ep (-47) 53 Hmp HPl HPh) as Hep.
  destruct (mul_normal mn mp en ep Hmn Hmp ltac:(lia)) as (Hc1 & C1l & C1h).
  fold P in C1l, C1h.
  destruct (normal53_value _ Hc1) as (m1 & e1 & Ec1 & Hm1 & Hc1v).
  rewrite Hc1v, Hnv in C1l, C1h. fold N in C1l, C1h.
  set (C1 := F2Q (Z.pos m1) e1) in *.
  unfold roundoff in *.
  assert (HC1l : 2 ^ 5 <= C1) by (change ((2 : Q) ^ 5) with 32; lra).
  assert (HC1h : C1 < 2 ^ 54) by (change ((2 : Q) ^ 54) with 18014398509481984; lra).
  pose proof (normal53_exponent m1 e1 5 54 Hm1 HC1l HC1h) as He1.
  assert (H100 : (2 ^ 52 <= 7036874417766400 < 2 ^ 53)%Z) by (vm_compute; split; congruence).
  destruct (div_normal m1 7036874417766400 e1 (-46) Hm1 H100 ltac:(lia))
    as (f2 & Hdiv & Hn2 & _ & C2h).
  fold C1 in C2h. rewrite PercentProof.hundred_value in C2h.
  unfold scale_percent. rewrite Hof, of_int_100. cbn [bind].
  fold p. unfold p at 1. rewrite Ec1, Hdiv. cbn [bind].
  exists (Qfloor (SF2Q f2)).
  split; [apply to_int_floor; now apply normal53_nonneg_finite | ].
  pose proof (Qfloor_le (SF2Q f2)) as Hfl.
  unfold roundoff in C2h.
  set (F := SF2Q f2) in *. set (T := N * P) in *.
  assert (E : C1 / 100 == C1 * (1 # 100)) by reflexivity.
  rewrite E in C2h.
  setoid_replace (T / 100) with (T * (1 # 100)) by reflexivity.
  clearbody F T C1. lra.
Qed.

(** [int(n * percent / 100)] is the floor of the exact value; or the
    integer above it, and then only when the two roundings reach it. *)
Lemma scale_percent_tight (n : Z) (mp : positive) (ep : Z) :
  let p := S754_finite false mp ep in
  valid_binary prec emax p = true ->
  (1 <= n < 2 ^ 53)%Z ->
  inject_Z n * SF2Q p < 2 ^ 53 ->
  exists w,
    scale_percent n p = Ok w
    /\ (w = Qfloor (exact_percent n p)
        \/ (w = (Qfloor (exact_percent n p) + 1)%Z
            /\ inject_Z w <= exact_percent n p * (1 + roundoff) * (1 + roundoff))).
Proof.
  intros p Hv Hn Hx.
  destruct (PercentProof.scale_percent_bounds n mp ep Hv Hn Hx) as (w & Ew & Bw & Bh).
  fold p in Ew, Bw, Bh.
  exists w. split; [exact Ew | ].
  destruct (Z.eq_dec w (Qfloor (exact_percent n p))) as [E | Hne]; [left; exact E | right].
  split; [lia | ].
  assert (Hq0 : 0 <= exact_percent n p).
  { unfold exact_percent, p. cbn [SF2Q cond_Zopp]. fold (F2Q (Z.pos mp) ep).
    pose proof (F2Q_pos (Z.pos mp) ep ltac:(lia)).
    pose proof (inject_Z_pos n ltac:(lia)).
    apply Qle_shift_div_l; [reflexivity | ]. nra. }
  assert (Hk0 : (0 <= Qfloor (exact_percent n p))%Z).
  { apply Qfloor_resp_le in Hq0. exact Hq0. }
  assert (Hw1 : 1 <= inject_Z w) by (apply inject_Z_pos; lia).
  destruct (scale_percent_upper n mp ep Hv Hn Hx) as (w' & Ew' & Up).
  { fold p. lra. }
  fold p in Ew', Up. rewrite Ew in Ew'. injection Ew' as <-. exact Up.
Qed.

End PercentTight.
(** ** The bounded fit, in double precision *)

Module FitProof.
Import PyFloat FloatValue Rounding RoundAux RoundQ Ops Convert Resize Fit.
Import RatioProof NormalRange.
Local Open Scope Q_scope.

(** The two candidates of [round_aspect]: the integers next to a positive
    float. *)
Lemma floor_ceil_normal (v : float) :
  normal53 v ->
  exists lo hi,
    floor v = Ok lo /\ ceil v = Ok hi
    /\ inject_Z lo <= SF2Q v /\ SF2Q v < inject_Z lo + 1
    /\ inject_Z hi - 1 < SF2Q v /\ SF2Q v <= inject_Z hi
    /\ (0 <= lo)%Z /\ (lo <= hi <= lo + 1)%Z.
Proof.
  intros Hv. pose proof (normal53_pos v Hv) as Hpos.
  destruct (normal53_value v Hv) as (m & e & -> & Hm & _).
  destruct (floor_ceil_pos m e) as [Hf Hc].
  change (SF2Q (S754_finite false m e)) with (F2Q (Z.pos m) e) in *.
  set (V := F2Q (Z.pos m) e) in *.
  exists (Qfloor V), (Qceiling V).
  pose proof (Qfloor_le V) as F1. pose proof (Qlt_floor V) as F2.
  pose proof (Qle_ceiling V) as C1. pose proof (Qceiling_lt V) as C2.
  rewrite inject_Z_plus in F2. change (inject_Z 1) with 1 in F2.
  unfold Z.sub in C2. rewrite inject_Z_plus in C2.
  change (inject_Z (- (1))) with (-1) in C2.
  assert (H0 : (0 <= Qfloor V)%Z).
  { assert (H : 0 <= V) by lra. apply Qfloor_resp_le in H. exact H. }
  assert (H1 : (Qfloor V <= Qceiling V)%Z) by (rewrite Zle_Qle; lra).
  assert (H2 : (Qceiling V < Qfloor V + 2)%Z).
  { rewrite Zlt_Qlt, inject_Z_plus. change (inject_Z 2) with 2. lra. }
  repeat split; try assumption; try lra; lia.
Qed.

(** An integer below a rational that is less than a quarter above an
    integer is at most that integer; and the other way around. *)
Lemma int_le_near (a b : Z) (t : Q) :
  inject_Z a <= t -> t < inject_Z b + (1 # 4) -> (a <= b)%Z.
Proof.
  intros H1 H2.
  assert (H : inject_Z a < inject_Z (b + 1)).
  { rewrite inject_Z_plus. change (inject_Z 1) with 1. lra. }
  rewrite <- Zlt_Qlt in H. lia.
Qed.

Lemma int_ge_near (a b : Z) (t : Q) :
  t <= inject_Z a -> inject_Z b - (1 # 4) < t -> (b <= a)%Z.
Proof.
  intros H1 H2.
  assert (H : inject_Z b < inject_Z (a + 1)).
  { rewrite inject_Z_plus. change (inject_Z 1) with 1. lra. }
  rewrite <- Zlt_Qlt in H. lia.
Qed.

(** The candidates against the exact proportional side [e / d], when the
    float, scaled by [d], is within a quarter of [e]. *)
Lemma neighbours (lo hi d e : Z) (V : Q) :
  (1 <= d)%Z ->
  inject_Z lo <= V -> V < inject_Z lo + 1 ->
  inject_Z hi - 1 < V -> V <= inject_Z hi ->
  inject_Z e - (1 # 4) < V * inject_Z d -> V * inject_Z d < inject_Z e + (1 # 4) ->
  (lo * d <= e <= (lo + 1) * d)%Z /\ ((hi - 1) * d <= e <= hi * d)%Z.
Proof.
  intros Hd F1 F2 C2 C1 Tl Th.
  pose proof (inject_Z_pos d Hd) as HD.
  set (D := inject_Z d) in *. set (T := V * D) in *.
  assert (A1 : inject_Z (lo * d) <= T).
  { rewrite inject_Z_mult. fold D. unfold T. clear - F1 HD. nra. }
  assert (A2 : T <= inject_Z ((lo + 1) * d)).
  { rewrite inject_Z_mult, inject_Z_plus. fold D. change (inject_Z 1) with 1.
    unfold T. clear - F2 HD. nra. }
  assert (A3 : inject_Z ((hi - 1) * d) <= T).
  { unfold Z.sub. rewrite inject_Z_mult, inject_Z_plus. fold D.
    change (inject_Z (- (1))) with (-1). unfold T. clear - C2 HD. nra. }
  assert (A4 : T <= inject_Z (hi * d)).
  { rewrite inject_Z_mult. fold D. unfold T. clear - C1 HD. nra. }
  repeat split.
  - now apply int_le_near with T.
  - now apply int_ge_near with T.
  - now apply int_le_near with T.
  - now apply int_ge_near with T.
Qed.

(** [n / d] for a candidate [n] of [round_aspect]. *)
Lemma candidate_quotient (n d : Z) :
  (0 <= n < 2 ^ 25)%Z -> (1 <= d < 2 ^ 25)%Z ->
  exists q, int_truediv n d = Ok q.
Proof.
  intros Hn Hd. destruct (Z.eq_dec n 0) as [-> | Hz].
  - unfold int_truediv. destruct (Z.eqb_spec d 0); [lia | eauto].
  - destruct (int_truediv_normal n d ltac:(lia) Hd) as (q & Hq & _). eauto.
Qed.

(** The value of a quotient of two integers up to [2^24] is between
    [2^-25] and [2^25]; so is its exponent placed. *)
Lemma quotient_exponent (m : positive) (e : Z) (n d : Z) :
  (2 ^ 52 <= Z.pos m < 2 ^ 53)%Z ->
  (1 <= n <= 2 ^ 24)%Z -> (1 <= d <= 2 ^ 24)%Z ->
  inject_Z n * (1 - roundoff) <= F2Q (Z.pos m) e * inject_Z d ->
  F2Q (Z.pos m) e * inject_Z d <= inject_Z n * (1 + roundoff) ->
  (-200 <= e <= 200)%Z.
Proof.
  intros Hm Hn Hd Rl Rh.
  pose proof (inject_Z_pos n ltac:(lia)) as HN1.
  pose proof (inject_Z_pos d ltac:(lia)) as HD1.
  assert (HN : inject_Z n <= 16777216)
    by (change 16777216 with (inject_Z (2 ^ 24)); rewrite <- Zle_Qle; lia).
  assert (HD : inject_Z d <= 16777216)
    by (change 16777216 with (inject_Z (2 ^ 24)); rewrite <- Zle_Qle; lia).
  unfold roundoff in *.
  set (R := F2Q (Z.pos m) e) in *. set (N := inject_Z n) in *. set (D := inject_Z d) in *.
  assert (HR0 : 0 < R) by (apply F2Q_pos; lia).
  assert (Hl : 2 ^ (-26) <= R).
  { change ((2 : Q) ^ (-26)) with (1 # 67108864). clearbody R N D. nra. }
  assert (Hh : R < 2 ^ 26).
  { change ((2 : Q) ^ 26) with 67108864. clearbody R N D. nra. }
  pose proof (normal53_exponent m e (-26) 26 Hm Hl Hh). lia.
Qed.

(** When the product [y * aspect] rounds to just above the width [x] of
    the box, the candidates are [x] and [x + 1], and [x] is the one kept:
    its ratio is within two roundings of [aspect], that of [x + 1] is a
    whole [1 / y] away. *)
Lemma keep_floor_width (x y : Z) (ma mb mc : positive) (ea eb ec : Z) :
  (1 <= x < 2 ^ 24)%Z -> (1 <= y < 2 ^ 24)%Z ->
  (2 ^ 52 <= Z.pos ma < 2 ^ 53)%Z -> (2 ^ 52 <= Z.pos mb < 2 ^ 53)%Z ->
  (2 ^ 52 <= Z.pos mc < 2 ^ 53)%Z ->
  (-200 <= ea <= 200)%Z ->
  F2Q (Z.pos ma) ea <= F2Q (Z.pos mb) eb ->
  inject_Z x * (1 - roundoff) <= F2Q (Z.pos mb) eb * inject_Z y ->
  F2Q (Z.pos mb) eb * inject_Z y <= inject_Z x * (1 + roundoff) ->
  inject_Z (x + 1) * (1 - roundoff) <= F2Q (Z.pos mc) ec * inject_Z y ->
  F2Q (Z.pos mc) ec * inject_Z y <= inject_Z (x + 1) * (1 + roundoff) ->
  inject_Z x < F2Q (Z.pos ma) ea * inject_Z y * (1 + roundoff) ->
  lt (abs (sub (S754_finite false ma ea) (S754_finite false mc ec)))
     (abs (sub (S754_finite false ma ea) (S754_finite false mb eb))) = false.
Proof.
  intros Hx Hy Hma Hmb Hmc Hea Hab Bl Bh Cl Ch Hov.
  pose proof (quotient_exponent mb eb x y Hmb ltac:(lia) ltac:(lia) Bl Bh) as Heb.
  pose proof (quotient_exponent mc ec (x + 1) y Hmc ltac:(lia) ltac:(lia) Cl Ch) as Hec.
  pose proof (abs_sub_normal ma mb ea eb Hma Hmb Hea Heb) as Slo.
  pose proof (abs_sub_normal ma mc ea ec Hma Hmc Hea Hec) as Shi.
  cbv zeta in Slo, Shi.
  pose proof (inject_Z_pos x ltac:(lia)) as HX1.
  pose proof (inject_Z_pos y ltac:(lia)) as HY1.
  pose proof (inject_Z_below x 24 ltac:(lia) ltac:(lia)) as HX24.
  change ((2 : Q) ^ 24) with 16777216 in HX24.
  rewrite inject_Z_plus in Cl, Ch. change (inject_Z 1) with 1 in Cl, Ch.
  unfold roundoff in *.
  set (A := F2Q (Z.pos ma) ea) in *. set (B := F2Q (Z.pos mb) eb) in *.
  set (C := F2Q (Z.pos mc) ec) in *.
  set (X := inject_Z x) in *. set (Y := inject_Z y) in *.
  assert (HAB : A * Y <= B * Y) by (clear - Hab HY1; nra).
  assert (HAC : A * Y < C * Y).
  { set (AY := A * Y) in *. set (BY := B * Y) in *. set (CY := C * Y) in *.
    clearbody AY BY CY X. clear - HAB Bh Cl HX1 HX24. lra. }
  assert (HltAC : A < C) by (clear - HAC HY1; nra).
  destruct Slo as [[_ ->] | (Nlo & Klo)]; [apply lt_abs_zero | ].
  destruct Shi as [[E _] | (Nhi & Khi)]; [exfalso; clear - E HltAC; lra | ].
  apply lt_normal_false; try assumption.
  set (KL := SF2Q (abs (sub (S754_finite false ma ea) (S754_finite false mb eb)))) in *.
  set (KH := SF2Q (abs (sub (S754_finite false ma ea) (S754_finite false mc ec)))) in *.
  destruct Klo as [(Hlt & _) | (_ & _ & KLh)].
  { exfalso. clear - Hlt Hab. lra. }
  destruct Khi as [(Hc & _) | (_ & KHl & _)]; [exfalso; clear - Hc HltAC; lra | ].
  assert (S1 : KL * Y <= (B * Y - A * Y) * (1 + (1 # 4503599627370496))).
  { clear - KLh HY1. nra. }
  assert (S2 : (C * Y - A * Y) * (1 - (1 # 4503599627370496)) <= KH * Y).
  { clear - KHl HY1. nra. }
  assert (S3 : KL * Y <= KH * Y).
  { set (AY := A * Y) in *. set (BY := B * Y) in *. set (CY := C * Y) in *.
    set (KLY := KL * Y) in *. set (KHY := KH * Y) in *.
    clearbody AY BY CY KLY KHY X. clear - S1 S2 HAB Bh Cl Hov HX1 HX24. lra. }
  clear - S3 HY1. nra.
Qed.

(** The branch that recomputes the width: [x / y >= aspect]. *)
Lemma width_branch (W H x y : Z) (a b : float) :
  (1 <= W < 2 ^ 24)%Z -> (1 <= H < 2 ^ 24)%Z ->
  (1 <= x < 2 ^ 24)%Z -> (1 <= y < 2 ^ 24)%Z ->
  int_truediv x y = Ok b ->
  normal53 a -> normal53 b ->
  inject_Z W * (1 - roundoff) <= SF2Q a * inject_Z H ->
  SF2Q a * inject_Z H <= inject_Z W * (1 + roundoff) ->
  inject_Z x * (1 - roundoff) <= SF2Q b * inject_Z y ->
  SF2Q b * inject_Z y <= inject_Z x * (1 + roundoff) ->
  SF2Q a <= SF2Q b ->
  exists fy w,
    of_int y = Ok fy
    /\ round_aspect (mul fy a)
         (fun n => q <- int_truediv n y ;; Ok (abs (sub a q)))%py = Ok w
    /\ (1 <= w <= x)%Z /\ (w * H <= y * W + H)%Z /\ (y * W <= w * H + H)%Z
    /\ (y * W <= x * H)%Z.
Proof.
  intros HW HH Hx Hy Hb Na Nb Al Ah Bl Bh Hab.
  destruct (normal53_value a Na) as (ma & ea & -> & Hma & _).
  destruct (normal53_value b Nb) as (mb & eb & -> & Hmb & _).
  change (SF2Q (S754_finite false ma ea)) with (F2Q (Z.pos ma) ea) in *.
  change (SF2Q (S754_finite false mb eb)) with (F2Q (Z.pos mb) eb) in *.
  pose proof (quotient_exponent ma ea W H Hma ltac:(lia) ltac:(lia) Al Ah) as Hea.
  destruct (of_int_normal y ltac:(lia)) as (my & ey & Hofy & Hmy & Hey & Hyv).
  destruct (mul_normal my ma ey ea Hmy Hma ltac:(lia)) as (Nv & Vl & Vh).
  rewrite Hyv in Vl, Vh.
  set (v := mul (S754_finite false my ey) (S754_finite false ma ea)) in *.
  destruct (floor_ceil_normal v Nv)
    as (lo & hi & Hfl & Hce & F1 & F2 & C2 & C1 & Hlo0 & Hlohi).
  pose proof (inject_Z_pos W ltac:(lia)) as HW1.
  pose proof (inject_Z_pos H ltac:(lia)) as HH1.
  pose proof (inject_Z_pos x ltac:(lia)) as HX1.
  pose proof (inject_Z_pos y ltac:(lia)) as HY1.
  pose proof (inject_Z_below W 24 ltac:(lia) ltac:(lia)) as HW24.
  pose proof (inject_Z_below H 24 ltac:(lia) ltac:(lia)) as HH24.
  pose proof (inject_Z_below x 24 ltac:(lia) ltac:(lia)) as HX24.
  pose proof (inject_Z_below y 24 ltac:(lia) ltac:(lia)) as HY24.
  change ((2 : Q) ^ 24) with 16777216 in HW24, HH24, HX24, HY24.
  assert (EP : inject_Z (y * W) == inject_Z y * inject_Z W) by (rewrite inject_Z_mult; reflexivity).
  assert (ER : inject_Z (x * H) == inject_Z x * inject_Z H) by (rewrite inject_Z_mult; reflexivity).
  unfold roundoff in *.
  set (A := F2Q (Z.pos ma) ea) in *. set (B := F2Q (Z.pos mb) eb) in *.
  set (V := SF2Q v) in *.
  set (Wq := inject_Z W) in *. set (Hq := inject_Z H) in *.
  set (X := inject_Z x) in *. set (Y := inject_Z y) in *.
  assert (HP48 : Y * Wq < 281474976710656) by (clear - HW1 HW24 HY1 HY24; nra).
  assert (HR48 : X * Hq < 281474976710656) by (clear - HX1 HX24 HH1 HH24; nra).
  (* the image is at least as tall, in proportion, as the box *)
  assert (Hfit : (y * W <= x * H)%Z).
  { assert (HYH : 0 <= Y * Hq) by (clear - HY1 HH1; nra).
    assert (S1 : Y * Wq * (1 - (1 # 4503599627370496)) <= A * (Y * Hq))
      by (clear - Al HY1; nra).
    assert (S2 : A * (Y * Hq) <= B * (Y * Hq))
      by (apply Qmult_le_compat_r; assumption).
    assert (S3 : B * (Y * Hq) <= X * Hq * (1 + (1 # 4503599627370496)))
      by (clear - Bh HH1; nra).
    destruct (Z_le_gt_dec (y * W) (x * H)) as [Hle | Hgt]; [exact Hle | exfalso].
    assert (Hgt' : inject_Z (x * H) + 1 <= inject_Z (y * W)).
    { change 1 with (inject_Z 1). rewrite <- inject_Z_plus, <- Zle_Qle. lia. }
    rewrite EP, ER in Hgt'.
    set (P := Y * Wq) in *. set (R := X * Hq) in *.
    set (M1 := A * (Y * Hq)) in *. set (M2 := B * (Y * Hq)) in *.
    clearbody P R M1 M2. clear - S1 S2 S3 Hgt' HR48. lra. }
  (* the product, scaled by the height, against [y * W] *)
  assert (T1 : V * Hq <= Y * (A * Hq) * (1 + (1 # 4503599627370496)))
    by (clear - Vh HH1; nra).
  assert (T2 : Y * (A * Hq) <= Y * Wq * (1 + (1 # 4503599627370496)))
    by (clear - Ah HY1; nra).
  assert (T3 : Y * (A * Hq) * (1 - (1 # 4503599627370496)) <= V * Hq)
    by (clear - Vl HH1; nra).
  assert (T4 : Y * Wq * (1 - (1 # 4503599627370496)) <= Y * (A * Hq))
    by (clear - Al HY1; nra).
  assert (Tl : inject_Z (y * W) - (1 # 4) < V * Hq).
  { rewrite EP. set (P := Y * Wq) in *. set (M := Y * (A * Hq)) in *.
    set (T := V * Hq) in *. clearbody P M T. clear - T3 T4 HP48 HY1. lra. }
  assert (Th : V * Hq < inject_Z (y * W) + (1 # 4)).
  { rewrite EP. set (P := Y * Wq) in *. set (M := Y * (A * Hq)) in *.
    set (T := V * Hq) in *. clearbody P M T. clear - T1 T2 HP48 HY1. lra. }
  destruct (neighbours lo hi H (y * W) V ltac:(lia) F1 F2 C2 C1 Tl Th)
    as [[I1 I1'] [I2 I2']].
  assert (HyW : (1 <= y * W)%Z) by (clear - HW Hy; nia).
  assert (Hlox : (lo <= x)%Z) by (clear - I1 Hfit HH; nia).
  assert (Hhix : (hi <= x + 1)%Z) by (clear - I2 Hfit HH; nia).
  (* the keys of the two candidates *)
  destruct (candidate_quotient lo y ltac:(lia) ltac:(lia)) as (qlo & Hqlo).
  destruct (candidate_quotient hi y ltac:(lia) ltac:(lia)) as (qhi & Hqhi).
  exists (S754_finite false my ey). eexists. split; [exact Hofy | ].
  fold v. unfold round_aspect.
  rewrite Hfl, Hce. cbn [bind]. rewrite Hqlo, Hqhi. cbn [bind].
  split; [reflexivity | ].
  destruct (lt (abs (sub (S754_finite false ma ea) qhi))
               (abs (sub (S754_finite false ma ea) qlo))) eqn:Hlt.
  - (* the ceiling is taken: it is not above the box *)
    assert (Hhi : (hi <= x)%Z).
    { destruct (Z_le_gt_dec hi x) as [Hle | Hgt]; [exact Hle | exfalso].
      assert (Ehi : hi = (x + 1)%Z) by lia.
      assert (Elo : lo = x) by lia.
      subst hi lo. rewrite Hb in Hqlo. injection Hqlo as <-.
      destruct (int_truediv_normal (x + 1) y ltac:(lia) ltac:(lia))
        as (c & Hc & Nc & Cl & Ch).
      rewrite Hc in Hqhi. injection Hqhi as <-.
      destruct (normal53_value c Nc) as (mc & ec & -> & Hmc & _).
      change (SF2Q (S754_finite false mc ec)) with (F2Q (Z.pos mc) ec) in *.
      rewrite (keep_floor_width x y ma mb mc ea eb ec) in Hlt;
        try assumption; try discriminate.
      rewrite inject_Z_plus in C2. change (inject_Z 1) with 1 in C2.
      fold X in C2. unfold roundoff. fold A X Y.
      set (AY := A * Y). assert (EAY : Y * A == AY) by (unfold AY; ring).
      rewrite EAY in Vh. clearbody AY V. clear - C2 Vh. lra. }
    clear - I2 I2' Hhi Hlo0 Hlohi Hx HyW Hfit.
    destruct (Z.eq_dec hi 0) as [-> | Hnz]; [lia | ].
    rewrite Z.max_l by lia. lia.
  - clear - I1 I1' Hlox Hlo0 Hx HyW Hfit.
    destruct (Z.eq_dec lo 0) as [-> | Hnz]; [lia | ].
    rewrite Z.max_l by lia. lia.
Qed.

(** The same when the quotient [x / aspect] rounds to just above the
    height [y] of the box: [y] is kept, [y + 1] is not. *)
Lemma keep_floor_height (x y : Z) (ma mb mc : positive) (ea eb ec : Z) :
  (1 <= x < 2 ^ 24)%Z -> (1 <= y < 2 ^ 24)%Z ->
  (2 ^ 52 <= Z.pos ma < 2 ^ 53)%Z -> (2 ^ 52 <= Z.pos mb < 2 ^ 53)%Z ->
  (2 ^ 52 <= Z.pos mc < 2 ^ 53)%Z ->
  (-200 <= ea <= 200)%Z ->
  F2Q (Z.pos mb) eb < F2Q (Z.pos ma) ea ->
  inject_Z x * (1 - roundoff) <= F2Q (Z.pos mb) eb * inject_Z y ->
  F2Q (Z.pos mb) eb * inject_Z y <= inject_Z x * (1 + roundoff) ->
  inject_Z x * (1 - roundoff) <= F2Q (Z.pos mc) ec * inject_Z (y + 1) ->
  F2Q (Z.pos mc) ec * inject_Z (y + 1) <= inject_Z x * (1 + roundoff) ->
  F2Q (Z.pos ma) ea * inject_Z y < inject_Z x * (1 + roundoff) ->
  lt (abs (sub (S754_finite false ma ea) (S754_finite false mc ec)))
     (abs (sub (S754_finite false ma ea) (S754_finite false mb eb))) = false.
Proof.
  intros Hx Hy Hma Hmb Hmc Hea Hba Bl Bh Cl Ch Hov.
  pose proof (quotient_exponent mb eb x y Hmb ltac:(lia) ltac:(lia) Bl Bh) as Heb.
  pose proof (quotient_exponent mc ec x (y + 1) Hmc ltac:(lia) ltac:(lia) Cl Ch) as Hec.
  pose proof (abs_sub_normal ma mb ea eb Hma Hmb Hea Heb) as Slo.
  pose proof (abs_sub_normal ma mc ea ec Hma Hmc Hea Hec) as Shi.
  cbv zeta in Slo, Shi.
  pose proof (inject_Z_pos x ltac:(lia)) as HX1.
  pose proof (inject_Z_pos y ltac:(lia)) as HY1.
  pose proof (inject_Z_below y 24 ltac:(lia) ltac:(lia)) as HY24.
  change ((2 : Q) ^ 24) with 16777216 in HY24.
  rewrite inject_Z_plus in Cl, Ch. change (inject_Z 1) with 1 in Cl, Ch.
  unfold roundoff in *.
  set (A := F2Q (Z.pos ma) ea) in *. set (B := F2Q (Z.pos mb) eb) in *.
  set (C := F2Q (Z.pos mc) ec) in *.
  set (X := inject_Z x) in *. set (Y := inject_Z y) in *.
  assert (HS : 0 < Y * (Y + 1)) by (clear - HY1; nra).
  assert (HXY : X * Y < 16777216 * X) by (clear - HX1 HY24; nra).
  assert (Fa : A * (Y * (Y + 1)) <= (X * Y + X) * (1 + (1 # 4503599627370496)))
    by (clear - Hov HY1; nra).
  assert (Fb : (X * Y + X) * (1 - (1 # 4503599627370496)) <= B * (Y * (Y + 1)))
    by (clear - Bl HY1; nra).
  assert (Fc : C * (Y * (Y + 1)) <= X * Y * (1 + (1 # 4503599627370496)))
    by (clear - Ch HY1; nra).
  assert (Fab : B * (Y * (Y + 1)) <= A * (Y * (Y + 1))).
  { apply Qmult_le_compat_r; [apply Qlt_le_weak; exact Hba | apply Qlt_le_weak; exact HS]. }
  assert (HCA : C < A).
  { assert (H : C * (Y * (Y + 1)) < A * (Y * (Y + 1))).
    { set (P1 := A * (Y * (Y + 1))) in *. set (P2 := B * (Y * (Y + 1))) in *.
      set (P3 := C * (Y * (Y + 1))) in *. set (XY := X * Y) in *.
      clearbody P1 P2 P3 XY X. clear - Fb Fc Fab HXY HX1. lra. }
    set (S := Y * (Y + 1)) in *. clearbody S. clear - H HS. nra. }
  destruct Slo as [[E _] | (Nlo & Klo)]; [exfalso; clear - E Hba; lra | ].
  destruct Shi as [[E _] | (Nhi & Khi)]; [exfalso; clear - E HCA; lra | ].
  apply lt_normal_false; try assumption.
  set (KL := SF2Q (abs (sub (S754_finite false ma ea) (S754_finite false mb eb)))) in *.
  set (KH := SF2Q (abs (sub (S754_finite false ma ea) (S754_finite false mc ec)))) in *.
  destruct Klo as [(_ & _ & KLh) | (Hlt & _)]; [ | exfalso; clear - Hlt Hba; lra].
  destruct Khi as [(_ & KHl & _) | (Hlt & _)]; [ | exfalso; clear - Hlt HCA; lra].
  set (S := Y * (Y + 1)) in *.
  assert (S1 : KL * S <= (A * S - B * S) * (1 + (1 # 4503599627370496))).
  { clearbody S. clear - KLh HS. nra. }
  assert (S2 : (A * S - C * S) * (1 - (1 # 4503599627370496)) <= KH * S).
  { clearbody S. clear - KHl HS. nra. }
  assert (S3 : KL * S <= KH * S).
  { set (P1 := A * S) in *. set (P2 := B * S) in *. set (P3 := C * S) in *.
    set (XY := X * Y) in *. set (KLS := KL * S) in *. set (KHS := KH * S) in *.
    clearbody P1 P2 P3 XY KLS KHS X. clear - S1 S2 Fa Fb Fc Fab HXY HX1. lra. }
  clearbody S. clear - S3 HS. nra.
Qed.

(** The key of a candidate height: zero for the candidate 0. *)
Lemma height_key (x n : Z) (a : float) :
  (1 <= x < 2 ^ 24)%Z -> (0 <= n < 2 ^ 25)%Z ->
  exists k,
    (if n =? 0 then Ok zero
     else q <- int_truediv x n ;; Ok (abs (sub a q)))%py = Ok k
    /\ (n = 0%Z -> k = zero)
    /\ (n <> 0%Z -> exists q, int_truediv x n = Ok q /\ k = abs (sub a q)).
Proof.
  intros Hx Hn. destruct (Z.eqb_spec n 0) as [-> | Hnz].
  - exists zero. split; [reflexivity | split; [reflexivity | tauto]].
  - destruct (candidate_quotient x n ltac:(lia) ltac:(lia)) as (q & Hq).
    rewrite Hq. cbn [bind]. eexists. split; [reflexivity | split; [tauto | eauto]].
Qed.

(** The branch that recomputes the height: [x / y < aspect]. *)
Lemma height_branch (W H x y : Z) (a b : float) :
  (1 <= W < 2 ^ 24)%Z -> (1 <= H < 2 ^ 24)%Z ->
  (1 <= x < 2 ^ 24)%Z -> (1 <= y < 2 ^ 24)%Z ->
  int_truediv x y = Ok b ->
  normal53 a -> normal53 b ->
  inject_Z W * (1 - roundoff) <= SF2Q a * inject_Z H ->
  SF2Q a * inject_Z H <= inject_Z W * (1 + roundoff) ->
  inject_Z x * (1 - roundoff) <= SF2Q b * inject_Z y ->
  SF2Q b * inject_Z y <= inject_Z x * (1 + roundoff) ->
  SF2Q b < SF2Q a ->
  exists fx number h,
    of_int x = Ok fx /\ div fx a = Ok number
    /\ round_aspect number
         (fun n => if n =? 0 then Ok zero
                   else q <- int_truediv x n ;; Ok (abs (sub a q)))%py = Ok h
    /\ (1 <= h <= y)%Z /\ (h * W <= x * H + W)%Z /\ (x * H <= h * W + W)%Z
    /\ (x * H <= y * W)%Z.
Proof.
  intros HW HH Hx Hy Hb Na Nb Al Ah Bl Bh Hba.
  destruct (normal53_value a Na) as (ma & ea & -> & Hma & _).
  destruct (normal53_value b Nb) as (mb & eb & -> & Hmb & _).
  change (SF2Q (S754_finite false ma ea)) with (F2Q (Z.pos ma) ea) in *.
  change (SF2Q (S754_finite false mb eb)) with (F2Q (Z.pos mb) eb) in *.
  pose proof (quotient_exponent ma ea W H Hma ltac:(lia) ltac:(lia) Al Ah) as Hea.
  destruct (of_int_normal x ltac:(lia)) as (mx & ex & Hofx & Hmx & Hex & Hxv).
  destruct (div_normal mx ma ex ea Hmx Hma ltac:(lia)) as (v & Hdiv & Nv & Vl & Vh).
  rewrite Hxv in Vl, Vh.
  destruct (floor_ceil_normal v Nv)
    as (lo & hi & Hfl & Hce & F1 & F2 & C2 & C1 & Hlo0 & Hlohi).
  pose proof (normal53_pos v Nv) as HV0.
  pose proof (inject_Z_pos W ltac:(lia)) as HW1.
  pose proof (inject_Z_pos H ltac:(lia)) as HH1.
  pose proof (inject_Z_pos x ltac:(lia)) as HX1.
  pose proof (inject_Z_pos y ltac:(lia)) as HY1.
  pose proof (inject_Z_below W 24 ltac:(lia) ltac:(lia)) as HW24.
  pose proof (inject_Z_below H 24 ltac:(lia) ltac:(lia)) as HH24.
  pose proof (inject_Z_below x 24 ltac:(lia) ltac:(lia)) as HX24.
  pose proof (inject_Z_below y 24 ltac:(lia) ltac:(lia)) as HY24.
  change ((2 : Q) ^ 24) with 16777216 in HW24, HH24, HX24, HY24.
  assert (EP : inject_Z (y * W) == inject_Z y * inject_Z W)
    by (rewrite inject_Z_mult; reflexivity).
  assert (ER : inject_Z (x * H) == inject_Z x * inject_Z H)
    by (rewrite inject_Z_mult; reflexivity).
  assert (HA0 : 0 < F2Q (Z.pos ma) ea) by (apply F2Q_pos; lia).
  unfold roundoff in *.
  set (A := F2Q (Z.pos ma) ea) in *. set (B := F2Q (Z.pos mb) eb) in *.
  set (V := SF2Q v) in *.
  set (Wq := inject_Z W) in *. set (Hq := inject_Z H) in *.
  set (X := inject_Z x) in *. set (Y := inject_Z y) in *.
  assert (HP48 : Y * Wq < 281474976710656) by (clear - HW1 HW24 HY1 HY24; nra).
  assert (HR48 : X * Hq < 281474976710656) by (clear - HX1 HX24 HH1 HH24; nra).
  (* the quotient times the ratio is the width of the box, nearly *)
  assert (EQ : X / A * A == X) by (field; clear - HA0; lra).
  assert (VAl : X * (1 - (1 # 4503599627370496)) <= V * A).
  { set (Q0 := X / A) in *. clearbody Q0. clear - Vl EQ HA0. nra. }
  assert (VAh : V * A <= X * (1 + (1 # 4503599627370496))).
  { set (Q0 := X / A) in *. clearbody Q0. clear - Vh EQ HA0. nra. }
  (* the image is wider, in proportion, than the box *)
  assert (Hfit : (x * H <= y * W)%Z).
  { assert (HYH : 0 <= Y * Hq) by (clear - HY1 HH1; nra).
    assert (S1 : X * Hq * (1 - (1 # 4503599627370496)) <= B * (Y * Hq))
      by (clear - Bl HH1; nra).
    assert (S2 : B * (Y * Hq) <= A * (Y * Hq)).
    { apply Qmult_le_compat_r; [apply Qlt_le_weak; exact Hba | exact HYH]. }
    assert (S3 : A * (Y * Hq) <= Y * Wq * (1 + (1 # 4503599627370496)))
      by (clear - Ah HY1; nra).
    destruct (Z_le_gt_dec (x * H) (y * W)) as [Hle | Hgt]; [exact Hle | exfalso].
    assert (Hgt' : inject_Z (y * W) + 1 <= inject_Z (x * H)).
    { change 1 with (inject_Z 1). rewrite <- inject_Z_plus, <- Zle_Qle. lia. }
    rewrite EP, ER in Hgt'.
    set (P := Y * Wq) in *. set (R := X * Hq) in *.
    set (M1 := A * (Y * Hq)) in *. set (M2 := B * (Y * Hq)) in *.
    clearbody P R M1 M2. clear - S1 S2 S3 Hgt' HP48. lra. }
  (* the quotient, scaled by the width, against [x * H] *)
  assert (HV0' : 0 <= V) by (clear - HV0; lra).
  assert (U1 : V * Wq * (1 - (1 # 4503599627370496)) <= V * (A * Hq))
    by (clear - Al HV0'; nra).
  assert (U2 : V * (A * Hq) <= V * Wq * (1 + (1 # 4503599627370496)))
    by (clear - Ah HV0'; nra).
  assert (U3 : X * Hq * (1 - (1 # 4503599627370496)) <= V * (A * Hq))
    by (clear - VAl HH1; nra).
  assert (U4 : V * (A * Hq) <= X * Hq * (1 + (1 # 4503599627370496)))
    by (clear - VAh HH1; nra).
  assert (Tl : inject_Z (x * H) - (1 # 4) < V * Wq).
  { rewrite ER. set (R := X * Hq) in *. set (M := V * (A * Hq)) in *.
    set (T := V * Wq) in *. clearbody R M T. clear - U2 U3 HR48. lra. }
  assert (Th : V * Wq < inject_Z (x * H) + (1 # 4)).
  { rewrite ER. set (R := X * Hq) in *. set (M := V * (A * Hq)) in *.
    set (T := V * Wq) in *. clearbody R M T. clear - U1 U4 HR48. lra. }
  destruct (neighbours lo hi W (x * H) V ltac:(lia) F1 F2 C2 C1 Tl Th)
    as [[I1 I1'] [I2 I2']].
  assert (HxH : (1 <= x * H)%Z) by (clear - HH Hx; nia).
  assert (Hloy : (lo <= y)%Z) by (clear - I1 Hfit HW; nia).
  assert (Hhiy : (hi <= y + 1)%Z) by (clear - I2 Hfit HW; nia).
  (* the keys of the two candidates *)
  destruct (height_key x lo (S754_finite false ma ea) Hx ltac:(lia))
    as (klo & Eklo & Klo0 & Klo1).
  destruct (height_key x hi (S754_finite false ma ea) Hx ltac:(lia))
    as (khi & Ekhi & Khi0 & Khi1).
  exists (S754_finite false mx ex), v. eexists.
  split; [exact Hofx | split; [exact Hdiv | ]].
  unfold round_aspect.
  rewrite Hfl, Hce. cbn [bind]. rewrite Eklo, Ekhi. cbn [bind].
  split; [reflexivity | ].
  destruct (lt khi klo) eqn:Hlt.
  - (* the ceiling is taken: it is not above the box *)
    assert (Hhi : (hi <= y)%Z).
    { destruct (Z_le_gt_dec hi y) as [Hle | Hgt]; [exact Hle | exfalso].
      assert (Ehi : hi = (y + 1)%Z) by lia.
      assert (Elo : lo = y) by lia.
      subst hi lo.
      destruct (Klo1 ltac:(lia)) as (qlo & Hqlo & ->).
      destruct (Khi1 ltac:(lia)) as (qhi & Hqhi & ->).
      rewrite Hb in Hqlo. injection Hqlo as <-.
      destruct (int_truediv_normal x (y + 1) ltac:(lia) ltac:(lia))
        as (c & Hc & Nc & Cl & Ch).
      rewrite Hc in Hqhi. injection Hqhi as <-.
      destruct (normal53_value c Nc) as (mc & ec & -> & Hmc & _).
      change (SF2Q (S754_finite false mc ec)) with (F2Q (Z.pos mc) ec) in *.
      rewrite (keep_floor_height x y ma mb mc ea eb ec) in Hlt;
        try assumption; try discriminate.
      rewrite inject_Z_plus in C2. change (inject_Z 1) with 1 in C2.
      fold Y in C2. unfold roundoff. fold A X Y.
      clearbody V. clear - C2 VAh HA0. nra. }
    clear - I2 I2' Hhi Hlo0 Hlohi Hy HxH Hfit.
    destruct (Z.eq_dec hi 0) as [-> | Hnz]; [lia | ].
    rewrite Z.max_l by lia. lia.
  - clear - I1 I1' Hloy Hlo0 Hy HxH Hfit.
    destruct (Z.eq_dec lo 0) as [-> | Hnz]; [lia | ].
    rewrite Z.max_l by lia. lia.
Qed.

(** The size the fit settles on, for an image and a box with all sides
    below [2^24]: the image itself when it is within the box; else one
    side is the side of the box, the other one is within one pixel of the
    proportional value, and both are at least one pixel, within the box
    and within the image. *)
Lemma thumbnail_size_fit (W H bw bh : Z) :
  (1 <= W < 2 ^ 24)%Z -> (1 <= H < 2 ^ 24)%Z ->
  (1 <= bw < 2 ^ 24)%Z -> (1 <= bh < 2 ^ 24)%Z ->
  exists w h,
    thumbnail_size (W, H) (bw, bh) = Ok (w, h)
    /\ (1 <= w <= bw)%Z /\ (1 <= h <= bh)%Z
    /\ (w <= W)%Z /\ (h <= H)%Z
    /\ ((W <= bw)%Z -> (H <= bh)%Z -> w = W /\ h = H)
    /\ ((bw < W)%Z \/ (bh < H)%Z ->
        (h = bh /\ (- H <= w * H - bh * W <= H)%Z)
        \/ (w = bw /\ (- W <= h * W - bw * H <= W)%Z)).
Proof.
  intros HW HH Hbw Hbh. unfold thumbnail_size, preserve_aspect_ratio.
  destruct ((W <=? bw)%Z && (H <=? bh)%Z) eqn:Efit.
  - apply andb_true_iff in Efit. destruct Efit as [E1 E2].
    apply Z.leb_le in E1. apply Z.leb_le in E2.
    exists W, H. cbn [bind]. repeat split; try lia.
  - assert (Hover : (bw < W \/ bh < H)%Z).
    { apply andb_false_iff in Efit. destruct Efit as [E | E];
        apply Z.leb_gt in E; lia. }
    destruct (int_truediv_normal W H ltac:(lia) ltac:(lia)) as (a & Ha & Na & Al & Ah).
    destruct (int_truediv_normal bw bh ltac:(lia) ltac:(lia))
      as (b & Hb & Nb & Bl & Bh).
    rewrite Ha, Hb. cbn [bind].
    pose proof (ge_normal b a Nb Na) as Hge.
    destruct (ge b a).
    + destruct (width_branch W H bw bh a b HW HH Hbw Hbh Hb Na Nb Al Ah Bl Bh Hge)
        as (fy & w & Ey & Ew & Bw & R1 & R2 & Hfit).
      rewrite Ey. cbn [bind]. rewrite Ew. cbn [bind]. exists w, bh.
      assert (HbhH : (bh < H)%Z) by (clear - Hover Hfit HW HH Hbw Hbh; nia).
      assert (HwW : (w <= W)%Z) by (clear - R1 HbhH HW HH Hbh Bw; nia).
      split; [reflexivity | ].
      repeat split; lia.
    + destruct (height_branch W H bw bh a b HW HH Hbw Hbh Hb Na Nb Al Ah Bl Bh Hge)
        as (fx & number & h & Ex & En & Eh & Bh' & R1 & R2 & Hfit).
      rewrite Ex. cbn [bind]. rewrite En. cbn [bind]. rewrite Eh. cbn [bind].
      exists bw, h.
      assert (HbwW : (bw < W)%Z) by (clear - Hover Hfit HW HH Hbw Hbh; nia).
      assert (HhH : (h <= H)%Z) by (clear - R1 HbwW HW HH Hbw Bh'; nia).
      split; [reflexivity | ].
      repeat split; lia.
Qed.

End FitProof.

(** ** The scaling branches against exact arithmetic *)

Import FloatValue ScalingExamples.

(** C6, as the arithmetic of line 56 and line 57 has it. On an accepted
    configuration with a finite percent [p], and for an image whose sides
    times [p] stay below [2^53], the percent branch is taken and each
    target side is the floor of the exact [side * p / 100]. The one
    exception is a value that the two roundings of the double-precision
    product and quotient lift to the next integer: the result is then
    that integer, and it is at most the exact value times [(1 + 2^-52)^2],
    so the exact value is below it by less than one part in [2^51]. *)
Theorem percent_scaling (args : Args) (filename : string)
    (mp : positive) (ep : Z) (W H : Z) :
  validate args = None ->
  percent args = Some (S754_finite false mp ep) ->
  valid_binary prec emax (S754_finite false mp ep) = true ->
  1 <= W < 2 ^ 53 -> 1 <= H < 2 ^ 53 ->
  (inject_Z W * SF2Q (S754_finite false mp ep) < 2 ^ 53)%Q ->
  (inject_Z H * SF2Q (S754_finite false mp ep) < 2 ^ 53)%Q ->
  select_mode (make_task args filename) = Percent
  /\ exists w h,
       target_size (make_task args filename) Percent (W, H) = Ok (w, h)
       /\ (w = Qfloor (exact_percent W (S754_finite false mp ep))
           \/ (w = Qfloor (exact_percent W (S754_finite false mp ep)) + 1
               /\ (inject_Z w <= exact_percent W (S754_finite false mp ep)
                                 * (1 + roundoff) * (1 + roundoff))%Q))
       /\ (h = Qfloor (exact_percent H (S754_finite false mp ep))
           \/ (h = Qfloor (exact_percent H (S754_finite false mp ep)) + 1
               /\ (inject_Z h <= exact_percent H (S754_finite false mp ep)
                                 * (1 + roundoff) * (1 + roundoff))%Q)).
Proof.
  intros Hok Hp Hv HW HH HWp HHp.
  split.
  - unfold select_mode. simpl. rewrite Hp. reflexivity.
  - destruct (PercentTight.scale_percent_tight W mp ep Hv HW HWp) as (w & Ew & Bw).
    destruct (PercentTight.scale_percent_tight H mp ep Hv HH HHp) as (h & Eh & Bh).
    exists w, h. split; [ | split; assumption].
    cbn [target_size make_task t_percent]. rewrite Hp. cbn [need_float bind].
    rewrite Ew. cbn [bind]. rewrite Eh. reflexivity.
Qed.

Lemma percent_scaling_witness :
  exists w h,
    target_size (make_task (percent_args seventy_five) "a.jpg") Percent (800, 600)
    = Ok (w, h)
    /\ (w = Qfloor (exact_percent 800 seventy_five)
        \/ (w = Qfloor (exact_percent 800 seventy_five) + 1
            /\ (inject_Z w <= exact_percent 800 seventy_five
                              * (1 + roundoff) * (1 + roundoff))%Q))
    /\ (h = Qfloor (exact_percent 600 seventy_five)
        \/ (h = Qfloor (exact_percent 600 seventy_five) + 1
            /\ (inject_Z h <= exact_percent 600 seventy_five
                              * (1 + roundoff) * (1 + roundoff))%Q)).
Proof.
  apply (percent_scaling (percent_args seventy_five) "a.jpg"
           5277655813324800 (-46) 800 600);
    try reflexivity; lia.
Defined.

(** The scenario of the module docstring, [--percent 75]: an 800 by 600
    image goes to 600 by 450. *)
Example percent_75_scenario :
  target_size (make_task (percent_args seventy_five) "a.jpg") Percent (800, 600)
  = Ok (600, 450).
Proof. reflexivity. Qed.

(** C6 as stated fails. With [--percent] set to the double just below
    2.4, which passes validation, a side of 125 has the exact scaled value
    2.99999999999999988..., of floor 2, and the code computes 3. *)
Lemma percent_rounds_up :
  validate (percent_args just_below_2_4) = None
  /\ (SF2Q just_below_2_4 < 24 # 10)%Q
  /\ target_size (make_task (percent_args just_below_2_4) "a.jpg") Percent (125, 250)
     = Ok (3, 6)
  /\ Qfloor (exact_percent 125 just_below_2_4) = 2
  /\ Qfloor (exact_percent 250 just_below_2_4) = 5.
Proof. repeat split. Qed.

(** C7, as the arithmetic of lines 67-68 and 73-74 has it. On an accepted
    configuration with one side given, and for an image and a request all
    below [2^24], the matching single-dimension branch is taken, the given
    side is kept, and the other one is the exact proportional value
    truncated, [n * H / W] for a width [n] and [n * W / H] for a height
    [n], or one less than it, the latter only when the division is exact:
    the ratio is rounded to a double before it is multiplied. *)
Theorem single_dimension_scaling (args : Args) (filename : string) (W H n : Z) :
  validate args = None ->
  percent args = None ->
  1 <= W < 2 ^ 24 -> 1 <= H < 2 ^ 24 -> n < 2 ^ 24 ->
  (width args = Some n -> height args = None ->
   select_mode (make_task args filename) = WidthOnly
   /\ exists h,
        target_size (make_task args filename) WidthOnly (W, H) = Ok (n, h)
        /\ (h = n * H / W \/ (h = n * H / W - 1 /\ (n * H) mod W = 0)))
  /\ (height args = Some n -> width args = None ->
      select_mode (make_task args filename) = HeightOnly
      /\ exists w,
           target_size (make_task args filename) HeightOnly (W, H) = Ok (w, n)
           /\ (w = n * W / H \/ (w = n * W / H - 1 /\ (n * W) mod H = 0))).
Proof.
  intros Hok Hp HW HH Hn.
  pose proof Hok as Hval. apply validate_None in Hval.
  destruct Hval as (_ & _ & _ & Hflag & Hdim).
  unfold bad_dimension in Hdim. apply orb_false_iff in Hdim. destruct Hdim as [Hdw Hdh].
  split; intros Hgiven Hmissing.
  - rewrite Hgiven in Hdw. apply Z.leb_gt in Hdw.
    rewrite Hgiven, Hmissing in Hflag. cbn [is_none orb] in Hflag.
    rewrite andb_true_r in Hflag. apply orb_false_iff in Hflag. destruct Hflag as [Hx Ha].
    split.
    + unfold select_mode. simpl. rewrite Hp, Hx, Hgiven, Hmissing. simpl.
      destruct (Z.eqb_spec n 0); [lia | reflexivity].
    + destruct (RatioProof.scale_ratio_bounds n H W ltac:(lia) HH HW) as (h & Eh & Bh).
      exists h. split; [ | exact Bh].
      cbn [target_size make_task t_width]. rewrite Hgiven. cbn [need_int bind].
      rewrite Eh. reflexivity.
  - rewrite Hgiven in Hdh. apply Z.leb_gt in Hdh.
    rewrite Hgiven, Hmissing in Hflag. cbn [is_none orb] in Hflag.
    rewrite andb_true_r in Hflag. apply orb_false_iff in Hflag. destruct Hflag as [Hx Ha].
    split.
    + unfold select_mode. simpl. rewrite Hp, Hx, Hgiven, Hmissing. simpl.
      destruct (Z.eqb_spec n 0); [lia | reflexivity].
    + destruct (RatioProof.scale_ratio_bounds n W H ltac:(lia) HW HH) as (w & Ew & Bw).
      exists w. split; [ | exact Bw].
      cbn [target_size make_task t_height]. rewrite Hgiven. cbn [need_int bind].
      rewrite Ew. reflexivity.
Qed.

Lemma single_dimension_scaling_witness :
  (exists h,
     target_size (make_task (width_args 400) "a.jpg") WidthOnly (800, 600) = Ok (400, h)
     /\ (h = 400 * 600 / 800 \/ (h = 400 * 600 / 800 - 1 /\ (400 * 600) mod 800 = 0)))
  /\ (exists w,
        target_size (make_task (height_args 200) "b.jpg") HeightOnly (1000, 500)
        = Ok (w, 200)
        /\ (w = 200 * 1000 / 500 \/ (w = 200 * 1000 / 500 - 1 /\ (200 * 1000) mod 500 = 0))).
Proof.
  split.
  - apply (single_dimension_scaling (width_args 400) "a.jpg" 800 600 400);
      try reflexivity; lia.
  - apply (single_dimension_scaling (height_args 200) "b.jpg" 1000 500 200);
      try reflexivity; lia.
Defined.

(** The scenario of section 8: [--width 400] sends an 800 by 600 image to
    400 by 300 and a 1000 by 500 image to 400 by 200. *)
Example width_400_scenario :
  target_size (make_task (width_args 400) "a.jpg") WidthOnly (800, 600) = Ok (400, 300)
  /\ target_size (make_task (width_args 400) "b.jpg") WidthOnly (1000, 500)
     = Ok (400, 200).
Proof. split; reflexivity. Qed.

(** C7 as stated fails. [--width 400] on a 500 by 570 image: the exact
    height is 400 * 570 / 500 = 456, and the code computes 455, because
    570 / 500 rounds to a double just below 1.14. *)
Lemma width_only_one_below :
  validate (width_args 400) = None
  /\ select_mode (make_task (width_args 400) "a.jpg") = WidthOnly
  /\ target_size (make_task (width_args 400) "a.jpg") WidthOnly (500, 570)
     = Ok (400, 455)
  /\ 400 * 570 / 500 = 456
  /\ (400 * 570) mod 500 = 0.
Proof. repeat split. Qed.
(** ** The aspect branch *)

Import Fit.

(** The fit on the scenario of section 8 and on its transpose, on a very
    flat image, and on a box of the ratio of the image whose product
    [y * aspect] rounds to just above 7. *)
Example fit_scenarios :
  thumbnail_size (800, 600) (1000, 500) = Ok (667, 500)
  /\ thumbnail_size (600, 800) (500, 1000) = Ok (500, 667)
  /\ thumbnail_size (1000, 1) (100, 100) = Ok (100, 1)
  /\ thumbnail_size (700, 2500) (7, 25) = Ok (7, 25).
Proof. repeat split. Qed.

(** C2, as the fit does it. On an accepted [--aspect] configuration the
    aspect branch is taken and hands the requested box to the fit. For an
    image and a box with all sides below [2^24] the fit returns a size; it
    is within the box on both axes, at least one pixel on both, and never
    larger than the image. An image already within the box is left as it
    is, whatever room remains. An image over the box on some side gets one
    side equal to its bound, and the other one within one pixel of the
    proportional value, which is how far the ratio of the sides is kept.
    With that fit as the library's [thumbnail], the size reported and
    saved by [resize_image] is that result. *)
Theorem aspect_fit L (args : Args) (filename : string) (bw bh W H : Z) :
  validate args = None ->
  percent args = None -> aspect args = true ->
  width args = Some bw -> height args = Some bh ->
  0 < W < 2 ^ 24 -> 0 < H < 2 ^ 24 -> bw < 2 ^ 24 -> bh < 2 ^ 24 ->
  let t := make_task args filename in
  select_mode t = Aspect
  /\ target_size t Aspect (W, H) = Ok (bw, bh)
  /\ exists w h,
       thumbnail_size (W, H) (bw, bh) = Ok (w, h)
       /\ 1 <= w <= bw /\ 1 <= h <= bh
       /\ w <= W /\ h <= H
       /\ (W <= bw -> H <= bh -> w = W /\ h = H)
       /\ (bw < W \/ bh < H ->
           (h = bh /\ - H <= w * H - bh * W <= H)
           \/ (w = bw /\ - W <= h * W - bw * H <= W))
       /\ (lib_open L (input_path t) = Ok (Image "RGB" (W, H)) ->
           lib_save L (Image "RGB" (w, h)) (output_path t) = Ok tt ->
           resize_image (with_spec_thumbnail L) t
           = (success_message t (W, H) (w, h),
              [(output_path t, Image "RGB" (w, h))])).
Proof.
  intros Hok Hp Ha Hw Hh HW HH Hbw24 Hbh24 t.
  assert (Hbox : 0 < bw /\ 0 < bh).
  { apply validate_None in Hok. destruct Hok as (_ & _ & _ & _ & Hd).
    unfold bad_dimension in Hd. rewrite Hw, Hh in Hd.
    apply orb_false_iff in Hd. destruct Hd as [H1 H2].
    apply Z.leb_gt in H1. apply Z.leb_gt in H2. lia. }
  destruct Hbox as [Hbw Hbh].
  assert (Hx : exact args = false).
  { apply validate_None in Hok. destruct Hok as (_ & _ & Hb & _ & _).
    unfold both_flags in Hb. rewrite Ha in Hb.
    destruct (exact args); [discriminate | reflexivity]. }
  assert (Hm : select_mode t = Aspect).
  { destruct (validated_truthiness args Hok) as (_ & Htw & Hth).
    unfold select_mode, t. simpl.
    rewrite Hp, Hx, Ha, Htw, Hth, Hw, Hh. reflexivity. }
  assert (Ht : target_size t Aspect (W, H) = Ok (bw, bh)).
  { unfold t. simpl. rewrite Hw, Hh. reflexivity. }
  split; [exact Hm | split; [exact Ht | ]].
  destruct (FitProof.thumbnail_size_fit W H bw bh ltac:(lia) ltac:(lia) ltac:(lia)
              ltac:(lia)) as (w & h & Es & P1 & P2 & P3 & P4 & P5 & P6).
  exists w, h.
  repeat (split; [assumption | ]).
  intros Hopen Hsave.
  unfold resize_image, resize_body.
  cbn [with_spec_thumbnail lib_open lib_thumbnail lib_save].
  rewrite Hopen. cbn [bind img_mode].
  change (negb (String.eqb "RGB" "RGB")) with false.
  cbn [bind img_size]. rewrite Hm, Ht. cbn [bind].
  unfold spec_thumbnail. cbn [img_size img_mode]. rewrite Es. cbn [bind img_size].
  rewrite Hsave. reflexivity.
Qed.

Lemma aspect_fit_witness :
  thumbnail_size (800, 600) (1000, 500) = Ok (667, 500)
  /\ resize_image (with_spec_thumbnail (demo_lib (800, 600)))
       (make_task (aspect_args 1000 500) "a.jpg")
     = ("✓ Resized: a.jpg (800x600 → 667x500)",
        [("out/a.jpg", Image "RGB" (667, 500))]).
Proof.
  assert (H := aspect_fit (demo_lib (800, 600)) (aspect_args 1000 500) "a.jpg"
                 1000 500 800 600 eq_refl eq_refl eq_refl eq_refl eq_refl
                 ltac:(lia) ltac:(lia) ltac:(lia) ltac:(lia)).
  cbv zeta in H.
  destruct H as (_ & _ & w & h & Es & _ & _ & _ & _ & _ & _ & Hrun).
  assert (E : thumbnail_size (800, 600) (1000, 500) = Ok (667, 500)) by reflexivity.
  rewrite E in Es. injection Es as <- <-.
  split; [exact E | ].
  apply Hrun; reflexivity.
Defined.

(** C2 as stated fails, twice. A 100 by 100 image in a 1000 by 500 box is
    left at 100 by 100, and neither side is at its bound. An 800 by 600
    image in the same box comes out 667 by 500: the ratio 800 : 600 is not
    that of any whole width over 500, and is kept only to the pixel. *)
Lemma aspect_small_image_unchanged :
  validate (aspect_args 1000 500) = None
  /\ select_mode (make_task (aspect_args 1000 500) "a.jpg") = Aspect
  /\ resize_image (with_spec_thumbnail (demo_lib (100, 100)))
       (make_task (aspect_args 1000 500) "a.jpg")
     = ("✓ Resized: a.jpg (100x100 → 100x100)",
        [("out/a.jpg", Image "RGB" (100, 100))])
  /\ thumbnail_size (100, 100) (1000, 500) = Ok (100, 100)
  /\ ~ (exists w h, thumbnail_size (100, 100) (1000, 500) = Ok (w, h)
                    /\ (w = 1000 \/ h = 500))
  /\ resize_image (with_spec_thumbnail (demo_lib (800, 600)))
       (make_task (aspect_args 1000 500) "a.jpg")
     = ("✓ Resized: a.jpg (800x600 → 667x500)",
        [("out/a.jpg", Image "RGB" (667, 500))])
  /\ 667 * 600 <> 500 * 800
  /\ (forall w, w * 600 <> 500 * 800).
Proof.
  repeat split; try reflexivity; try discriminate.
  - intros (w & h & E & Hor).
    change (thumbnail_size (100, 100) (1000, 500)) with (@Ok (Z * Z) (100, 100)) in E.
    injection E as <- <-. lia.
  - intros w Hw. lia.
Qed.

(** ** Values that need no rounding *)

Module ExactRounding.
Import PyFloat FloatValue Rounding RoundAux RoundQ Ops Convert.

Lemma shr_1_even (k : Z) :
  0 <= k ->
  shr_1 (Build_shr_record (k * 2) false false) = Build_shr_record k false false.
Proof.
  intros Hk. rewrite Z.mul_comm. destruct k as [ | p | p]; try lia; reflexivity.
Qed.

(** Shifting out bits that are all zero leaves nothing behind. *)
Lemma iter_shr_1_exact (p : positive) (k : Z) :
  0 <= k ->
  iter_pos shr_1 p (Build_shr_record (k * 2 ^ Z.pos p) false false)
  = Build_shr_record k false false.
Proof.
  revert k. induction p as [p IH | p IH | ]; intros k Hk; cbn [iter_pos].
  - assert (Hp : 0 < 2 ^ Z.pos p) by (apply Z.pow_pos_nonneg; lia).
    replace (k * 2 ^ Z.pos p~1) with ((k * 2 ^ Z.pos p) * 2 ^ Z.pos p * 2).
    + rewrite shr_1_even by nia. rewrite IH by nia. now apply IH.
    + change (Z.pos p~1) with (2 * Z.pos p + 1).
      replace (2 * Z.pos p + 1) with (Z.pos p + Z.pos p + 1) by lia.
      rewrite !Z.pow_add_r by lia. change (2 ^ 1) with 2. ring.
  - assert (Hp : 0 < 2 ^ Z.pos p) by (apply Z.pow_pos_nonneg; lia).
    replace (k * 2 ^ Z.pos p~0) with ((k * 2 ^ Z.pos p) * 2 ^ Z.pos p).
    + rewrite IH by nia. now apply IH.
    + change (Z.pos p~0) with (2 * Z.pos p).
      replace (2 * Z.pos p) with (Z.pos p + Z.pos p) by lia.
      rewrite !Z.pow_add_r by lia. ring.
  - change (2 ^ 1) with 2. now apply shr_1_even.
Qed.

(** [binary_round_aux] on an exactly known value whose low bits, below
    the exponent it settles on, are zero: the value is kept. *)
Lemma binary_round_aux_exact (k ex e' : Z) :
  0 <= k -> ex <= e' ->
  e' = Z.max ex (fexp prec emax (Zdigits2 (k * 2 ^ (e' - ex)) + ex)) ->
  binary_round_aux prec emax false (k * 2 ^ (e' - ex)) ex loc_Exact = pack k e'.
Proof.
  intros Hk Hle He'.
  set (mx := k * 2 ^ (e' - ex)) in *.
  assert (Hp : 0 < 2 ^ (e' - ex)) by (apply Z.pow_pos_nonneg; lia).
  assert (Hmx : 0 <= mx) by (unfold mx; nia).
  pose proof (kept_mantissa_bound mx ex Hmx) as H53. rewrite <- He' in H53.
  unfold mx in H53 at 1. rewrite Z.div_mul in H53 by lia.
  pose proof (fexp_lower (Zdigits2 mx + ex)) as [Hemin _].
  assert (Hfirst : shr_fexp prec emax mx ex loc_Exact
                   = (Build_shr_record k false false, e')).
  { unfold shr_fexp. cbn [shr_record_of_loc].
    destruct (fexp prec emax (Zdigits2 mx + ex) - ex) as [ | p | p] eqn:En;
      cbn [shr].
    - assert (E0 : e' - ex = 0) by lia. unfold mx.
      rewrite E0, Z.pow_0_r, Z.mul_1_r. f_equal. lia.
    - assert (Ep : e' - ex = Z.pos p) by lia.
      unfold mx. rewrite Ep, iter_shr_1_exact by assumption.
      f_equal. lia.
    - assert (E0 : e' - ex = 0) by lia. unfold mx.
      rewrite E0, Z.pow_0_r, Z.mul_1_r. f_equal. lia. }
  unfold binary_round_aux. rewrite Hfirst.
  cbn [shr_m loc_of_shr_record round_nearest_even].
  apply pack_small; lia.
Qed.

Local Open Scope Q_scope.

Lemma F2Q_inj (a b e : Z) : F2Q a e == F2Q b e -> a = b.
Proof.
  intros H. destruct (Z.lt_trichotomy a b) as [Hlt | [Heq | Hgt]]; [ | exact Heq | ].
  - apply (F2Q_lt a b e) in Hlt. rewrite H in Hlt. now apply Qlt_irrefl in Hlt.
  - apply (F2Q_lt b a e) in Hgt. rewrite H in Hgt. now apply Qlt_irrefl in Hgt.
Qed.

(** A value that fits in 53 bits above the smallest exponent is its own
    rounding. *)
Lemma round_representable (mx ex c a : Z) :
  (0 <= mx)%Z -> F2Q mx ex == F2Q c a ->
  (0 <= c < 2 ^ 53)%Z -> (-1074 <= a)%Z ->
  (ex <= 970)%Z -> (Zdigits2 mx + ex <= 1023)%Z ->
  let f := binary_round_aux prec emax false mx ex loc_Exact in
  nonneg_finite f /\ SF2Q f == F2Q c a.
Proof.
  intros Hmx Hval Hc Ha Hex Hd f.
  set (e' := Z.max ex (fexp prec emax (Zdigits2 mx + ex))).
  assert (He970 : (e' <= 970)%Z) by (unfold e'; rewrite fexp_eq; lia).
  assert (Hle : (ex <= e')%Z) by (unfold e'; lia).
  assert (Hk : exists k, (0 <= k)%Z /\ mx = (k * 2 ^ (e' - ex))%Z).
  { destruct (Z.eq_dec e' ex) as [E | Hne].
    - exists mx. split; [exact Hmx | ]. rewrite E, Z.sub_diag. lia.
    - destruct (Z.eq_dec mx 0) as [-> | Hnz]; [exists 0%Z; split; lia | ].
      assert (Hc0 : (0 < c)%Z).
      { destruct (Z.eq_dec c 0) as [-> | ]; [ | lia]. exfalso.
        pose proof (F2Q_pos mx ex ltac:(lia)) as Hpos. rewrite Hval in Hpos.
        unfold F2Q in Hpos. rewrite Qmult_0_l in Hpos. now apply Qlt_irrefl in Hpos. }
      assert (Hdc : (Zdigits2 c <= 53)%Z) by (apply Zdigits2_le; lia).
      assert (Hdx : (Zdigits2 mx + ex <= Zdigits2 c + a)%Z).
      { apply digits_exp_le; [lia | ]. rewrite Hval.
        pose proof (Zdigits2_bounds c Hc0) as [_ Hhi].
        pose proof (Zdigits2_pos c Hc0).
        rewrite <- F2Q_pow2 by lia. now apply F2Q_lt. }
      assert (Hea : (e' <= a)%Z) by (unfold e' in *; rewrite fexp_eq in *; lia).
      assert (Emx : mx = (c * 2 ^ (a - ex))%Z).
      { apply (F2Q_inj _ _ ex). rewrite Hval, <- F2Q_shift by lia.
        replace (ex + (a - ex))%Z with a by lia. reflexivity. }
      exists (c * 2 ^ (a - e'))%Z. split.
      + apply Z.mul_nonneg_nonneg; [lia | apply Z.pow_nonneg; lia].
      + rewrite Emx, <- Z.mul_assoc, <- Z.pow_add_r by lia.
        f_equal. f_equal. lia. }
  destruct Hk as (k & Hk0 & Emx).
  assert (Hp : (0 < 2 ^ (e' - ex))%Z) by (apply Z.pow_pos_nonneg; lia).
  pose proof (kept_mantissa_bound mx ex Hmx) as H53. fold e' in H53.
  rewrite Emx, Z.div_mul in H53 by lia.
  assert (Hf : f = pack k e').
  { unfold f. rewrite Emx. apply binary_round_aux_exact; [exact Hk0 | exact Hle | ].
    rewrite <- Emx. reflexivity. }
  destruct (SF2Q_pack k e' ltac:(lia) He970) as [Hfin Hv].
  rewrite Hf. split; [exact Hfin | ].
  rewrite Hv, <- Hval, Emx, <- F2Q_shift by lia.
  replace (ex + (e' - ex))%Z with e' by lia. reflexivity.
Qed.

(** A division that comes out even is handed to the rounding as exact. *)
Lemma SFdiv_core_exact (m1 m2 : positive) (e1 e2 j : Z) :
  let e' := Z.min (fexp prec emax (Zdigits2 (Z.pos m1) + e1 - (Zdigits2 (Z.pos m2) + e2)))
                  (e1 - e2) in
  (Z.pos m1 * 2 ^ (e1 - e2 - e') = Z.pos m2 * j)%Z ->
  SFdiv_core_binary prec emax (Z.pos m1) e1 (Z.pos m2) e2 = (j, e', loc_Exact).
Proof.
  intros e' Hj. unfold SFdiv_core_binary. fold e'.
  set (s := (e1 - e2 - e')%Z) in *.
  assert (Hs : (0 <= s)%Z) by (unfold s, e'; lia).
  set (m' := match s with
             | Z0 => Z.pos m1
             | Z.pos _ => Z.shiftl (Z.pos m1) s
             | Z.neg _ => 0%Z
             end).
  assert (Hm' : m' = (Z.pos m1 * 2 ^ s)%Z).
  { unfold m'. destruct s as [ | p | p]; [lia | | lia].
    apply Z.shiftl_mul_pow2. lia. }
  pose proof (Z_div_mod m' (Z.pos m2) ltac:(lia)) as Hdm.
  destruct (Z.div_eucl m' (Z.pos m2)) as [q r]. destruct Hdm as [Eq Hr].
  rewrite Hm', Hj in Eq.
  assert (Hq : q = j) by nia. assert (Hr0 : r = 0%Z) by nia. subst q r.
  f_equal. unfold new_location, new_location_even, new_location_odd.
  destruct (Z.even (Z.pos m2)); reflexivity.
Qed.

(** [int(n * percent / 100)] when [n * percent / 100] is a whole number. *)
Lemma scale_percent_whole (n : Z) (mp : positive) (ep k : Z) :
  valid_binary prec emax (S754_finite false mp ep) = true ->
  (1 <= n < 2 ^ 53)%Z ->
  inject_Z n * SF2Q (S754_finite false mp ep) == 100 * inject_Z k ->
  (100 * k < 2 ^ 53)%Z ->
  Resize.scale_percent n (S754_finite false mp ep) = Ok k.
Proof.
  intros Hv Hn Hwhole Hk53.
  destruct (of_int_exact n Hn) as (mn & en & Hof & Hnv & Hmn & Hen).
  assert (Hpv : SF2Q (S754_finite false mp ep) == F2Q (Z.pos mp) ep) by reflexivity.
  rewrite Hpv in Hwhole.
  assert (Hp0 : 0 < F2Q (Z.pos mp) ep) by (apply F2Q_pos; lia).
  assert (Hn1 : 1 <= inject_Z n)
    by (change (inject_Z 1 <= inject_Z n); rewrite <- Zle_Qle; lia).
  assert (H100k : 100 * inject_Z k == F2Q (100 * k) 0).
  { unfold F2Q. rewrite inject_Z_mult. change (2 ^ 0) with 1.
    change (inject_Z 100) with 100. ring. }
  assert (Hk53q : F2Q (100 * k) 0 < 2 ^ 53).
  { unfold F2Q. change (2 ^ 0) with 1. rewrite Qmult_1_r.
    rewrite (pow2_Z 53) by lia. now rewrite <- Zlt_Qlt. }
  assert (Hk0 : (0 < k)%Z).
  { assert (H : inject_Z 0 < inject_Z k)
      by (change (inject_Z 0) with 0; clear - Hwhole Hp0 Hn1; nra).
    now rewrite <- Zlt_Qlt in H. }
  assert (Hep : (ep <= 0)%Z).
  { apply (PercentProof.valid_exponent mp ep Hv).
    rewrite <- H100k in Hk53q. clear - Hk53q Hwhole Hp0 Hn1. nra. }
  set (X := F2Q (Z.pos mn * Z.pos mp) (en + ep)).
  assert (HX : X == F2Q (100 * k) 0).
  { unfold X. rewrite <- F2Q_mul, Hnv, <- H100k. exact Hwhole. }
  assert (HdX : (Zdigits2 (Z.pos mn * Z.pos mp) + (en + ep) <= 53)%Z).
  { apply digits_exp_le; [lia | ]. fold X. now rewrite HX. }
  unfold Resize.scale_percent. rewrite Hof, of_int_100. cbn [bind div].
  rewrite mul_unfold.
  destruct (round_representable (Z.pos mn * Z.pos mp) (en + ep) (100 * k) 0
              ltac:(lia) HX ltac:(lia) ltac:(lia) ltac:(lia) ltac:(lia))
    as [Hfin1 Hv1].
  set (c1 := binary_round_aux prec emax false (Z.pos mn * Z.pos mp) (en + ep) loc_Exact)
    in *.
  destruct c1 as [s1 | s1 | | s1 m1 e1]; cbn [nonneg_finite] in Hfin1; try tauto.
  { exfalso. cbn [SF2Q] in Hv1. rewrite <- H100k in Hv1.
    assert (H : inject_Z 0 < inject_Z k) by (rewrite <- Zlt_Qlt; exact Hk0).
    change (inject_Z 0) with 0 in H. clear - Hv1 H. lra. }
  subst s1. cbn [SF2Q cond_Zopp] in Hv1. fold (F2Q (Z.pos m1) e1) in Hv1.
  assert (Hd1 : (Zdigits2 (Z.pos m1) + e1 <= 53)%Z).
  { apply digits_exp_le; [lia | ]. now rewrite Hv1. }
  set (e' := Z.min (fexp prec emax (Zdigits2 (Z.pos m1) + e1
                                     - (Zdigits2 (Z.pos 7036874417766400) + -46)))
                   (e1 - -46)).
  assert (He' : (e' <= -7)%Z).
  { unfold e'. rewrite fexp_eq.
    change (Zdigits2 (Z.pos 7036874417766400)) with 53%Z. lia. }
  assert (Hj : F2Q (k * 2 ^ (- e')) e' == F2Q k 0).
  { rewrite <- F2Q_shift by lia. replace (e' + - e')%Z with 0%Z by lia. reflexivity. }
  assert (Hcore : (Z.pos m1 * 2 ^ (e1 - -46 - e')
                   = Z.pos 7036874417766400 * (k * 2 ^ (- e')))%Z).
  { apply (F2Q_inj _ _ (e' + -46)).
    assert (EL : F2Q (Z.pos m1 * 2 ^ (e1 - -46 - e')) (e' + -46) == 100 * inject_Z k).
    { rewrite <- F2Q_shift by (unfold e'; lia).
      replace (e' + -46 + (e1 - -46 - e'))%Z with e1 by lia.
      rewrite Hv1. symmetry. exact H100k. }
    assert (ER : F2Q (Z.pos 7036874417766400 * (k * 2 ^ (- e'))) (e' + -46)
                 == 100 * inject_Z k).
    { replace (e' + -46)%Z with (-46 + e')%Z by lia.
      rewrite <- F2Q_mul, PercentProof.hundred_value, Hj.
      unfold F2Q. change (2 ^ 0) with 1. ring. }
    rewrite EL, ER. reflexivity. }
  rewrite (SFdiv_unfold _ _ _ _ _ _ _ (SFdiv_core_exact m1 7036874417766400 e1 (-46) _ Hcore)).
  fold e'.
  assert (Hjpos : (0 < k * 2 ^ (- e'))%Z).
  { apply Z.mul_pos_pos; [exact Hk0 | apply Z.pow_pos_nonneg; lia]. }
  assert (Hk53' : F2Q k 0 < 2 ^ 53).
  { unfold F2Q. change (2 ^ 0) with 1. rewrite Qmult_1_r, (pow2_Z 53) by lia.
    rewrite <- Zlt_Qlt. lia. }
  assert (Hdj : (Zdigits2 (k * 2 ^ (- e')) + e' <= 53)%Z).
  { apply digits_exp_le; [exact Hjpos | ]. now rewrite Hj. }
  destruct (round_representable (k * 2 ^ (- e')) e' k 0
              ltac:(lia) Hj ltac:(lia) ltac:(lia) ltac:(lia) ltac:(lia))
    as [Hfin2 Hv2].
  rewrite (to_int_floor _ Hfin2). f_equal.
  rewrite <- (Qfloor_Z k) at 2. apply Qfloor_comp.
  rewrite Hv2. unfold F2Q. change (2 ^ 0) with 1. ring.
Qed.

Lemma F2Q_le_mantissa (m a : Z) : (0 <= m)%Z -> (a <= 0)%Z -> F2Q m a <= inject_Z m.
Proof.
  intros Hm Ha. unfold F2Q.
  assert (H0 : 0 <= inject_Z m) by (change (inject_Z 0 <= inject_Z m); now rewrite <- Zle_Qle).
  pose proof (pow2_le_1 a Ha). pose proof (pow2_pos a). nra.
Qed.

(** [int(target * (num / den))] when [num / den] is [c / 2^j]. *)
Lemma scale_ratio_dyadic (target num den c j : Z) :
  (1 <= target < 2 ^ 24)%Z -> (1 <= num < 2 ^ 24)%Z -> (1 <= den < 2 ^ 24)%Z ->
  (0 <= j <= 24)%Z -> (den * c = num * 2 ^ j)%Z -> (target * c < 2 ^ 53)%Z ->
  Resize.scale_ratio target num den = Ok (target * num / den)%Z.
Proof.
  intros Ht Hn Hd Hj Hc Htc.
  destruct num as [ | pn | pn]; try lia. destruct den as [ | pd | pd]; try lia.
  assert (Hpj : (0 < 2 ^ j)%Z) by (apply Z.pow_pos_nonneg; lia).
  assert (Hc0 : (0 < c)%Z) by nia.
  assert (Hc48 : (c < 2 ^ 48)%Z).
  { assert (Hj24 : (2 ^ j <= 2 ^ 24)%Z) by (apply Z.pow_le_mono_r; lia).
    change (2 ^ 48)%Z with (2 ^ 24 * 2 ^ 24)%Z. nia. }
  unfold Resize.scale_ratio, int_truediv.
  cbn [Z.eqb Z.ltb Z.compare Z.abs Z.to_pos].
  set (dn := Zdigits2 (Z.pos pn)). set (dd := Zdigits2 (Z.pos pd)).
  assert (Hdn : (1 <= dn <= 24)%Z).
  { split; [pose proof (Zdigits2_pos (Z.pos pn)); unfold dn; lia | ].
    apply Zdigits2_le; lia. }
  assert (Hdd : (1 <= dd <= 24)%Z).
  { split; [pose proof (Zdigits2_pos (Z.pos pd)); unfold dd; lia | ].
    apply Zdigits2_le; lia. }
  set (e' := Z.min (fexp prec emax (dn + 0 - (dd + 0))) (0 - 0)).
  assert (He' : e' = (dn - dd - 53)%Z) by (unfold e'; rewrite fexp_eq; lia).
  set (q := (c * 2 ^ (- e' - j))%Z).
  assert (Hcore : (Z.pos pn * 2 ^ (0 - 0 - e') = Z.pos pd * q)%Z).
  { unfold q. replace (0 - 0 - e')%Z with (j + (- e' - j))%Z by lia.
    rewrite Z.pow_add_r by lia. rewrite !Z.mul_assoc, Hc. reflexivity. }
  rewrite (SFdiv_unfold _ _ _ _ _ _ _ (SFdiv_core_exact pn pd 0 0 q Hcore)).
  fold dn dd e'.
  assert (Hq0 : (0 < q)%Z).
  { unfold q. apply Z.mul_pos_pos; [exact Hc0 | apply Z.pow_pos_nonneg; lia]. }
  assert (Hqv : F2Q q e' == F2Q c (- j)).
  { unfold q. rewrite <- F2Q_shift by lia.
    replace (e' + (- e' - j))%Z with (- j)%Z by lia. reflexivity. }
  assert (Hc48q : inject_Z c < 2 ^ 48)
    by (rewrite (pow2_Z 48) by lia; now rewrite <- Zlt_Qlt).
  assert (Hrv : F2Q c (- j) < 2 ^ 48).
  { apply Qle_lt_trans with (2 := Hc48q). apply F2Q_le_mantissa; lia. }
  assert (Hdq : (Zdigits2 q + e' <= 48)%Z)
    by (apply digits_exp_le; [exact Hq0 | now rewrite Hqv]).
  destruct (round_representable q e' c (- j)
              ltac:(lia) Hqv ltac:(lia) ltac:(lia) ltac:(lia) ltac:(lia))
    as [Hfin Hv].
  set (r := binary_round_aux prec emax false q e' loc_Exact) in *.
  assert (Hcpos : 0 < F2Q c (- j)) by (apply F2Q_pos; lia).
  destruct r as [sr | sr | | sr mr er]; cbn [nonneg_finite] in Hfin; try tauto.
  { exfalso. cbn [SF2Q] in Hv. rewrite <- Hv in Hcpos. now apply Qlt_irrefl in Hcpos. }
  subst sr. cbn [SF2Q cond_Zopp] in Hv. fold (F2Q (Z.pos mr) er) in Hv.
  cbn [bind].
  destruct (of_int_exact target ltac:(lia)) as (mt & et & Hof & Htv & Hmt & Het).
  rewrite Hof. cbn [bind]. rewrite mul_unfold.
  assert (Her : (er <= 47)%Z).
  { assert (H : (Zdigits2 (Z.pos mr) + er <= 48)%Z)
      by (apply digits_exp_le; [lia | now rewrite Hv]).
    pose proof (Zdigits2_pos (Z.pos mr) ltac:(lia)). lia. }
  assert (Hyv : F2Q (Z.pos mt * Z.pos mr) (et + er) == F2Q (target * c) (- j)).
  { rewrite <- F2Q_mul, Htv, Hv. unfold F2Q. rewrite inject_Z_mult. ring. }
  assert (Hy53 : F2Q (target * c) (- j) < 2 ^ 53).
  { apply Qle_lt_trans with (inject_Z (target * c)).
    - apply F2Q_le_mantissa; nia.
    - rewrite (pow2_Z 53) by lia. now rewrite <- Zlt_Qlt. }
  assert (Hdy : (Zdigits2 (Z.pos mt * Z.pos mr) + (et + er) <= 53)%Z)
    by (apply digits_exp_le; [lia | now rewrite Hyv]).
  destruct (round_representable (Z.pos mt * Z.pos mr) (et + er) (target * c) (- j)
              ltac:(lia) Hyv ltac:(nia) ltac:(lia) ltac:(lia) ltac:(lia))
    as [Hfin3 Hv3].
  rewrite (to_int_floor _ Hfin3). f_equal.
  rewrite Zdiv_Qdiv. apply Qfloor_comp. rewrite Hv3.
  unfold F2Q. rewrite Qpower_opp, (pow2_Z j) by lia.
  assert (HQ : inject_Z (Z.pos pd) * inject_Z c == inject_Z (Z.pos pn) * inject_Z (2 ^ j))
    by (rewrite <- !inject_Z_mult, Hc; reflexivity).
  assert (HP : 0 < inject_Z (2 ^ j))
    by (change (inject_Z 0 < inject_Z (2 ^ j)); now rewrite <- Zlt_Qlt).
  assert (HD : 0 < inject_Z (Z.pos pd)) by reflexivity.
  rewrite !inject_Z_mult.
  set (T := inject_Z target) in *. set (C := inject_Z c) in *.
  set (P := inject_Z (2 ^ j)) in *. set (D := inject_Z (Z.pos pd)) in *.
  set (N := inject_Z (Z.pos pn)) in *.
  apply (Qmult_inj_r _ _ (P * D)); [clearbody P D; nra | ].
  transitivity (T * (D * C)); [field; clearbody P; lra | ].
  rewrite HQ. field. clearbody D. lra.
Qed.

End ExactRounding.

(** * Further properties of the script *)

Import Extra.

(** ** What [main] announces and what [resize_image] does *)

(** X1. On every accepted configuration the lines [main] prints about the
    mode (lines 204 to 218, which test [--exact] and [--aspect] before the
    single dimensions) are those of the branch [resize_image] takes (lines
    55 to 85, which test the single dimensions before [--aspect]). *)
Theorem announced_mode_is_applied R (args : Args) (filename : string) :
  validate args = None ->
  display_mode R args
  = mode_banner R args (select_mode (make_task args filename)).
Proof.
  intros Hok.
  destruct (validated_truthiness args Hok) as (Hp & Hw & Hh).
  apply validate_None in Hok. destruct Hok as (_ & _ & Hb & Hf & _).
  unfold both_flags in Hb.
  unfold display_mode, select_mode. cbn [make_task t_percent t_exact t_width t_height
                                           maintain_aspect].
  rewrite Hw, Hh. unfold is_some.
  destruct (truthy_float (percent args)); [reflexivity | ].
  destruct (exact args); [reflexivity | ].
  destruct (aspect args); cbn [orb andb] in Hf.
  - apply orb_false_iff in Hf. destruct Hf as [Hfw Hfh].
    rewrite Hfw, Hfh. reflexivity.
  - destruct (is_none (width args)), (is_none (height args)); reflexivity.
Qed.

Lemma announced_mode_is_applied_witness :
  display_mode (demo_runtime ["a.jpg"]) (aspect_args 1000 500)
  = [EPrint "Mode: Fit within bounds (maintain aspect ratio)";
     EPrint "Maximum: 1000x500"].
Proof.
  apply (announced_mode_is_applied (demo_runtime ["a.jpg"]) (aspect_args 1000 500) "a.jpg").
  reflexivity.
Defined.

(** X2. Once [percent] is truthy nothing else of the task matters: two
    tasks with the same paths and the same percent give the same result,
    whatever their widths, heights and flags. *)
Theorem percent_overrides_the_rest L (t t' : Task) :
  input_path t = input_path t' ->
  output_path t = output_path t' ->
  t_percent t = t_percent t' ->
  truthy_float (t_percent t) = true ->
  resize_image L t = resize_image L t'.
Proof.
  intros Hi Ho Hp Htrue.
  assert (Hm : select_mode t = Percent) by (unfold select_mode; now rewrite Htrue).
  assert (Hm' : select_mode t' = Percent)
    by (unfold select_mode; now rewrite <- Hp, Htrue).
  unfold resize_image, resize_body, failure_message, success_message.
  rewrite Hm, Hm'. unfold target_size. rewrite <- Hi, <- Ho, <- Hp. reflexivity.
Qed.

Lemma percent_overrides_the_rest_witness :
  resize_image (demo_lib (800, 600)) (make_task crowded_args "a.jpg")
  = resize_image (demo_lib (800, 600)) (percent_task (make_task crowded_args "a.jpg")).
Proof.
  apply (percent_overrides_the_rest (demo_lib (800, 600))
           (make_task crowded_args "a.jpg")
           (percent_task (make_task crowded_args "a.jpg")));
    reflexivity.
Defined.

(** ** A percent that is not a number *)

Lemma scale_percent_not_finite (n : Z) (p : float) :
  p = S754_nan \/ p = S754_infinity false ->
  exists e, scale_percent n p = Raise e.
Proof.
  intros Hp. unfold scale_percent.
  destruct (of_int n) as [f | e]; [ | cbn [bind]; eauto]. cbn [bind].
  rewrite Convert.of_int_100. cbn [bind div]. unfold mul.
  destruct Hp as [-> | ->];
    destruct f as [[ | ] | [ | ] | | [ | ] m e]; cbn; eauto.
Qed.

(** X3. [--percent nan] and [--percent inf] are floats [argparse]
    accepts, and neither is [<= 0], so the percent check lets them
    through. They are truthy, so the percent branch is taken, and [int()]
    of the scaled side raises: every task fails with its failure line and
    writes nothing, whatever the image and whatever the library does. *)
Theorem percent_not_finite L (t : Task) (p : float) :
  p = S754_nan \/ p = S754_infinity false ->
  t_percent t = Some p ->
  le0 p = false
  /\ select_mode t = Percent
  /\ exists e, resize_image L t = (failure_message t e, []).
Proof.
  intros Hp Ht.
  assert (Hle : le0 p = false) by (destruct Hp as [-> | ->]; reflexivity).
  assert (Hm : select_mode t = Percent).
  { unfold select_mode. rewrite Ht. destruct Hp as [-> | ->]; reflexivity. }
  split; [exact Hle | split; [exact Hm | ]].
  assert (Hraise : exists e, resize_body L t = Raise e).
  { unfold resize_body.
    destruct (lib_open L (input_path t)) as [img0 | e]; [ | cbn [bind]; eauto].
    cbn [bind].
    destruct (if negb (String.eqb (img_mode img0) "RGB")
              then lib_convert L img0 else Ok img0) as [img | e];
      [ | cbn [bind]; eauto].
    cbn [bind]. rewrite Hm.
    destruct (img_size img) as [ow oh]. cbn [target_size].
    rewrite Ht. cbn [need_float bind].
    destruct (scale_percent_not_finite ow p Hp) as [e ->]. cbn [bind]. eauto. }
  destruct Hraise as [e He]. exists e. unfold resize_image. now rewrite He.
Qed.

Lemma percent_not_finite_witness :
  validate (percent_args S754_nan) = None
  /\ exists e,
       resize_image (demo_lib (800, 600)) (make_task (percent_args S754_nan) "a.jpg")
       = (failure_message (make_task (percent_args S754_nan) "a.jpg") e, []).
Proof.
  split; [reflexivity | ].
  apply (percent_not_finite (demo_lib (800, 600))
           (make_task (percent_args S754_nan) "a.jpg") S754_nan);
    [left | ]; reflexivity.
Defined.

(** ** A folder without eligible files *)

(** X4. When the listing holds no file with one of the four extensions,
    an accepted run still creates the output folder, lists the input
    folder, prints that no image was found and returns: no pool is
    started and nothing is written. *)
Theorem nothing_to_resize L R (args : Args) (entries : list string) :
  path_exists R (input args) = true ->
  validate args = None ->
  makedirs R (output args) = Ok tt ->
  listdir R (input args) = Ok entries ->
  (forall f, In f entries -> has_image_suffix f = false) ->
  main L R args
  = ([EMakedirs (output args); EListdir (input args);
      EPrint "No JPG images found in input folder"], None).
Proof.
  intros Hdir Hok Hmk Hls Hnone.
  assert (Hf : filter has_image_suffix entries = []).
  { clear Hls. induction entries as [ | f rest IH]; [reflexivity | ].
    cbn [filter]. rewrite (Hnone f (or_introl eq_refl)).
    apply IH. intros g Hg. apply Hnone. now right. }
  unfold main, process, get_image_files.
  rewrite Hdir, Hok, Hmk, Hls. cbn [negb bind]. rewrite Hf. reflexivity.
Qed.

Lemma nothing_to_resize_witness :
  main (demo_lib (800, 600)) (demo_runtime ["notes.txt"; "photo.Jpg"; ".jpg"]) demo_args
  = ([EMakedirs "out"; EListdir "in"; EPrint "No JPG images found in input folder"], None).
Proof.
  apply (nothing_to_resize (demo_lib (800, 600))
           (demo_runtime ["notes.txt"; "photo.Jpg"; ".jpg"]) demo_args
           ["notes.txt"; "photo.Jpg"; ".jpg"]);
    try reflexivity.
  intros f [<- | [<- | [<- | []]]]; reflexivity.
Defined.

(** ** Where the results are written *)

Lemma string_app_inv_head (a b b' : string) :
  (a ++ b)%string = (a ++ b')%string -> b = b'.
Proof.
  induction a as [ | c a IH]; cbn; [tauto | ].
  intros H. injection H as H. now apply IH.
Qed.

Lemma startswith_no_sep (name : string) :
  contains sep name = false -> startswith sep name = false.
Proof.
  destruct name as [ | c r]; [reflexivity | ].
  cbn. intros H. apply orb_false_iff in H. tauto.
Qed.

(** [os.path.join] keeps apart the names it is given in one folder. *)
Lemma join_injective (folder name name' : string) :
  contains sep name = false -> contains sep name' = false ->
  join folder name = join folder name' -> name = name'.
Proof.
  intros Hn Hn'. unfold join.
  rewrite (startswith_no_sep name Hn), (startswith_no_sep name' Hn').
  destruct (String.eqb folder "" || endswith sep folder)%bool; intros H.
  - now apply string_app_inv_head in H.
  - apply string_app_inv_head in H. now injection H.
Qed.

Lemma resize_body_file L (t : Task) (msg : string) (file : string * image) :
  resize_body L t = Ok (msg, file) -> fst file = output_path t.
Proof.
  unfold resize_body.
  destruct (lib_open L (input_path t)) as [img0 | e];
    cbn [bind]; [ | discriminate].
  destruct (if negb (String.eqb (img_mode img0) "RGB")
            then lib_convert L img0 else Ok img0) as [img | e];
    cbn [bind]; [ | discriminate].
  destruct (match select_mode t with
            | Aspect =>
                (bounds <- target_size t Aspect (img_size img) ;;
                 img' <- lib_thumbnail L img bounds ;;
                 Ok (img', img_size img'))%py
            | m =>
                (size <- target_size t m (img_size img) ;;
                 resized <- lib_resize L img size ;;
                 Ok (resized, size))%py
            end) as [[resized final] | e];
    cbn [bind]; [ | discriminate].
  destruct (lib_save L resized (output_path t));
    cbn [bind]; [ | discriminate].
  intros H. injection H as _ <-. reflexivity.
Qed.

(** A task writes nothing, or one file at its output path. *)
Lemma resize_image_writes L (t : Task) :
  snd (resize_image L t) = []
  \/ exists img, snd (resize_image L t) = [(output_path t, img)].
Proof.
  unfold resize_image.
  destruct (resize_body L t) as [[msg [path img]] | e] eqn:E; [right | left; reflexivity].
  apply resize_body_file in E. cbn [fst] in E. subst path. cbn [snd]. eauto.
Qed.

Lemma written_paths_sub L (tasks : list Task) :
  NoDup (map output_path tasks) ->
  NoDup (written_paths (pool_map L tasks))
  /\ forall p, In p (written_paths (pool_map L tasks)) -> In p (map output_path tasks).
Proof.
  unfold written_paths, pool_map.
  induction tasks as [ | t rest IH]; cbn [map flat_map]; intros Hnd.
  - split; [constructor | tauto].
  - inversion Hnd as [ | ? ? Hnotin Hrest]; subst.
    destruct (IH Hrest) as [IHnd IHin].
    rewrite map_app.
    destruct (resize_image_writes L t) as [-> | [img ->]]; cbn [map app fst].
    + split; [exact IHnd | ]. intros p Hp. right. now apply IHin.
    + split.
      * constructor; [ | exact IHnd]. intros Hin. apply Hnotin. now apply IHin.
      * intros p [<- | Hp]; [now left | right; now apply IHin].
Qed.

(** X5. For a listing of distinct names without separator, the tasks of a
    batch read and write under the name of their file, no two tasks have
    the same output path, every file the batch writes is at the output
    path of one of its tasks, and no path is written twice. *)
Theorem outputs_named_after_inputs L (args : Args) (entries : list string) :
  Forall (fun f => contains sep f = false) entries ->
  NoDup entries ->
  let files := filter has_image_suffix entries in
  let tasks := map (make_task args) files in
  (forall f, In f files ->
     basename (input_path (make_task args f)) = f
     /\ basename (output_path (make_task args f)) = f)
  /\ NoDup (map output_path tasks)
  /\ NoDup (written_paths (pool_map L tasks))
  /\ (forall p, In p (written_paths (pool_map L tasks)) ->
        exists f, In f files /\ p = join (output args) f).
Proof.
  intros Hsep Hnd files tasks.
  rewrite Forall_forall in Hsep.
  assert (Hfsep : forall f, In f files -> contains sep f = false).
  { intros f Hf. apply filter_In in Hf. now apply Hsep. }
  assert (Hout : NoDup (map output_path tasks)).
  { unfold tasks. rewrite map_map. cbn [make_task output_path].
    apply NoDup_map_NoDup_ForallPairs; [ | now apply NoDup_filter].
    intros f g Hf Hg. apply join_injective; now apply Hfsep. }
  destruct (written_paths_sub L tasks Hout) as [Hwnd Hwin].
  split; [ | split; [exact Hout | split; [exact Hwnd | ]]].
  - intros f Hf. cbn [make_task input_path output_path].
    split; apply basename_join; now apply Hfsep.
  - intros p Hp. apply Hwin in Hp. unfold tasks in Hp. rewrite map_map in Hp.
    apply in_map_iff in Hp. destruct Hp as (f & <- & Hf). now exists f.
Qed.

Lemma outputs_named_after_inputs_witness :
  NoDup (written_paths
           (pool_map (demo_lib (800, 600))
              (map (make_task demo_args)
                 (filter has_image_suffix ["a.jpg"; "notes.txt"; "B.JPEG"])))).
Proof.
  apply (outputs_named_after_inputs (demo_lib (800, 600)) demo_args
           ["a.jpg"; "notes.txt"; "B.JPEG"]).
  - repeat constructor.
  - repeat constructor; cbn; intuition discriminate.
Defined.

(** ** Which names are selected *)

Lemma string_length_app (a b : string) :
  String.length (a ++ b) = (String.length a + String.length b)%nat.
Proof. induction a as [ | c a IH]; cbn; [reflexivity | now rewrite IH]. Qed.

Lemma substring_all (s : string) : substring 0 (String.length s) s = s.
Proof. induction s as [ | c s IH]; cbn; [reflexivity | now rewrite IH]. Qed.

Lemma substring_app_right (a b : string) :
  substring (String.length a) (String.length b) (a ++ b) = b.
Proof. induction a as [ | c a IH]; cbn; [apply substring_all | exact IH]. Qed.

Lemma substring_split (s : string) (i : nat) :
  (i <= String.length s)%nat ->
  s = (substring 0 i s ++ substring i (String.length s - i) s)%string.
Proof.
  revert i. induction s as [ | c s IH]; intros i Hi.
  - cbn in Hi. assert (i = 0%nat) by lia. subst i. reflexivity.
  - destruct i as [ | i].
    + cbn. now rewrite substring_all.
    + cbn in Hi. cbn. f_equal. apply IH. lia.
Qed.

Lemma rfind_dot_app (a b : string) :
  rfind_dot (a ++ b)
  = match rfind_dot b with
    | Some i => Some (String.length a + i)%nat
    | None => rfind_dot a
    end.
Proof.
  induction a as [ | c a IH]; cbn.
  - destruct (rfind_dot b); reflexivity.
  - rewrite IH. destruct (rfind_dot b); reflexivity.
Qed.

Lemma rfind_dot_bound (s : string) (i : nat) :
  rfind_dot s = Some i -> (i < String.length s)%nat.
Proof.
  revert i. induction s as [ | c s IH]; cbn; intros i; [discriminate | ].
  destruct (rfind_dot s) as [j | ].
  - intros H. injection H as <-. specialize (IH j eq_refl). lia.
  - destruct (Ascii.eqb c dot); [ | discriminate].
    intros H. injection H as <-. lia.
Qed.

Lemma extension_shape (ext : string) :
  In ext extensions -> rfind_dot ext = Some 0%nat /\ (2 <= String.length ext)%nat.
Proof.
  unfold extensions. cbn [In].
  intros [<- | [<- | [<- | [<- | []]]]]; cbn; split; (reflexivity || lia).
Qed.

(** X6. The test of line 101 accepts a name exactly when it is one of the
    four extensions after a stem that is not empty: [a.jpg] and
    [a.tar.JPEG] are accepted, [.jpg] on its own and [a.jpg.bak] are
    not. *)
Theorem selected_names (name : string) :
  has_image_suffix name = true <-> stem_and_extension name.
Proof.
  rewrite has_image_suffix_In. unfold stem_and_extension. split.
  - intros Hin. unfold suffix in Hin.
    destruct (rfind_dot name) as [i | ] eqn:Ei;
      [ | cbn in Hin; intuition discriminate].
    destruct (Nat.ltb 0 i && Nat.ltb i (String.length name - 1))%bool eqn:Ec;
      [ | cbn in Hin; intuition discriminate].
    apply andb_true_iff in Ec. destruct Ec as [Hi0 _]. apply Nat.ltb_lt in Hi0.
    pose proof (rfind_dot_bound name i Ei) as Hlen.
    exists (substring 0 i name), (substring i (String.length name - i) name).
    split; [exact Hin | split; [ | apply substring_split; lia]].
    destruct name as [ | c r]; [cbn in Hlen; lia | ].
    destruct i as [ | i]; [lia | ]. cbn. discriminate.
  - intros (stem & ext & Hext & Hstem & ->).
    destruct (extension_shape ext Hext) as [Hdot Hlen].
    unfold suffix. rewrite rfind_dot_app, Hdot, string_length_app, Nat.add_0_r.
    assert (Hs : (0 < String.length stem)%nat)
      by (destruct stem; [congruence | cbn; lia]).
    replace (Nat.ltb 0 (String.length stem)) with true
      by (symmetry; apply Nat.ltb_lt; lia).
    replace (Nat.ltb (String.length stem) (String.length stem + String.length ext - 1))
      with true by (symmetry; apply Nat.ltb_lt; lia).
    cbn [andb].
    replace (String.length stem + String.length ext - String.length stem)%nat
      with (String.length ext) by lia.
    now rewrite substring_app_right.
Qed.

(** The checks are what keeps the two chains together: [--aspect] with a
    width and no height is refused; without the refusal [main] would
    announce the bounded fit and [resize_image] would scale by width. *)
Example announced_mode_needs_validation :
  validate aspect_width_only <> None
  /\ display_mode (demo_runtime ["a.jpg"]) aspect_width_only
     = mode_banner (demo_runtime ["a.jpg"]) aspect_width_only Aspect
  /\ select_mode (make_task aspect_width_only "a.jpg") = WidthOnly.
Proof. repeat split. discriminate. Qed.

(** ** Scaling that needs no rounding *)

(** X7. In the percent branch, a side whose exact scaled value
    [side * p / 100] is a whole number below [2^53 / 100] comes out as
    exactly that number: the double-precision product and quotient are
    then both exact. *)
Theorem percent_whole_is_exact (t : Task) (mp : positive) (ep : Z) (W H kw kh : Z) :
  t_percent t = Some (S754_finite false mp ep) ->
  valid_binary prec emax (S754_finite false mp ep) = true ->
  1 <= W < 2 ^ 53 -> 1 <= H < 2 ^ 53 ->
  (inject_Z W * SF2Q (S754_finite false mp ep) == 100 * inject_Z kw)%Q ->
  (inject_Z H * SF2Q (S754_finite false mp ep) == 100 * inject_Z kh)%Q ->
  100 * kw < 2 ^ 53 -> 100 * kh < 2 ^ 53 ->
  select_mode t = Percent
  /\ target_size t Percent (W, H) = Ok (kw, kh).
Proof.
  intros Hp Hv HW HH Hkw Hkh Bw Bh. split.
  - unfold select_mode. rewrite Hp. reflexivity.
  - cbn [target_size]. rewrite Hp. cbn [need_float bind].
    rewrite (ExactRounding.scale_percent_whole W mp ep kw Hv HW Hkw Bw). cbn [bind].
    rewrite (ExactRounding.scale_percent_whole H mp ep kh Hv HH Hkh Bh). reflexivity.
Qed.

Lemma percent_whole_is_exact_witness :
  target_size (sizing_task (Some seventy_five) None None) Percent (800, 600)
  = Ok (600, 450).
Proof.
  apply (percent_whole_is_exact (sizing_task (Some seventy_five) None None)
           5277655813324800 (-46) 800 600 600 450);
    reflexivity || lia.
Defined.

(** X8. [--percent 100] hands the library the size the image already has,
    for every side up to [2^46]. *)
Theorem percent_100_keeps_size (t : Task) (W H : Z) :
  t_percent t = Some one_hundred ->
  1 <= W < 2 ^ 46 -> 1 <= H < 2 ^ 46 ->
  target_size t Percent (W, H) = Ok (W, H).
Proof.
  intros Hp HW HH. cbn [target_size]. rewrite Hp. cbn [need_float bind].
  assert (Hside : forall n, 1 <= n < 2 ^ 46 -> scale_percent n one_hundred = Ok n).
  { intros n Hn. unfold one_hundred.
    apply ExactRounding.scale_percent_whole; [reflexivity | lia | | lia].
    change (SF2Q (S754_finite false 7036874417766400 (-46)))
      with (FloatValue.F2Q 7036874417766400 (-46)).
    rewrite PercentProof.hundred_value. ring. }
  rewrite (Hside W HW). cbn [bind]. rewrite (Hside H HH). reflexivity.
Qed.

Lemma percent_100_keeps_size_witness :
  target_size (sizing_task (Some one_hundred) None None) Percent (4032, 3024)
  = Ok (4032, 3024).
Proof.
  apply (percent_100_keeps_size (sizing_task (Some one_hundred) None None) 4032 3024);
    reflexivity || lia.
Defined.

(** X9. In the single-dimension branches, when the ratio of the sides of
    the image is a dyadic fraction [c / 2^j] (a square image, 2:1, a
    landscape 4:3 or 16:9 scaled by width), and all sides are below
    [2^24], the computed side is exactly the proportional value
    truncated: nothing is lost when the ratio is rounded. *)
Theorem dyadic_ratio_is_exact (t : Task) (W H n c j : Z) :
  1 <= W < 2 ^ 24 -> 1 <= H < 2 ^ 24 -> 1 <= n < 2 ^ 24 ->
  0 <= j <= 24 -> n * c < 2 ^ 53 ->
  (t_width t = Some n -> W * c = H * 2 ^ j ->
   target_size t WidthOnly (W, H) = Ok (n, n * H / W))
  /\ (t_height t = Some n -> H * c = W * 2 ^ j ->
      target_size t HeightOnly (W, H) = Ok (n * W / H, n)).
Proof.
  intros HW HH Hn Hj Hnc. split; intros Hgiven Hratio.
  - cbn [target_size]. rewrite Hgiven. cbn [need_int bind].
    rewrite (ExactRounding.scale_ratio_dyadic n H W c j Hn HH HW Hj Hratio Hnc).
    reflexivity.
  - cbn [target_size]. rewrite Hgiven. cbn [need_int bind].
    rewrite (ExactRounding.scale_ratio_dyadic n W H c j Hn HW HH Hj Hratio Hnc).
    reflexivity.
Qed.

Lemma dyadic_ratio_is_exact_witness :
  target_size (sizing_task None (Some 1280) None) WidthOnly (1920, 1080) = Ok (1280, 720)
  /\ target_size (sizing_task None None (Some 300)) HeightOnly (600, 600) = Ok (300, 300).
Proof.
  split.
  - apply (dyadic_ratio_is_exact (sizing_task None (Some 1280) None) 1920 1080 1280 9 4);
      reflexivity || lia.
  - apply (dyadic_ratio_is_exact (sizing_task None None (Some 300)) 600 600 300 1 0);
      reflexivity || lia.
Defined.

(** ** Sides that vanish *)

(** X10. In the single-dimension branches, with all sides below [2^24],
    an image so elongated that the requested side times the other side of
    the image is less than the side it is divided by gets the computed
    side 0: the size handed to [img.resize] has a zero in it, as for the
    1000 by 1 image scaled to width 400. *)
Theorem elongated_image_gets_zero (t : Task) (W H n : Z) :
  1 <= W < 2 ^ 24 -> 1 <= H < 2 ^ 24 -> 1 <= n < 2 ^ 24 ->
  (t_width t = Some n -> n * H < W ->
   target_size t WidthOnly (W, H) = Ok (n, 0))
  /\ (t_height t = Some n -> n * W < H ->
      target_size t HeightOnly (W, H) = Ok (0, n)).
Proof.
  intros HW HH Hn.
  assert (Hzero : forall num den, 1 <= num < 2 ^ 24 -> 1 <= den < 2 ^ 24 ->
            n * num < den -> scale_ratio n num den = Ok 0).
  { intros num den Hnum Hden Hlt.
    destruct (RatioProof.scale_ratio_bounds n num den Hn Hnum Hden) as (h & -> & Hh).
    f_equal. rewrite (Z.div_small (n * num) den) in Hh by nia.
    rewrite (Z.mod_small (n * num) den) in Hh by nia.
    destruct Hh as [-> | [_ Hz]]; [reflexivity | nia]. }
  split; intros Hgiven Hlt; cbn [target_size]; rewrite Hgiven; cbn [need_int bind].
  - rewrite (Hzero H W HH HW Hlt). reflexivity.
  - rewrite (Hzero W H HW HH Hlt). reflexivity.
Qed.

Lemma elongated_image_gets_zero_witness :
  target_size (sizing_task None (Some 400) None) WidthOnly (5000, 12) = Ok (400, 0).
Proof.
  apply (elongated_image_gets_zero (sizing_task None (Some 400) None) 5000 12 400);
    reflexivity || lia.
Defined.

(** ** One bad file *)

(** X11. Making one file of the listing unreadable changes the result of
    that file, which becomes its failure line with nothing written, and of
    no other file of the batch. *)
Theorem one_bad_file_is_isolated L (args : Args) (entries : list string)
    (bad : string) (e : exn) :
  Forall (fun f => contains sep f = false) entries ->
  In bad entries ->
  let L' := corrupt L (join (input args) bad) e in
  resize_image L' (make_task args bad)
  = (("✗ Error with " ++ bad ++ ": " ++ exn_str e)%string, [])
  /\ forall f, In f entries -> f <> bad ->
       resize_image L' (make_task args f) = resize_image L (make_task args f).
Proof.
  intros Hsep Hbad L'. rewrite Forall_forall in Hsep. split.
  - unfold resize_image, resize_body. cbn [L' corrupt lib_open make_task input_path].
    rewrite String.eqb_refl. cbn [bind].
    now rewrite failure_message_names_file by (now apply Hsep).
  - intros f Hf Hne.
    unfold resize_image, resize_body.
    cbn [L' corrupt lib_open lib_convert lib_resize lib_thumbnail lib_save
         make_task input_path].
    destruct (String.eqb_spec (join (input args) f) (join (input args) bad)) as [E | _];
      [ | reflexivity].
    exfalso. apply Hne. apply (join_injective (input args)); auto.
Qed.

Lemma one_bad_file_is_isolated_witness :
  resize_image (corrupt (demo_lib (800, 600)) (join "in" "b.jpg") (Exn "truncated"))
    (make_task demo_args "b.jpg")
  = ("✗ Error with b.jpg: truncated", [])
  /\ forall f, In f ["a.jpg"; "b.jpg"] -> f <> "b.jpg" ->
       resize_image (corrupt (demo_lib (800, 600)) (join "in" "b.jpg") (Exn "truncated"))
         (make_task demo_args f)
       = resize_image (demo_lib (800, 600)) (make_task demo_args f).
Proof.
  apply (one_bad_file_is_isolated (demo_lib (800, 600)) demo_args ["a.jpg"; "b.jpg"]
           "b.jpg" (Exn "truncated")).
  - repeat constructor.
  - right. left. reflexivity.
Defined.
